(** * Cross-repo sync: the orchestration engine of [actions/cross-repo-sync]

    A shallow embedding of [src/program.ts]: the path-mapping parser inside
    [parse_inputs], [clone_repo], [move_paths], [commit_and_push] and
    [program], written against the [Core], [Git], [GitRepo] and [FileSystem]
    services the TypeScript code asks its context for.

    Strings are sequences of code units in the range U+0000..U+00FF; every
    service call is recorded, in order, in a trace of events. *)

From Stdlib Require Import Ascii String.
From stdpp Require Import base option list strings gmap.

#[local] Arguments String.append !_ _ : simpl nomatch.

(** ** String primitives of the JavaScript standard library *)

Module JsString.

Definition ch (n : nat) : ascii := ascii_of_nat n.

Definition quote : ascii := ch 34.
Definition slash : ascii := ch 47.
Definition colon : ascii := ch 58.
Definition dot : ascii := ch 46.
Definition newline : ascii := ch 10.
Definition carriage_return : ascii := ch 13.

Definition str1 (c : ascii) : string := String c EmptyString.

(** [!s] on a string: only the empty string is falsy. *)
Definition is_empty (s : string) : bool :=
  match s with EmptyString => true | String _ _ => false end.

(** White space of ECMAScript (WhiteSpace and LineTerminator) below U+0100:
    TAB, LF, VT, FF, CR, SP and NBSP. *)
Definition is_space (c : ascii) : bool :=
  let n := nat_of_ascii c in
  ((9 <=? n)%nat && (n <=? 13)%nat) || (n =? 32)%nat || (n =? 160)%nat.

Fixpoint trim_start (s : string) : string :=
  match s with
  | EmptyString => EmptyString
  | String c s' => if is_space c then trim_start s' else s
  end.

Fixpoint trim_end (s : string) : string :=
  match s with
  | EmptyString => EmptyString
  | String c s' =>
      let r := trim_end s' in
      if is_space c && is_empty r then EmptyString else String c r
  end.

(** [String.prototype.trim] *)
Definition trim (s : string) : string := trim_end (trim_start s).

(** [s.indexOf(c)] for a one-character pattern; [None] stands for [-1]. *)
Fixpoint indexOf (c : ascii) (s : string) : option nat :=
  match s with
  | EmptyString => None
  | String d s' =>
      if Ascii.eqb d c then Some 0
      else match indexOf c s' with
           | Some i => Some (S i)
           | None => None
           end
  end.

(** [s.slice(0, n)] and [s.slice(n)] for [0 <= n]. *)
Fixpoint slice_to (n : nat) (s : string) : string :=
  match n, s with
  | O, _ => EmptyString
  | S _, EmptyString => EmptyString
  | S n', String c s' => String c (slice_to n' s')
  end.

Fixpoint slice_from (n : nat) (s : string) : string :=
  match n, s with
  | O, _ => s
  | S _, EmptyString => EmptyString
  | S n', String _ s' => slice_from n' s'
  end.

(** [s.startsWith(p)] *)
Fixpoint startsWith (p s : string) : bool :=
  match p, s with
  | EmptyString, _ => true
  | String _ _, EmptyString => false
  | String a p', String b s' => Ascii.eqb a b && startsWith p' s'
  end.

(** [s.includes(p)] *)
Fixpoint includes (p s : string) : bool :=
  startsWith p s ||
  match s with
  | EmptyString => false
  | String _ s' => includes p s'
  end.

(** [s.split(c)] for a one-character separator: never the empty list. *)
Fixpoint split (c : ascii) (s : string) : list string :=
  match s with
  | EmptyString => [EmptyString]
  | String d s' =>
      if Ascii.eqb d c then EmptyString :: split c s'
      else match split c s' with
           | [] => [str1 d]
           | w :: ws => String d w :: ws
           end
  end.

(** [parts.join(c)] *)
Fixpoint join (c : ascii) (parts : list string) : string :=
  match parts with
  | [] => EmptyString
  | [w] => w
  | w :: ws => w +:+ String c (join c ws)
  end.

Fixpoint last_char (s : string) : option ascii :=
  match s with
  | EmptyString => None
  | String c EmptyString => Some c
  | String _ s' => last_char s'
  end.

Fixpoint drop_last (s : string) : string :=
  match s with
  | EmptyString => EmptyString
  | String _ EmptyString => EmptyString
  | String c s' => String c (drop_last s')
  end.

Fixpoint all_chars (p : ascii -> bool) (s : string) : bool :=
  match s with
  | EmptyString => true
  | String c s' => p c && all_chars p s'
  end.

(** The characters the regular expression dot does not match below U+0100. *)
Definition is_line_terminator (c : ascii) : bool :=
  Ascii.eqb c newline || Ascii.eqb c carriage_return.

(** [s.replace(re, '$1')] for the pattern [re] that matches, from the start
    of the string to its end, a double quote, a captured run of characters
    other than line terminators, and a double quote: a string of that
    shape loses both quotes; every other string is returned as it is. *)
Definition strip_quotes (s : string) : string :=
  match s with
  | String q rest =>
      if Ascii.eqb q quote then
        match last_char rest with
        | Some q' =>
            let body := drop_last rest in
            if Ascii.eqb q' quote
               && all_chars (fun c => negb (is_line_terminator c)) body
            then body else s
        | None => s
        end
      else s
  | EmptyString => s
  end.

(** Character class [[a-zA-Z0-9._-]]. *)
Definition is_repo_char (c : ascii) : bool :=
  let n := nat_of_ascii c in
  ((97 <=? n)%nat && (n <=? 122)%nat)
  || ((65 <=? n)%nat && (n <=? 90)%nat)
  || ((48 <=? n)%nat && (n <=? 57)%nat)
  || (n =? 46)%nat || (n =? 95)%nat || (n =? 45)%nat.

(** [/^[a-zA-Z0-9._-]+\/[a-zA-Z0-9._-]+$/.test(s)] *)
Definition test_repo_format (s : string) : bool :=
  match split slash s with
  | [owner; name] =>
      negb (is_empty owner) && all_chars is_repo_char owner
      && negb (is_empty name) && all_chars is_repo_char name
  | _ => false
  end.

(** Characters [encodeURIComponent] leaves as they are:
    letters, digits and [- _ . ! ~ * ' ( )]. *)
Definition is_uri_unreserved (c : ascii) : bool :=
  let n := nat_of_ascii c in
  ((97 <=? n)%nat && (n <=? 122)%nat)
  || ((65 <=? n)%nat && (n <=? 90)%nat)
  || ((48 <=? n)%nat && (n <=? 57)%nat)
  || (n =? 45)%nat || (n =? 95)%nat || (n =? 46)%nat || (n =? 33)%nat
  || (n =? 126)%nat || (n =? 42)%nat || (n =? 39)%nat || (n =? 40)%nat
  || (n =? 41)%nat.

Definition hex_digit (n : nat) : ascii :=
  if (n <? 10)%nat then ch (48 + n) else ch (55 + n).

Definition percent : ascii := ch 37.

(** [%XX] for one octet. *)
Definition percent_octet (n : nat) : string :=
  String percent (String (hex_digit (n / 16)) (str1 (hex_digit (n mod 16)))).

(** The UTF-8 octets of a code unit below U+0100, percent-escaped. *)
Definition percent_encode_unit (c : ascii) : string :=
  let n := nat_of_ascii c in
  if (n <? 128)%nat then percent_octet n
  else percent_octet (192 + n / 64) +:+ percent_octet (128 + n mod 64).

(** [encodeURIComponent(s)] *)
Fixpoint encodeURIComponent (s : string) : string :=
  match s with
  | EmptyString => EmptyString
  | String c s' =>
      (if is_uri_unreserved c then str1 c else percent_encode_unit c)
      +:+ encodeURIComponent s'
  end.

End JsString.

(** ** [path.join], [path.normalize] and [path.dirname] of Node's POSIX path
    module, which [Path.layer] provides to the program *)

Module PosixPath.
Import JsString.

Definition dotdot : string := String dot (str1 dot).

(** [normalizeString]: the kept segments are accumulated last-first. An
    empty segment and [.] are dropped; [..] removes the segment before it
    unless there is none or it is [..] itself, in which case it is kept
    only when the path may climb above its root. *)
Fixpoint normalize_segments (allowAboveRoot : bool)
    (segs : list string) (res : list string) : list string :=
  match segs with
  | [] => rev res
  | seg :: rest =>
      if is_empty seg || String.eqb seg (str1 dot) then
        normalize_segments allowAboveRoot rest res
      else if String.eqb seg dotdot then
        match res with
        | prev :: res' =>
            if String.eqb prev dotdot then
              normalize_segments allowAboveRoot rest
                (if allowAboveRoot then dotdot :: res else res)
            else normalize_segments allowAboveRoot rest res'
        | [] =>
            normalize_segments allowAboveRoot rest
              (if allowAboveRoot then [dotdot] else [])
        end
      else normalize_segments allowAboveRoot rest (seg :: res)
  end.

Definition has_no_slash (seg : string) : bool :=
  match indexOf slash seg with
  | None => true
  | Some _ => false
  end.

(** A segment a normalized path keeps: not empty, without a slash. *)
Definition is_segment (seg : string) : bool :=
  negb (is_empty seg) && has_no_slash seg.

(** A segment that names an entry: neither [.] nor [..]. *)
Definition is_name (seg : string) : bool :=
  is_segment seg
  && negb (String.eqb seg (str1 dot)) && negb (String.eqb seg dotdot).

(** The shape of the kept segments, last first: names, then the leading
    parent-directory segments, which only a relative path has. *)
Definition kept (allow : bool) (res : list string) : Prop :=
  exists k names,
    res = names ++ repeat dotdot k
    /\ Forall (fun w => is_name w = true) names
    /\ (allow = false -> k = 0).

Definition endsWith_slash (s : string) : bool :=
  match last_char s with
  | Some c => Ascii.eqb c slash
  | None => false
  end.

(** The end of [path.normalize]: the kept segments are glued with
    slashes, between the root and the trailing slash the path had. *)
Definition assemble (isAbsolute trailingSeparator : bool)
    (segs : list string) : string :=
  let body := join slash segs in
  if is_empty body then
    if isAbsolute then str1 slash
    else if trailingSeparator then String dot (str1 slash) else str1 dot
  else
    (if isAbsolute then str1 slash else EmptyString)
    +:+ body +:+ (if trailingSeparator then str1 slash else EmptyString).

(** [path.normalize] *)
Definition normalize (path : string) : string :=
  if is_empty path then str1 dot
  else
    let isAbsolute := startsWith (str1 slash) path in
    let trailingSeparator := endsWith_slash path in
    assemble isAbsolute trailingSeparator
      (normalize_segments (negb isAbsolute) (split slash path) []).

(** [path.join(a, b)]: empty arguments are left out, the others are glued
    with a slash and the result is normalized. *)
Definition path_join (a b : string) : string :=
  match is_empty a, is_empty b with
  | true, true => str1 dot
  | true, false => normalize b
  | false, true => normalize a
  | false, false => normalize (a +:+ String slash b)
  end.

Fixpoint drop_while {A} (p : A -> bool) (l : list A) : list A :=
  match l with
  | [] => []
  | x :: l' => if p x then drop_while p l' else l
  end.

(** [path.dirname]: scanning from the end down to index 1, skip the
    trailing slashes and the last segment; the path up to the slash found
    there is the result. *)
Definition dirname (path : string) : string :=
  match path with
  | EmptyString => str1 dot
  | String first rest =>
      let hasRoot := Ascii.eqb first slash in
      let is_slash := fun c => Ascii.eqb c slash in
      let scanned :=
        drop_while (fun c => negb (is_slash c))
          (drop_while is_slash (rev (list_ascii_of_string rest))) in
      match scanned with
      | [] => if hasRoot then str1 slash else str1 dot
      | _ :: before =>
          if hasRoot && is_empty (string_of_list_ascii before)
          then String slash (str1 slash)
          else String first (string_of_list_ascii (rev before))
      end
  end.

End PosixPath.

(** ** The in-memory volume

    The [FileSystem] service is not part of the repository; the test suite
    backs it with an in-memory volume ([makeDirectory] is a recursive mkdir,
    [rename] a rename, [makeTempDirectory] creates [/tmp/cross-repo-sync]).
    This module is that volume: a tree of files and directories addressed by
    the segments of a normalized absolute path. *)

Module MemFs.
Import JsString.

#[local] Unset Elimination Schemes.
Inductive node :=
| File (content : string)
| Dir (entries : gmap string node).
#[local] Set Elimination Schemes.

Inductive errno := ENOENT | ENOTDIR | EISDIR | ENOTEMPTY | EINVAL.

Definition empty_dir : node := Dir ∅.

(** The segments a file name resolves to, from the root (which is also
    where a relative name starts). *)
Definition steps (path : string) : list string :=
  PosixPath.normalize_segments false (split slash path) [].

Fixpoint get (p : list string) (n : node) : option node :=
  match p with
  | [] => Some n
  | s :: p' =>
      match n with
      | Dir es =>
          match es !! s with
          | Some c => get p' c
          | None => None
          end
      | File _ => None
      end
  end.

(** Bind [new] at [p]; the parent of [p] has to be a directory. Whatever
    was at [p] is replaced. *)
Fixpoint put (p : list string) (new : node) (n : node) : option node :=
  match p with
  | [] => None
  | s :: p' =>
      match n with
      | Dir es =>
          match p' with
          | [] => Some (Dir (<[s := new]> es))
          | _ :: _ =>
              match es !! s with
              | Some c =>
                  match put p' new c with
                  | Some c' => Some (Dir (<[s := c']> es))
                  | None => None
                  end
              | None => None
              end
          end
      | File _ => None
      end
  end.

(** Unlink the entry at [p], if there is one. *)
Fixpoint del (p : list string) (n : node) : node :=
  match p with
  | [] => n
  | s :: p' =>
      match n with
      | Dir es =>
          match p' with
          | [] => Dir (delete s es)
          | _ :: _ =>
              match es !! s with
              | Some c => Dir (<[s := del p' c]> es)
              | None => n
              end
          end
      | File _ => n
      end
  end.

(** [mkdirSync(path, { recursive: true })] *)
Fixpoint mkdirp (p : list string) (n : node) : option node :=
  match n with
  | File _ => None
  | Dir es =>
      match p with
      | [] => Some n
      | s :: p' =>
          match mkdirp p' (default empty_dir (es !! s)) with
          | Some c' => Some (Dir (<[s := c']> es))
          | None => None
          end
      end
  end.

Definition is_nonempty_dir (n : node) : bool :=
  match n with
  | Dir es => negb (bool_decide (es = ∅))
  | File _ => false
  end.

Definition is_dir (n : node) : bool :=
  match n with Dir _ => true | File _ => false end.

(** What rename(2) refuses when [newpath] exists, and the volume of the
    test suite does not check: a directory over a file, a file over a
    directory, anything over a directory that is not empty. Renaming a
    path to itself is not refused. *)
Definition posix_refuses (src dst : list string) (moved : node)
    (root : node) : option errno :=
  if bool_decide (src = dst) then None
  else
    match get dst root with
    | None => None
    | Some old =>
        if is_dir old && negb (is_dir moved) then Some EISDIR
        else if negb (is_dir old) && is_dir moved then Some ENOTDIR
        else if is_nonempty_dir old then Some ENOTEMPTY
        else None
    end.

(** [renameSync(oldPath, newPath)]: the entry is unlinked from its old
    directory and linked under its new name, replacing what was there.
    With [posix] set the checks of rename(2) are made first. *)
Definition rename (posix : bool) (src dst : list string) (root : node)
    : errno + node :=
  match get src root with
  | None => inl ENOENT
  | Some moved =>
      match (if posix then posix_refuses src dst moved root else None) with
      | Some e => inl e
      | None =>
          match put dst moved (del src root) with
          | Some root' => inr root'
          | None => inl EINVAL
          end
      end
  end.

(** Two locations neither of which lies at or under the other. *)
Definition unrelated (p q : list string) : Prop :=
  ~ p `prefix_of` q /\ ~ q `prefix_of` p.

End MemFs.

(** ** The program of [src/program.ts] *)

Module Sync.
Import JsString.

(** The template literals handed to [core.info] and [core.warning]. *)
Inductive Message :=
| UnsafePathSkipped (clean_source : string)
| UnsafeMappingSkipped (clean_source clean_destination : string)
| StartingSync (destination_repo : string) (dry_run : bool)
| FoundSyncPaths (count : nat)
| SyncPathLine (number : nat) (source destination : string)
| DryRunMode
| NoChangesDetected
| PushedChanges (commit_hash : string)
| SyncCompleted.

(** The [Error]s that [parse_inputs] fails with. *)
Inductive ValidationError :=
| TokenRequired
| DestinationRepoRequired
| SourceRepoRequired
| InvalidRepositoryFormat (destination_repo : string)
| SyncPathsRequired
| NoValidSyncPaths.

Inductive Error (PErr : Type) :=
| Validation (e : ValidationError)
| Platform (e : PErr).
Arguments Validation {PErr} e.
Arguments Platform {PErr} e.

Inductive Exit (E A : Type) :=
| Success (a : A)
| Failure (e : E).
Arguments Success {E A} a.
Arguments Failure {E A} e.

Record ActionInputs := {
  personal_access_token : string;
  sync_paths : list (string * string);
  source_repo : string;
  destination_repo : string;
  dry_run : bool;
}.

Record GitConfig := {
  username : string;
  email : string;
}.

Inductive SpanValue :=
| AttrString (s : string)
| AttrPaths (paths : list (string * string))
| AttrBool (b : bool).

(** One constructor per call a program makes on a service. *)
Inductive Event (Repo : Type) :=
| CoreSetSecret (secret : string)
| CoreWarning (message : Message)
| CoreInfo (message : Message)
| CoreSetOutput (name value : string)
| AnnotateCurrentSpan (key : string) (value : SpanValue)
| FsMakeTempDirectory
| FsMakeDirectory (path : string)
| FsRename (oldPath newPath : string)
| FsRemove (path : string)
| GitSetConfig (config : GitConfig)
| GitClone (url target_dir : string)
| GitRepoFromPath (dir : string)
| RepoStatus (repo : Repo)
| RepoAdd (repo : Repo) (paths : list string)
| RepoCommit (repo : Repo) (message : string)
| RepoPush (repo : Repo)
| RepoRevParse (repo : Repo) (ref : string).
Arguments CoreSetSecret {Repo} secret.
Arguments CoreWarning {Repo} message.
Arguments CoreInfo {Repo} message.
Arguments CoreSetOutput {Repo} name value.
Arguments AnnotateCurrentSpan {Repo} key value.
Arguments FsMakeTempDirectory {Repo}.
Arguments FsMakeDirectory {Repo} path.
Arguments FsRename {Repo} oldPath newPath.
Arguments FsRemove {Repo} path.
Arguments GitSetConfig {Repo} config.
Arguments GitClone {Repo} url target_dir.
Arguments GitRepoFromPath {Repo} dir.
Arguments RepoStatus {Repo} repo.
Arguments RepoAdd {Repo} repo paths.
Arguments RepoCommit {Repo} repo message.
Arguments RepoPush {Repo} repo.
Arguments RepoRevParse {Repo} repo ref.

(** The services of the context. [Core.get_input] answers with the value of
    an input, the empty string when it is not set (its second argument is
    the [required] option); the [FileSystem], [Git] and [GitRepo] operations
    act on a world [W] and succeed or fail with a platform error.
    [FileSystem.remove] is there for the earlier program of [main.ts];
    [program.ts] has no call of it. *)
Record Services (W Repo PErr : Type) := {
  get_input : string -> bool -> string;
  makeTempDirectory : W -> Exit PErr string * W;
  makeDirectory : string -> W -> Exit PErr unit * W;
  fs_rename : string -> string -> W -> Exit PErr unit * W;
  fs_remove : string -> W -> Exit PErr unit * W;
  git_config : GitConfig -> W -> Exit PErr unit * W;
  git_clone : string -> string -> W -> Exit PErr Repo * W;
  repo_from_path : string -> W -> Exit PErr Repo * W;
  repo_status : Repo -> W -> Exit PErr string * W;
  repo_add : Repo -> list string -> W -> Exit PErr unit * W;
  repo_commit : Repo -> string -> W -> Exit PErr unit * W;
  repo_push : Repo -> W -> Exit PErr unit * W;
  repo_rev_parse : Repo -> string -> W -> Exit PErr string * W;
}.
Arguments get_input {W Repo PErr} _ _ _.
Arguments makeTempDirectory {W Repo PErr} _ _.
Arguments makeDirectory {W Repo PErr} _ _ _.
Arguments fs_rename {W Repo PErr} _ _ _ _.
Arguments fs_remove {W Repo PErr} _ _ _.
Arguments git_config {W Repo PErr} _ _ _.
Arguments git_clone {W Repo PErr} _ _ _ _.
Arguments repo_from_path {W Repo PErr} _ _ _.
Arguments repo_status {W Repo PErr} _ _ _.
Arguments repo_add {W Repo PErr} _ _ _ _.
Arguments repo_commit {W Repo PErr} _ _ _ _.
Arguments repo_push {W Repo PErr} _ _ _.
Arguments repo_rev_parse {W Repo PErr} _ _ _ _.

(** The state a run threads: the world and the calls made so far. *)
Record State (W Repo : Type) := {
  world : W;
  trace : list (Event Repo);
}.
Arguments world {W Repo} _.
Arguments trace {W Repo} _.
Arguments Build_State {W Repo} _ _.

(** An effect: it runs on a state and succeeds or fails (as [Effect.fail]
    or a failed service call does), leaving a state behind. *)
Definition Eff (W Repo PErr A : Type) : Type :=
  State W Repo -> Exit (Error PErr) A * State W Repo.

Section Effects.
Context {W Repo PErr : Type}.

Definition succeed {A} (a : A) : Eff W Repo PErr A :=
  fun st => (Success a, st).

Definition fail {A} (e : ValidationError) : Eff W Repo PErr A :=
  fun st => (Failure (Validation e), st).

(** [yield*]: run [m]; go on with its value, or stop at its failure. *)
Definition and_then {A B} (m : Eff W Repo PErr A)
    (k : A -> Eff W Repo PErr B) : Eff W Repo PErr B :=
  fun st =>
    match m st with
    | (Success a, st') => k a st'
    | (Failure e, st') => (Failure e, st')
    end.

(** A call on [Core] or on the tracer: recorded, never failing. *)
Definition record (ev : Event Repo) : Eff W Repo PErr unit :=
  fun st =>
    (Success tt, {| world := world st; trace := trace st ++ [ev] |}).

(** A call on a service that acts on the world: recorded, then run. *)
Definition call {A} (ev : Event Repo) (op : W -> Exit PErr A * W)
    : Eff W Repo PErr A :=
  fun st =>
    let tr := trace st ++ [ev] in
    match op (world st) with
    | (Success a, w') => (Success a, {| world := w'; trace := tr |})
    | (Failure e, w') =>
        (Failure (Platform e), {| world := w'; trace := tr |})
    end.
End Effects.

Notation "'yield' x <- m ; k" := (and_then m (fun x => k))
  (at level 10, x name, m at level 100, k at level 200).

Section Program.
Context {W Repo PErr : Type} (svc : Services W Repo PErr).

#[local] Abbreviation Eff' := (Eff W Repo PErr).

(** The path-safety test of both branches of the parser. *)
Definition unsafe_path (clean : string) : bool :=
  includes PosixPath.dotdot clean || startsWith (str1 slash) clean.

(** The loop over [sync_paths_input.split(newline)]; [sync_paths] is the
    array the loop pushes to. *)
Fixpoint parse_sync_paths (lines : list string)
    (sync_paths : list (string * string))
    : Eff' (list (string * string)) :=
  match lines with
  | [] => succeed sync_paths
  | line :: rest =>
      let trimmed_line := trim line in
      if is_empty trimmed_line then parse_sync_paths rest sync_paths
      else
        match indexOf colon trimmed_line with
        | None =>
            let clean_source := strip_quotes trimmed_line in
            if unsafe_path clean_source then
              yield _ <-
                record (CoreWarning (UnsafePathSkipped clean_source)) ;
              parse_sync_paths rest sync_paths
            else
              parse_sync_paths rest
                (sync_paths ++ [(clean_source, clean_source)])
        | Some colon_index =>
            let source := trim (slice_to colon_index trimmed_line) in
            let destination :=
              trim (slice_from (colon_index + 1) trimmed_line) in
            let clean_source := strip_quotes source in
            let clean_destination := strip_quotes destination in
            if unsafe_path clean_source || unsafe_path clean_destination
            then
              yield _ <-
                record (CoreWarning
                  (UnsafeMappingSkipped clean_source clean_destination)) ;
              parse_sync_paths rest sync_paths
            else
              parse_sync_paths rest
                (sync_paths ++ [(clean_source, clean_destination)])
        end
  end.

Definition parse_inputs : Eff' ActionInputs :=
  let personal_access_token :=
    get_input svc "personal_access_token" true in
  let sync_paths_input := get_input svc "sync_paths" true in
  let source_repo := get_input svc "source_repo" true in
  let destination_repo := get_input svc "destination_repo" true in
  let dry_run := String.eqb (get_input svc "dry_run" false) "true" in
  yield _ <- record (CoreSetSecret personal_access_token) ;
  if is_empty personal_access_token then fail TokenRequired
  else if is_empty destination_repo then fail DestinationRepoRequired
  else if is_empty source_repo then fail SourceRepoRequired
  else if negb (test_repo_format destination_repo) then
    fail (InvalidRepositoryFormat destination_repo)
  else if is_empty (trim sync_paths_input) then fail SyncPathsRequired
  else
    yield sync_paths <-
      parse_sync_paths (split newline sync_paths_input) [] ;
    if (length sync_paths =? 0)%nat then fail NoValidSyncPaths
    else
      succeed {|
        personal_access_token := personal_access_token;
        sync_paths := sync_paths;
        source_repo := source_repo;
        destination_repo := destination_repo;
        dry_run := dry_run;
      |}.

Definition configureGit (config : GitConfig) : Eff' unit :=
  call (GitSetConfig config) (git_config svc config).

Definition repo_url (access_token repo : string) : string :=
  "https://" +:+ encodeURIComponent access_token
  +:+ "@github.com/" +:+ repo +:+ ".git".

Definition clone_repo (access_token repo dir : string) : Eff' Repo :=
  let url := repo_url access_token repo in
  call (GitClone url dir) (git_clone svc url dir).

(** The body of the loop of [move_paths]: the parent of the destination
    is made, then the source is renamed onto the destination. *)
Definition move_one (source destination : string)
    (source_clone_dir destination_clone_dir : string) : Eff' unit :=
  let source_path := PosixPath.path_join source_clone_dir source in
  let destination_path :=
    PosixPath.path_join destination_clone_dir destination in
  let destination_dir_path := PosixPath.dirname destination_path in
  yield _ <-
    call (FsMakeDirectory destination_dir_path)
      (makeDirectory svc destination_dir_path) ;
  call (FsRename source_path destination_path)
    (fs_rename svc source_path destination_path).

(** The loop of [move_paths] over [inputs.sync_paths]. *)
Fixpoint move_each (paths : list (string * string))
    (source_clone_dir destination_clone_dir : string) : Eff' unit :=
  match paths with
  | [] => succeed tt
  | (source, destination) :: rest =>
      yield _ <-
        move_one source destination source_clone_dir
          destination_clone_dir ;
      move_each rest source_clone_dir destination_clone_dir
  end.

Definition move_paths (inputs : ActionInputs)
    (source_clone_dir destination_clone_dir : string) : Eff' unit :=
  move_each (sync_paths inputs) source_clone_dir destination_clone_dir.

Definition commit_message : string :=
  "chore: Sync files from source repository".

Definition commit_and_push (repo : Repo) : Eff' string :=
  yield status <- call (RepoStatus repo) (repo_status svc repo) ;
  if is_empty (trim status) then
    yield _ <- record (CoreInfo NoChangesDetected) ;
    succeed EmptyString
  else
    yield _ <- call (RepoAdd repo ["."]) (repo_add svc repo ["."]) ;
    yield _ <-
      call (RepoCommit repo commit_message)
        (repo_commit svc repo commit_message) ;
    yield _ <- call (RepoPush repo) (repo_push svc repo) ;
    yield commit_hash <-
      call (RepoRevParse repo "HEAD") (repo_rev_parse svc repo "HEAD") ;
    yield _ <- record (CoreInfo (PushedChanges commit_hash)) ;
    succeed commit_hash.

(** [Object.entries(inputs)], in the order the object literal of
    [parse_inputs] lists its properties. *)
Definition input_entries (inputs : ActionInputs)
    : list (string * SpanValue) :=
  [ ("personal_access_token", AttrString (personal_access_token inputs));
    ("sync_paths", AttrPaths (sync_paths inputs));
    ("destination_repo", AttrString (destination_repo inputs));
    ("dry_run", AttrBool (dry_run inputs));
    ("source_repo", AttrString (source_repo inputs)) ].

Fixpoint annotate_all (entries : list (string * SpanValue)) : Eff' unit :=
  match entries with
  | [] => succeed tt
  | (key, value) :: rest =>
      yield _ <- record (AnnotateCurrentSpan key value) ;
      annotate_all rest
  end.

(** [inputs.sync_paths.forEach(...)]: one numbered line per mapping. *)
Fixpoint info_sync_paths (paths : list (string * string)) (index : nat)
    : Eff' unit :=
  match paths with
  | [] => succeed tt
  | (source, destination) :: rest =>
      yield _ <-
        record (CoreInfo (SyncPathLine (index + 1) source destination)) ;
      info_sync_paths rest (S index)
  end.

Definition gitConfig : GitConfig :=
  {| username := "github-actions[bot]";
     email := "github-actions[bot]@users.noreply.github.com" |}.

(** The steps of [program] after the dry-run gate. *)
Definition sync (inputs : ActionInputs) : Eff' unit :=
  yield temp_dir <- call FsMakeTempDirectory (makeTempDirectory svc) ;
  yield _ <- configureGit gitConfig ;
  let destination_repo_dir :=
    PosixPath.path_join temp_dir "destination_repo" in
  let source_repo_dir := PosixPath.path_join temp_dir "source_repo" in
  let target_dir := PosixPath.path_join temp_dir "target" in
  yield _ <-
    call (FsMakeDirectory target_dir) (makeDirectory svc target_dir) ;
  yield _destination_repo <-
    clone_repo (personal_access_token inputs) (destination_repo inputs)
      destination_repo_dir ;
  yield _source_repo <-
    clone_repo (personal_access_token inputs) (source_repo inputs)
      source_repo_dir ;
  let git_from := PosixPath.path_join destination_repo_dir ".git" in
  let git_to := PosixPath.path_join target_dir ".git" in
  yield _ <- call (FsRename git_from git_to) (fs_rename svc git_from git_to) ;
  yield target_repo <-
    call (GitRepoFromPath target_dir) (repo_from_path svc target_dir) ;
  yield _ <- move_paths inputs source_repo_dir target_dir ;
  yield commit_hash <- commit_and_push target_repo ;
  yield _ <- record (CoreSetOutput "commit_hash" commit_hash) ;
  record (CoreInfo SyncCompleted).

Definition program : Eff' unit :=
  yield inputs <- parse_inputs ;
  yield _ <- annotate_all (input_entries inputs) ;
  yield _ <-
    record (CoreInfo
      (StartingSync (destination_repo inputs) (dry_run inputs))) ;
  yield _ <-
    record (CoreInfo (FoundSyncPaths (length (sync_paths inputs)))) ;
  yield _ <- info_sync_paths (sync_paths inputs) 0 ;
  if dry_run inputs then record (CoreInfo DryRunMode)
  else sync inputs.

(** A run from a fresh trace. *)
Definition run {A} (m : Eff' A) (w : W)
    : Exit (Error PErr) A * State W Repo :=
  m {| world := w; trace := [] |}.
End Program.

(** *** The parser, line by line

    The body of the loop of [parse_inputs] as a function of the line: what
    the line contributes to [sync_paths] and which warning it raises. *)

Inductive LineResult :=
| Blank
| Skipped (warning : Message)
| Mapping (source destination : string).

Definition parse_line (line : string) : LineResult :=
  let trimmed_line := trim line in
  if is_empty trimmed_line then Blank
  else
    match indexOf colon trimmed_line with
    | None =>
        let clean_source := strip_quotes trimmed_line in
        if unsafe_path clean_source then
          Skipped (UnsafePathSkipped clean_source)
        else Mapping clean_source clean_source
    | Some colon_index =>
        let source := trim (slice_to colon_index trimmed_line) in
        let destination :=
          trim (slice_from (colon_index + 1) trimmed_line) in
        let clean_source := strip_quotes source in
        let clean_destination := strip_quotes destination in
        if unsafe_path clean_source || unsafe_path clean_destination then
          Skipped (UnsafeMappingSkipped clean_source clean_destination)
        else Mapping clean_source clean_destination
    end.

(** The two sides the loop extracts from a line that is not blank. *)
Definition extracted_sides (line : string) : option (string * string) :=
  let trimmed_line := trim line in
  if is_empty trimmed_line then None
  else
    match indexOf colon trimmed_line with
    | None => Some (strip_quotes trimmed_line, strip_quotes trimmed_line)
    | Some colon_index =>
        Some (strip_quotes (trim (slice_to colon_index trimmed_line)),
              strip_quotes
                (trim (slice_from (colon_index + 1) trimmed_line)))
    end.

Definition mappings_of (lines : list string) : list (string * string) :=
  flat_map
    (fun line =>
       match parse_line line with
       | Mapping source destination => [(source, destination)]
       | _ => []
       end)
    lines.

Definition warnings_of (lines : list string) : list Message :=
  flat_map
    (fun line =>
       match parse_line line with
       | Skipped warning => [warning]
       | _ => []
       end)
    lines.

(** The words of the specification for an unsafe side: one of its
    slash-separated segments is the parent directory, or it starts at the
    root. *)
Definition has_traversal_segment (side : string) : Prop :=
  In PosixPath.dotdot (split slash side).

Definition root_anchored (side : string) : Prop :=
  startsWith (str1 slash) side = true.

(** A side wrapped in a pair of double quotes. *)
Definition surrounding_quotes (side : string) : bool :=
  match side with
  | String q rest =>
      Ascii.eqb q quote
      && match last_char rest with
         | Some q' => Ascii.eqb q' quote
         | None => false
         end
  | EmptyString => false
  end.

(** A state with more calls recorded. *)
Definition logged {W Repo} (st : State W Repo) (evs : list (Event Repo))
    : State W Repo :=
  {| world := world st; trace := trace st ++ evs |}.

(** What an action reads as the value of an output of a step: the value
    set last under that name, and the empty string when none was set. *)
Fixpoint written_output {Repo} (name : string) (tr : list (Event Repo))
    : option string :=
  match tr with
  | [] => None
  | ev :: rest =>
      match written_output name rest with
      | Some value => Some value
      | None =>
          match ev with
          | CoreSetOutput name' value =>
              if String.eqb name' name then Some value else None
          | _ => None
          end
      end
  end.

Definition output_value {Repo} (name : string) (tr : list (Event Repo))
    : string :=
  default EmptyString (written_output name tr).

(** The calls that go to the file system or to git: the ones [call]
    records, the only ones that can change the world. *)
Definition acts_on_world {Repo} (ev : Event Repo) : bool :=
  match ev with
  | CoreSetSecret _ | CoreWarning _ | CoreInfo _ | CoreSetOutput _ _
  | AnnotateCurrentSpan _ _ => false
  | _ => true
  end.

(** The messages of [inputs.sync_paths.forEach(...)]. *)
Fixpoint sync_path_lines (paths : list (string * string)) (index : nat)
    : list Message :=
  match paths with
  | [] => []
  | (source, destination) :: rest =>
      SyncPathLine (index + 1) source destination
      :: sync_path_lines rest (S index)
  end.

(** The attributes [program] puts on its span. *)
Definition annotations {Repo} (inputs : ActionInputs) : list (Event Repo) :=
  map (fun entry => AnnotateCurrentSpan (fst entry) (snd entry))
    (input_entries inputs).

(** Every call an effect adds to the trace satisfies [P]. *)
Definition emits {W Repo PErr A} (P : Event Repo -> Prop)
    (m : Eff W Repo PErr A) : Prop :=
  forall st, exists evs,
    trace (snd (m st)) = trace st ++ evs /\ Forall P evs.

(** The arguments git is called with, given what [fs.makeTempDirectory]
    answered: the URL of a clone is built from the encoded token and one
    of the two repositories, every directory is the one [path.join] makes
    of the temporary directory that was returned and a fixed name, and
    every other argument is a constant of the program. *)
Definition git_arguments_from {Repo PErr}
    (access_token destination_repo source_repo : string)
    (made : Exit PErr string) (ev : Event Repo) : Prop :=
  match ev with
  | GitClone url target_dir =>
      exists repo name temp_dir,
        made = Success temp_dir
        /\ url = "https://" +:+ encodeURIComponent access_token
                +:+ "@github.com/" +:+ repo +:+ ".git"
        /\ (repo = destination_repo /\ name = "destination_repo"
            \/ repo = source_repo /\ name = "source_repo")
        /\ target_dir = PosixPath.path_join temp_dir name
  | GitSetConfig config => config = gitConfig
  | GitRepoFromPath dir =>
      exists temp_dir,
        made = Success temp_dir
        /\ dir = PosixPath.path_join temp_dir "target"
  | RepoAdd _ paths => paths = ["."]
  | RepoCommit _ message => message = commit_message
  | RepoRevParse _ ref => ref = "HEAD"
  | _ => True
  end.

(** No call of [FileSystem.remove]. *)
Definition removes_nothing {Repo} (ev : Event Repo) : Prop :=
  match ev with
  | FsRemove _ => False
  | _ => True
  end.

(** What [encodeURIComponent] is made of: unreserved characters and
    percent escapes. *)
Definition is_encoded_char (c : ascii) : bool :=
  is_uri_unreserved c || Ascii.eqb c percent.

End Sync.

(** ** The earlier program of [main.ts]

    [main.ts] holds the program as it was before [program.ts]: one file with
    its own [parseInputs], [configureGit], [cloneRepo], [copyFiles] and
    [commitAndPush], and a [program] that sequences them and ends with a
    cleanup. The sequencing is embedded here; the five effects it runs are
    parameters. *)

Module Legacy.
Import JsString Sync.

Record ActionInputs := {
  personalAccessToken : string;
  syncPaths : list (string * string);
  destinationRepo : string;
  dryRun : bool;
}.

Record GitConfig := {
  userName : string;
  userEmail : string;
}.

(** [Effect.ignore]: the effect always succeeds, its failure is dropped. *)
Definition ignore {W Repo PErr A} (m : Eff W Repo PErr A)
    : Eff W Repo PErr unit :=
  fun st =>
    match m st with
    | (Success _, st') => (Success tt, st')
    | (Failure _, st') => (Success tt, st')
    end.

Definition tempDir : string := "/tmp/cross-repo-sync".

Definition gitConfig : GitConfig :=
  {| userName := "github-actions[bot]";
     userEmail := "github-actions[bot]@users.noreply.github.com" |}.

Section Program.
Context {W Repo PErr : Type} (svc : Services W Repo PErr).
Variable parseInputs : Eff W Repo PErr ActionInputs.
Variable configureGit : GitConfig -> Eff W Repo PErr unit.
Variable cloneRepo : ActionInputs -> string -> Eff W Repo PErr string.
Variable copyFiles : ActionInputs -> string -> Eff W Repo PErr unit.
Variable commitAndPush : string -> Eff W Repo PErr string.

(** The dry-run notice does not end this program: it goes on. *)
Definition program : Eff W Repo PErr unit :=
  yield inputs <- parseInputs ;
  yield _ <-
    record (CoreInfo (StartingSync (destinationRepo inputs) (dryRun inputs))) ;
  yield _ <- record (CoreInfo (FoundSyncPaths (length (syncPaths inputs)))) ;
  yield _ <- info_sync_paths (syncPaths inputs) 0 ;
  yield _ <-
    (if dryRun inputs then record (CoreInfo DryRunMode) else succeed tt) ;
  yield _ <- configureGit gitConfig ;
  yield cloneDir <- cloneRepo inputs tempDir ;
  yield _ <- copyFiles inputs cloneDir ;
  yield commitHash <- commitAndPush cloneDir ;
  yield _ <- record (CoreSetOutput "commit_hash" commitHash) ;
  yield _ <- ignore (call (FsRemove tempDir) (fs_remove svc tempDir)) ;
  record (CoreInfo SyncCompleted).
End Program.

(** A call that is not the removal of the temporary directory. *)
Definition keeps_tempDir {Repo} (ev : Event Repo) : Prop :=
  ev <> FsRemove tempDir.

End Legacy.

(** ** The services of the test suite

    The test of [program] runs it against an in-memory volume, a [TestGit]
    whose [clone] writes a working tree into the volume and a [TestGitRepo]
    with canned answers. A scenario fixes what the test fixes
    by constants: the inputs, what a clone of a URL brings, the status text
    and the hash of [HEAD]. *)

Module TestEnv.
Import JsString Sync MemFs.

Record TestGitRepo := { repo_path : string }.

Inductive failure :=
| FsFailure (e : errno)
| GitCommandFailed.

Record Scenario := {
  inputs : string -> string;
  remote : string -> option (gmap string node);
  status_text : string;
  head_hash : string;
  posix_rename : bool;
}.

Definition of_option {A} (e : failure) (vol : node) (r : option node)
    (a : A) : Exit failure A * node :=
  match r with
  | Some vol' => (Success a, vol')
  | None => (Failure e, vol)
  end.

Definition temp_dir : string := "/tmp/cross-repo-sync".

Definition test_makeTempDirectory (vol : node)
    : Exit failure string * node :=
  of_option (FsFailure ENOTDIR) vol (mkdirp (steps temp_dir) vol) temp_dir.

Definition test_makeDirectory (path : string) (vol : node)
    : Exit failure unit * node :=
  of_option (FsFailure ENOTDIR) vol (mkdirp (steps path) vol) tt.

Definition test_rename (posix : bool) (source destination : string)
    (vol : node) : Exit failure unit * node :=
  match rename posix (steps source) (steps destination) vol with
  | inr vol' => (Success tt, vol')
  | inl e => (Failure (FsFailure e), vol)
  end.

(** [rmSync(path, { recursive: true })] *)
Definition test_remove (path : string) (vol : node)
    : Exit failure unit * node :=
  match get (steps path) vol with
  | Some _ => (Success tt, del (steps path) vol)
  | None => (Failure (FsFailure ENOENT), vol)
  end.

(** [TestGit.clone]: the working tree of the remote appears at
    [target_dir], which the clone creates. *)
Definition test_clone (sc : Scenario) (url target_dir : string)
    (vol : node) : Exit failure TestGitRepo * node :=
  match remote sc url with
  | None => (Failure GitCommandFailed, vol)
  | Some tree =>
      of_option (FsFailure ENOTDIR) vol
        (match mkdirp (steps target_dir) vol with
         | Some vol' => put (steps target_dir) (Dir tree) vol'
         | None => None
         end)
        {| repo_path := target_dir |}
  end.

Definition test_services (sc : Scenario)
    : Services node TestGitRepo failure :=
  {| get_input := fun name _ => inputs sc name;
     makeTempDirectory := test_makeTempDirectory;
     makeDirectory := test_makeDirectory;
     fs_rename := test_rename (posix_rename sc);
     fs_remove := test_remove;
     git_config := fun _ vol => (Success tt, vol);
     git_clone := test_clone sc;
     repo_from_path := fun dir vol => (Success {| repo_path := dir |}, vol);
     repo_status := fun _ vol => (Success (status_text sc), vol);
     repo_add := fun _ _ vol => (Success tt, vol);
     repo_commit := fun _ _ vol => (Success tt, vol);
     repo_push := fun _ vol => (Success tt, vol);
     repo_rev_parse := fun _ _ vol => (Success (head_hash sc), vol) |}.

(** The constants of the test: [TestCore.get_input], the tree
    [TestGit.clone] writes, the answers of [TestGitRepo]. *)

Definition test_remote (url : string) : option (gmap string node) :=
  Some {[ ".git" :=
            Dir {[ "config" := File ("origin: " +:+ url);
                   "HEAD" := File "test-HEAD" ]};
          "test-sync-paths" :=
            Dir {[ "test-file" := File ("test-file from " +:+ url) ]} ]}.

Definition inputs_of
    (personal_access_token sync_paths source_repo destination_repo
       dry_run : string)
    (name : string) : string :=
  if String.eqb name "personal_access_token" then personal_access_token
  else if String.eqb name "sync_paths" then sync_paths
  else if String.eqb name "source_repo" then source_repo
  else if String.eqb name "destination_repo" then destination_repo
  else if String.eqb name "dry_run" then dry_run
  else EmptyString.

Definition test_inputs : string -> string :=
  inputs_of "test-personal-access-token" "test-sync-paths"
    "test-owner/test-source-repo" "test-owner/test-destination-repo"
    EmptyString.

(** The test with other inputs. *)
Definition test_scenario_with (inputs : string -> string) : Scenario :=
  {| inputs := inputs;
     remote := test_remote;
     status_text :=
       " - lots" +:+ str1 newline +:+ " - of" +:+ str1 newline
       +:+ " - changes";
     head_hash := "test-rev-parse-hash";
     posix_rename := false |}.

Definition test_scenario : Scenario := test_scenario_with test_inputs.

(** [memfs({ tmp: {} })] *)
Definition initial_volume : node := Dir {[ "tmp" := empty_dir ]}.

(** The test with remotes that cannot be reached: every clone fails. *)
Definition unreachable_scenario : Scenario :=
  {| inputs := test_inputs;
     remote := fun _ => None;
     status_text := status_text test_scenario;
     head_hash := head_hash test_scenario;
     posix_rename := false |}.

(** The test with the rename of the volume or with that of rename(2). *)
Definition scenario_with_rename (posix : bool) : Scenario :=
  {| inputs := test_inputs;
     remote := test_remote;
     status_text := status_text test_scenario;
     head_hash := head_hash test_scenario;
     posix_rename := posix |}.

(** A volume as [program] has it before [move_paths]: a source clone with
    a directory [d] of two files, and a target that holds the history. *)
Definition nested_source : node :=
  Dir {[ "f" := File "1"; "g" := File "2" ]}.

Definition nested_volume : node :=
  Dir {[ "tmp" :=
    Dir {[ "cross-repo-sync" :=
      Dir {[ "source_repo" := Dir {[ "d" := nested_source ]};
             "target" := Dir {[ ".git" := empty_dir ]} ]} ]} ]}.

Definition inputs_with (paths : list (string * string)) : ActionInputs :=
  {| personal_access_token := "test-personal-access-token";
     sync_paths := paths;
     source_repo := "test-owner/test-source-repo";
     destination_repo := "test-owner/test-destination-repo";
     dry_run := false |}.

End TestEnv.

(** ** Notions the further properties are stated with *)

Module Notions.
Import JsString Sync.

(** A side between a pair of double quotes. *)
Definition quoted (s : string) : string := String quote (s +:+ str1 quote).

(** A string the dot of a regular expression matches all of. *)
Definition no_line_terminator (s : string) : bool :=
  all_chars (fun c => negb (is_line_terminator c)) s.

(** A mapping both sides of which pass the path-safety test. *)
Definition safe_mapping (mapping : string * string) : Prop :=
  unsafe_path (fst mapping) = false /\ unsafe_path (snd mapping) = false.

Definition at_sign : ascii := ch 64.
Definition question_mark : ascii := ch 63.
Definition hash_sign : ascii := ch 35.
Definition space : ascii := ch 32.

(** The characters that end the user information, the authority, the
    path or the query of a URL. *)
Definition url_delimiters : list ascii :=
  [at_sign; slash; colon; question_mark; hash_sign; space].

End Notions.

(** ** The calls of a run, in order *)

Module Plan.
Import JsString Sync.

Section Plan.
Context {Repo : Type}.

Definition source_repo_dir (temp_dir : string) : string :=
  PosixPath.path_join temp_dir "source_repo".

Definition destination_repo_dir (temp_dir : string) : string :=
  PosixPath.path_join temp_dir "destination_repo".

Definition target_dir (temp_dir : string) : string :=
  PosixPath.path_join temp_dir "target".

(** The calls of [program] from [fs.makeTempDirectory] to
    [git.repo_from_path]. *)
Definition preparation (inputs : ActionInputs) (temp_dir : string)
    : list (Event Repo) :=
  [ FsMakeTempDirectory;
    GitSetConfig gitConfig;
    FsMakeDirectory (target_dir temp_dir);
    GitClone (repo_url (personal_access_token inputs) (destination_repo inputs))
      (destination_repo_dir temp_dir);
    GitClone (repo_url (personal_access_token inputs) (source_repo inputs))
      (source_repo_dir temp_dir);
    FsRename (PosixPath.path_join (destination_repo_dir temp_dir) ".git")
      (PosixPath.path_join (target_dir temp_dir) ".git");
    GitRepoFromPath (target_dir temp_dir) ].

(** The calls of [move_paths]: two for each mapping. *)
Definition moves (paths : list (string * string))
    (source_clone_dir destination_clone_dir : string) : list (Event Repo) :=
  flat_map
    (fun mapping =>
       let destination_path :=
         PosixPath.path_join destination_clone_dir (snd mapping) in
       [ FsMakeDirectory (PosixPath.dirname destination_path);
         FsRename (PosixPath.path_join source_clone_dir (fst mapping))
           destination_path ])
    paths.

(** The calls of [commit_and_push] on a repository with changes. *)
Definition publication (repo : Repo) : list (Event Repo) :=
  [ RepoStatus repo; RepoAdd repo ["."]; RepoCommit repo commit_message;
    RepoPush repo; RepoRevParse repo "HEAD" ].

(** What [commit_and_push] records when it succeeds and returns
    [commit_hash]: only the status query and a notice when there is
    nothing to commit. *)
Definition committed (repo : Repo) (pushed : bool) (commit_hash : string)
    : list (Event Repo) :=
  if pushed then publication repo ++ [CoreInfo (PushedChanges commit_hash)]
  else [RepoStatus repo; CoreInfo NoChangesDetected].

(** The end of a run of [program] past the dry-run gate that succeeds. *)
Definition conclusion (repo : Repo) (pushed : bool) (commit_hash : string)
    : list (Event Repo) :=
  committed repo pushed commit_hash
  ++ [CoreSetOutput "commit_hash" commit_hash; CoreInfo SyncCompleted].

(** The calls on the file system and on git before [commit_and_push]. *)
Definition setup (inputs : ActionInputs) (temp_dir : string)
    : list (Event Repo) :=
  preparation inputs temp_dir
  ++ moves (sync_paths inputs) (source_repo_dir temp_dir)
       (target_dir temp_dir).

(** What [program] records before the dry-run gate. *)
Definition introduction (inputs : ActionInputs) (warnings : list Message)
    : list (Event Repo) :=
  CoreSetSecret (personal_access_token inputs)
  :: map CoreWarning warnings
  ++ annotations inputs
  ++ [CoreInfo (StartingSync (destination_repo inputs) (dry_run inputs));
      CoreInfo (FoundSyncPaths (length (sync_paths inputs)))]
  ++ map CoreInfo (sync_path_lines (sync_paths inputs) 0).

End Plan.

(** What [parse_inputs] returns when it accepts the inputs, and the
    warnings it gives. *)
Definition accepted_inputs {W Repo PErr} (svc : Services W Repo PErr)
    : ActionInputs :=
  {| personal_access_token := get_input svc "personal_access_token" true;
     sync_paths :=
       mappings_of (split newline (get_input svc "sync_paths" true));
     source_repo := get_input svc "source_repo" true;
     destination_repo := get_input svc "destination_repo" true;
     dry_run := String.eqb (get_input svc "dry_run" false) "true" |}.

Definition read_warnings {W Repo PErr} (svc : Services W Repo PErr)
    : list Message :=
  warnings_of (split newline (get_input svc "sync_paths" true)).

(** A run of [m] records [evs] and then either succeeds with a value such
    that [S], or fails with a platform error such that [F]. *)
Definition run_shape {W Repo PErr A} (m : Eff W Repo PErr A)
    (S : A -> list (Event Repo) -> Prop) (F : list (Event Repo) -> Prop)
    : Prop :=
  forall st,
    match m st with
    | (Success a, st') =>
        exists evs, trace st' = trace st ++ evs /\ S a evs
    | (Failure e, st') =>
        exists pe evs, e = Platform pe /\ trace st' = trace st ++ evs /\ F evs
    end.

(** A failed run of the steps past the dry-run gate stopped at a call of
    the setup or, the setup done, at a call of the publication. *)
Definition stopped {Repo} (inputs : ActionInputs) (evs : list (Event Repo))
    : Prop :=
  evs <> []
  /\ exists temp_dir,
       (exists rest, evs ++ rest = setup inputs temp_dir)
       \/ (exists repo calls rest,
             evs = setup inputs temp_dir ++ calls
             /\ calls ++ rest = publication repo).

(** [stopped] for the temporary directory a run was given. *)
Definition stopped_in {Repo} (inputs : ActionInputs) (temp_dir : string)
    (evs : list (Event Repo)) : Prop :=
  evs <> []
  /\ ((exists rest, evs ++ rest = setup inputs temp_dir)
      \/ (exists repo calls rest,
            evs = setup inputs temp_dir ++ calls
            /\ calls ++ rest = publication repo)).

(** The error an answer of a service carries, if any, and the world the
    service left. *)
Definition answered {W PErr A} (answer : Exit PErr A * W)
    : option PErr * W :=
  (match fst answer with Success _ => None | Failure e => Some e end,
   snd answer).

(** What the service that a call is recorded for answers in a world: a
    call on [Core] or on the tracer never fails and leaves the world as it
    is. *)
Definition outcome {W Repo PErr} (svc : Services W Repo PErr)
    (ev : Event Repo) (w : W) : option PErr * W :=
  match ev with
  | CoreSetSecret _ | CoreWarning _ | CoreInfo _ | CoreSetOutput _ _
  | AnnotateCurrentSpan _ _ => (None, w)
  | FsMakeTempDirectory => answered (makeTempDirectory svc w)
  | FsMakeDirectory path => answered (makeDirectory svc path w)
  | FsRename oldPath newPath => answered (fs_rename svc oldPath newPath w)
  | FsRemove path => answered (fs_remove svc path w)
  | GitSetConfig config => answered (git_config svc config w)
  | GitClone url target_dir => answered (git_clone svc url target_dir w)
  | GitRepoFromPath dir => answered (repo_from_path svc dir w)
  | RepoStatus repo => answered (repo_status svc repo w)
  | RepoAdd repo paths => answered (repo_add svc repo paths w)
  | RepoCommit repo message => answered (repo_commit svc repo message w)
  | RepoPush repo => answered (repo_push svc repo w)
  | RepoRevParse repo ref => answered (repo_rev_parse svc repo ref w)
  end.

(** The world after a list of calls, when every one of them succeeds. *)
Fixpoint replay {W Repo PErr} (svc : Services W Repo PErr)
    (evs : list (Event Repo)) (w : W) : option W :=
  match evs with
  | [] => Some w
  | ev :: rest =>
      match outcome svc ev w with
      | (None, w') => replay svc rest w'
      | (Some _, _) => None
      end
  end.

(** The trace of [m] tells what happened: when [m] fails with an error of
    the platform, every call it recorded but the last succeeded, the last
    one failed with that error, and the world is as that call left it;
    otherwise every call it recorded succeeded, and the world is as the
    last of them left it. *)
Definition tracks {W Repo PErr A} (svc : Services W Repo PErr)
    (m : Eff W Repo PErr A) : Prop :=
  forall st,
    match m st with
    | (Failure (Platform pe), st') =>
        exists calls failed before,
          trace st' = trace st ++ calls ++ [failed]
          /\ replay svc calls (world st) = Some before
          /\ outcome svc failed before = (Some pe, world st')
    | (_, st') =>
        exists evs,
          trace st' = trace st ++ evs
          /\ replay svc evs (world st) = Some (world st')
    end.

End Plan.

(** ** The locations [move_paths] works on *)

Module Composer.
Import Sync MemFs.

Definition source_location (source_clone_dir : string)
    (mapping : string * string) : list string :=
  steps (PosixPath.path_join source_clone_dir (fst mapping)).

Definition destination_location (destination_clone_dir : string)
    (mapping : string * string) : list string :=
  steps (PosixPath.path_join destination_clone_dir (snd mapping)).

(** The directory [fs.makeDirectory] is called with. *)
Definition made_location (destination_clone_dir : string)
    (mapping : string * string) : list string :=
  steps (PosixPath.dirname
           (PosixPath.path_join destination_clone_dir (snd mapping))).

(** A location a mapping has nothing to do with: it is neither at, under
    nor above the source or the destination of the mapping, and neither at
    nor above the directory that is made for the destination. *)
Definition untouched_by (source_clone_dir destination_clone_dir : string)
    (q : list string) (mapping : string * string) : Prop :=
  unrelated (source_location source_clone_dir mapping) q
  /\ unrelated (destination_location destination_clone_dir mapping) q
  /\ ~ q `prefix_of` made_location destination_clone_dir mapping.

End Composer.

(** ** The commands of [@effect/platform] *)

Module Platform.

(** [Command.make(command, ...args)] and the working directory that
    [Command.workingDirectory] gives it. *)
Record Command := {
  command : string;
  args : list string;
  cwd : option string;
}.

Definition make (command : string) (args : list string) : Command :=
  {| command := command; args := args; cwd := None |}.

Definition workingDirectory (dir : string) (c : Command) : Command :=
  {| command := command c; args := args c; cwd := Some dir |}.

(** What an executor answers to commands run one after the other, each
    in the state the one before it left, up to the first that fails: the
    outputs of all of them, or the error of that one. *)
Fixpoint executed {P E : Type}
    (executor : Command -> P -> Sync.Exit E string * P)
    (commands : list Command) (p : P) : Sync.Exit E (list string) * P :=
  match commands with
  | [] => (Sync.Success [], p)
  | c :: rest =>
      match executor c p with
      | (Sync.Success output, p') =>
          match executed executor rest p' with
          | (Sync.Success outputs, p'') =>
              (Sync.Success (output :: outputs), p'')
          | (Sync.Failure e, p'') => (Sync.Failure e, p'')
          end
      | (Sync.Failure e, p') => (Sync.Failure e, p')
      end
  end.

End Platform.

(** ** The git layer of [main.ts]

    [main.ts] runs [program] with [GitLive], a [Git] service on top of the
    command executor of the platform, whose repositories are
    [GitRepoLive]s, and with the file system of the platform. The executor
    and the file system are parameters here; the commands that are run are
    kept, in order, next to the state of the platform. *)

Module Live.
Import JsString Sync Platform.

(** A [GitRepoLive] is made of the path it was constructed with; its
    executor is the one of the layer. *)
Record GitRepoLive := { path : string }.

(** What ends a call on the layer: an error of the platform or, for
    [repo_from_path], which is [null], the TypeError of calling what is not
    a function. *)
Inductive failure (E : Type) :=
| PlatformError (e : E)
| NotAFunction.
Arguments PlatformError {E} e.
Arguments NotAFunction {E}.

Record World (P : Type) := {
  commands : list Command;
  platform : P;
}.
Arguments commands {P} _.
Arguments platform {P} _.
Arguments Build_World {P} _ _.

(** What [main.ts] takes from outside the repository: the inputs of the
    action, the command executor and the file system of the platform. *)
Record Host (P E : Type) := {
  getInput : string -> bool -> string;
  executor_string : Command -> P -> Exit E string * P;
  node_makeTempDirectory : P -> Exit E string * P;
  node_makeDirectory : string -> P -> Exit E unit * P;
  node_rename : string -> string -> P -> Exit E unit * P;
  node_remove : string -> P -> Exit E unit * P;
}.
Arguments getInput {P E} _ _ _.
Arguments executor_string {P E} _ _ _.
Arguments node_makeTempDirectory {P E} _ _.
Arguments node_makeDirectory {P E} _ _ _.
Arguments node_rename {P E} _ _ _ _.
Arguments node_remove {P E} _ _ _.

Section Layer.
Context {P E : Type} (host : Host P E).

#[local] Abbreviation Op A := (World P -> Exit (failure E) A * World P).

(** [executor.string(command)] *)
Definition string_of (c : Command) : Op string :=
  fun w =>
    let ran := commands w ++ [c] in
    match executor_string host c (platform w) with
    | (Success output, p) =>
        (Success output, {| commands := ran; platform := p |})
    | (Failure e, p) =>
        (Failure (PlatformError e), {| commands := ran; platform := p |})
    end.

(** A call on the file system of the platform. *)
Definition on_platform {A} (op : P -> Exit E A * P) : Op A :=
  fun w =>
    match op (platform w) with
    | (Success a, p) => (Success a, {| commands := commands w; platform := p |})
    | (Failure e, p) =>
        (Failure (PlatformError e), {| commands := commands w; platform := p |})
    end.

(** [yield* op] followed by [k]. *)
Definition next {A B} (op : Op A) (k : A -> Op B) : Op B :=
  fun w =>
    match op w with
    | (Success a, w') => k a w'
    | (Failure e, w') => (Failure e, w')
    end.

Definition done {A} (a : A) : Op A := fun w => (Success a, w).

(** The methods of [GitRepoLive]. *)

Definition GitRepoLive_config (repo : GitRepoLive) (config : GitConfig)
    : Op unit :=
  next (string_of
          (workingDirectory (path repo)
             (make "git" ["config"; "user.name"; username config])))
    (fun _ => done tt).

Definition GitRepoLive_add (repo : GitRepoLive) (paths : list string)
    : Op unit :=
  next (string_of (workingDirectory (path repo) (make "git" ("add" :: paths))))
    (fun _ => done tt).

Definition GitRepoLive_commit (repo : GitRepoLive) (message : string)
    : Op unit :=
  next (string_of
          (workingDirectory (path repo)
             (make "git" ["commit"; "-m"; message])))
    (fun _ => done tt).

Definition GitRepoLive_push (repo : GitRepoLive) : Op unit :=
  next (string_of (workingDirectory (path repo) (make "git" ["push"])))
    (fun _ => done tt).

Definition GitRepoLive_status (repo : GitRepoLive) : Op string :=
  string_of (workingDirectory (path repo) (make "git" ["status"])).

Definition GitRepoLive_rev_parse (repo : GitRepoLive) (ref : string)
    : Op string :=
  string_of (workingDirectory (path repo) (make "git" ["rev-parse"; ref])).

(** The service [GitLive] makes. *)

Definition GitLive_config (config : GitConfig) : Op unit :=
  next (string_of (make "git" ["config"; "user.name"; username config]))
    (fun _ =>
       next (string_of (make "git" ["config"; "user.email"; email config]))
         (fun _ => done tt)).

(** [repo_from_path: null as any]: the call of it throws. *)
Definition GitLive_repo_from_path (dir : string) : Op GitRepoLive :=
  fun w => (Failure NotAFunction, w).

Definition GitLive_clone (url target_dir : string) : Op GitRepoLive :=
  next (string_of (make "git" ["clone"; url; target_dir]))
    (fun _ => done {| path := target_dir |}).

(** The context [main.ts] provides to [program]. *)
Definition services : Services (World P) GitRepoLive (failure E) :=
  {| get_input := getInput host;
     makeTempDirectory := on_platform (node_makeTempDirectory host);
     makeDirectory := fun path => on_platform (node_makeDirectory host path);
     fs_rename :=
       fun oldPath newPath => on_platform (node_rename host oldPath newPath);
     fs_remove := fun path => on_platform (node_remove host path);
     git_config := GitLive_config;
     git_clone := GitLive_clone;
     repo_from_path := GitLive_repo_from_path;
     repo_status := GitRepoLive_status;
     repo_add := GitRepoLive_add;
     repo_commit := GitRepoLive_commit;
     repo_push := GitRepoLive_push;
     repo_rev_parse := GitRepoLive_rev_parse |}.

End Layer.

(** The commands of the git layer before [repo_from_path] is called. *)
Definition preparation_commands (inputs : ActionInputs) (temp_dir : string)
    : list Command :=
  [ make "git" ["config"; "user.name"; username gitConfig];
    make "git" ["config"; "user.email"; email gitConfig];
    make "git"
      ["clone";
       repo_url (personal_access_token inputs) (destination_repo inputs);
       PosixPath.path_join temp_dir "destination_repo"];
    make "git"
      ["clone";
       repo_url (personal_access_token inputs) (source_repo inputs);
       PosixPath.path_join temp_dir "source_repo"] ].

(** The commands of [commit_and_push] on a [GitRepoLive]. *)
Definition publication_commands (repo : GitRepoLive) : list Command :=
  map (fun arguments => workingDirectory (path repo) (make "git" arguments))
    [ ["status"]; ["add"; "."]; ["commit"; "-m"; commit_message]; ["push"];
      ["rev-parse"; "HEAD"] ].

(** A call on a repository, or the output. *)
Definition past_the_setup {Repo} (ev : Event Repo) : bool :=
  match ev with
  | RepoStatus _ | RepoAdd _ _ | RepoCommit _ _ | RepoPush _
  | RepoRevParse _ _ | CoreSetOutput _ _ => true
  | _ => false
  end.

End Live.

(** ** The effects of the earlier [main.ts]

    The five effects [Legacy.program] runs, and [executeCommand] and
    [copyDirectoryRecursive] that they call, as [main.ts] has them: on the
    command executor and the file system of the platform, which are
    parameters, and on the toolkit of the action, whose calls are
    recorded. *)

Module LegacyMain.
Import JsString Sync Platform.

(** [sourceInfo.type] *)
Inductive FileType :=
| File
| Directory
| SymbolicLink
| BlockDevice
| CharacterDevice
| FIFO
| Socket
| Unknown.

Definition is_Directory (type : FileType) : bool :=
  match type with Directory => true | _ => false end.

(** The template literals of [core.info] and [core.warning]: those
    [program.ts] has kept, and the two of [copyFiles]. *)
Inductive Notice :=
| Kept (message : Message)
| SourceDoesNotExist (source : string)
| Copied (source destination : string).

(** The [Error]s the effects fail with. *)
Inductive Failed (PErr : Type) :=
| Invalid (e : ValidationError)
| CommandFailed (command : string) (args : list string) (error : PErr)
| SourceCheckFailed (error : PErr)
| StatSourceFailed (error : PErr)
| CopyDirectoryFailed (source : string) (error : PErr)
| CopyFileFailed (source : string) (error : PErr)
| OutOfFuel.
Arguments Invalid {PErr} e.
Arguments CommandFailed {PErr} command args error.
Arguments SourceCheckFailed {PErr} error.
Arguments StatSourceFailed {PErr} error.
Arguments CopyDirectoryFailed {PErr} source error.
Arguments CopyFileFailed {PErr} source error.
Arguments OutOfFuel {PErr}.

(** What ends [copyDirectoryRecursive]: an error of the file system, as it
    is, or the end of the fuel of the embedding. *)
Inductive Halted (PErr : Type) :=
| Raised (error : PErr)
| Exhausted.
Arguments Raised {PErr} error.
Arguments Exhausted {PErr}.

(** One constructor per call on the toolkit or on the platform. *)
Inductive Call :=
| SetSecret (secret : string)
| Warning (notice : Notice)
| Info (notice : Notice)
| SetOutput (name value : string)
| Execute (c : Command)
| MakeDirectory (path : string)
| Remove (path : string)
| Exists (path : string)
| Stat (path : string)
| Copy (fromPath toPath : string)
| ReadDirectory (path : string).

(** What [main.ts] takes from outside the repository. *)
Record Host (P PErr : Type) := {
  getInput : string -> bool -> string;
  command_string : Command -> P -> Exit PErr string * P;
  fs_makeDirectory : string -> P -> Exit PErr unit * P;
  fs_remove : string -> P -> Exit PErr unit * P;
  fs_exists : string -> P -> Exit PErr bool * P;
  fs_stat : string -> P -> Exit PErr FileType * P;
  fs_copy : string -> string -> P -> Exit PErr unit * P;
  fs_readDirectory : string -> P -> Exit PErr (list string) * P;
}.
Arguments getInput {P PErr} _ _ _.
Arguments command_string {P PErr} _ _ _.
Arguments fs_makeDirectory {P PErr} _ _ _.
Arguments fs_remove {P PErr} _ _ _.
Arguments fs_exists {P PErr} _ _ _.
Arguments fs_stat {P PErr} _ _ _.
Arguments fs_copy {P PErr} _ _ _ _.
Arguments fs_readDirectory {P PErr} _ _ _.

(** The state a run threads: the platform and the calls made so far. *)
Record Run (P : Type) := {
  platform : P;
  calls : list Call;
}.
Arguments platform {P} _.
Arguments calls {P} _.
Arguments Build_Run {P} _ _.

Definition Effect (P X A : Type) : Type := Run P -> Exit X A * Run P.

#[global] Instance Effect_ret {P X} : MRet (Effect P X) :=
  fun A a st => (Success a, st).

#[global] Instance Effect_bind {P X} : MBind (Effect P X) :=
  fun A B k m st =>
    match m st with
    | (Success a, st') => k a st'
    | (Failure e, st') => (Failure e, st')
    end.

Section Effects.
Context {P PErr : Type}.

Definition fail {X A} (e : X) : Effect P X A :=
  fun st => (Failure e, st).

(** A call on the toolkit: recorded, never failing. *)
Definition tell {X} (c : Call) : Effect P X unit :=
  fun st => (Success tt, {| platform := platform st; calls := calls st ++ [c] |}).

(** A call on the platform: recorded, then run. *)
Definition ask {A} (c : Call) (op : P -> Exit PErr A * P) : Effect P PErr A :=
  fun st =>
    let made := calls st ++ [c] in
    match op (platform st) with
    | (Success a, p) => (Success a, {| platform := p; calls := made |})
    | (Failure e, p) => (Failure e, {| platform := p; calls := made |})
    end.

(** [Effect.mapError] *)
Definition mapError {X Y A} (f : X -> Y) (m : Effect P X A) : Effect P Y A :=
  fun st =>
    match m st with
    | (Success a, st') => (Success a, st')
    | (Failure e, st') => (Failure (f e), st')
    end.

(** [Effect.ignore] *)
Definition ignore {X Y A} (m : Effect P X A) : Effect P Y unit :=
  fun st =>
    match m st with
    | (Success _, st') => (Success tt, st')
    | (Failure _, st') => (Success tt, st')
    end.

End Effects.

(** [cwd ? cmd.pipe(Command.workingDirectory(cwd)) : cmd]: an empty
    string is no working directory either. *)
Definition with_cwd (cwd : option string) (cmd : Command) : Command :=
  match cwd with
  | Some dir => if is_empty dir then cmd else workingDirectory dir cmd
  | None => cmd
  end.

(** A state with more calls recorded. *)
Definition told {P} (st : Run P) (cs : list Call) : Run P :=
  {| platform := platform st; calls := calls st ++ cs |}.

(** Every call an effect adds to the calls made before it satisfies
    [Q]. *)
Definition records {P X A} (Q : Call -> Prop) (m : Effect P X A) : Prop :=
  forall st, exists cs, calls (snd (m st)) = calls st ++ cs /\ Forall Q cs.

(** A path at or under a directory, as a string. *)
Definition inside (dir path : string) : Prop :=
  path = dir \/ startsWith (dir +:+ "/") path = true.

(** A call that reads at or under [source] or writes at or under [dest],
    and nothing else. *)
Definition copies_from_to (source dest : string) (c : Call) : Prop :=
  match c with
  | MakeDirectory path => inside dest path
  | ReadDirectory path | Stat path => inside source path
  | Copy fromPath toPath => inside source fromPath /\ inside dest toPath
  | _ => False
  end.

(** The calls of [copyFiles] when no source exists. *)
Definition skipped (syncPaths : list (string * string)) : list Call :=
  flat_map
    (fun mapping =>
       [Exists (fst mapping); Warning (SourceDoesNotExist (fst mapping))])
    syncPaths.

(** The commands among the calls. *)
Definition commands_of (cs : list Call) : list Command :=
  flat_map (fun c => match c with Execute cmd => [cmd] | _ => [] end) cs.

(** The commands of [commitAndPush] in a clone with changes. *)
Definition earlier_publication (cloneDir : string) : list Command :=
  map (fun arguments => with_cwd (Some cloneDir) (make "git" arguments))
    [ ["status"; "--porcelain"]; ["add"; "."];
      ["commit"; "-m"; "chore: Sync files from source repository"];
      ["push"; "origin"; "main"]; ["rev-parse"; "HEAD"] ].

(** The calls of [copyDirectoryRecursive] for entries that are not
    directories. *)
Definition copied_entries (source dest : string) (entries : list string)
    : list Call :=
  flat_map
    (fun entry =>
       [Stat (source +:+ "/" +:+ entry);
        Copy (source +:+ "/" +:+ entry) (dest +:+ "/" +:+ entry)])
    entries.

(** A platform for the examples: no command prints anything, every call
    on the file system succeeds, every path is a file that exists. *)
Definition idle_host (inputs : string -> string) : Host unit unit :=
  {| getInput := fun name _ => inputs name;
     command_string := fun _ p => (Success EmptyString, p);
     fs_makeDirectory := fun _ p => (Success tt, p);
     fs_remove := fun _ p => (Success tt, p);
     fs_exists := fun _ p => (Success true, p);
     fs_stat := fun _ p => (Success File, p);
     fs_copy := fun _ _ p => (Success tt, p);
     fs_readDirectory := fun _ p => (Success [], p) |}.

(** The same platform with a clone that has changes: every command
    prints a line of [git status --porcelain]. *)
Definition changed_host (inputs : string -> string) : Host unit unit :=
  {| getInput := fun name _ => inputs name;
     command_string := fun _ p => (Success " M docs/index.md", p);
     fs_makeDirectory := fun _ p => (Success tt, p);
     fs_remove := fun _ p => (Success tt, p);
     fs_exists := fun _ p => (Success true, p);
     fs_stat := fun _ p => (Success File, p);
     fs_copy := fun _ _ p => (Success tt, p);
     fs_readDirectory := fun _ p => (Success [], p) |}.

(** A call [copyFiles] makes: on the file system, or one of its two
    notices. *)
Definition copy_call (c : Call) : Prop :=
  match c with
  | Exists _ | Stat _ | Copy _ _ | ReadDirectory _ | MakeDirectory _
  | Warning (SourceDoesNotExist _) | Info (Copied _ _) => True
  | _ => False
  end.

(** [s.lastIndexOf(c)]; [None] stands for [-1]. *)
Fixpoint lastIndexOf (c : ascii) (s : string) : option nat :=
  match s with
  | EmptyString => None
  | String d s' =>
      match lastIndexOf c s' with
      | Some i => Some (S i)
      | None => if Ascii.eqb d c then Some 0 else None
      end
  end.

Section Program.
Context {P PErr : Type} (host : Host P PErr).

#[local] Abbreviation Eff' := (Effect P (Failed PErr)).

Definition executeCommand (command : string) (args : list string)
    (cwd : option string) : Eff' string :=
  let cmd := make command args in
  let cmdWithCwd := with_cwd cwd cmd in
  result ←
    mapError (CommandFailed command args)
      (ask (Execute cmdWithCwd) (command_string host cmdWithCwd));
  mret (trim result).

(** The loop over [syncPathsInput.split(newline)]. *)
Fixpoint parse_lines (lines : list string)
    (syncPaths : list (string * string)) : Eff' (list (string * string)) :=
  match lines with
  | [] => mret syncPaths
  | line :: rest =>
      let trimmedLine := trim line in
      if is_empty trimmedLine then parse_lines rest syncPaths
      else
        match indexOf colon trimmedLine with
        | None =>
            let cleanSource := strip_quotes trimmedLine in
            if includes PosixPath.dotdot cleanSource
               || startsWith (str1 slash) cleanSource
            then
              tell (Warning (Kept (UnsafePathSkipped cleanSource)));;
              parse_lines rest syncPaths
            else parse_lines rest (syncPaths ++ [(cleanSource, cleanSource)])
        | Some colonIndex =>
            let source := trim (slice_to colonIndex trimmedLine) in
            let destination :=
              trim (slice_from (colonIndex + 1) trimmedLine) in
            let cleanSource := strip_quotes source in
            let cleanDestination := strip_quotes destination in
            if includes PosixPath.dotdot cleanSource
               || startsWith (str1 slash) cleanSource
               || includes PosixPath.dotdot cleanDestination
               || startsWith (str1 slash) cleanDestination
            then
              tell (Warning (Kept (UnsafeMappingSkipped cleanSource
                                     cleanDestination)));;
              parse_lines rest syncPaths
            else
              parse_lines rest
                (syncPaths ++ [(cleanSource, cleanDestination)])
        end
  end.

Definition parseInputs : Eff' Legacy.ActionInputs :=
  let personalAccessToken := getInput host "personal_access_token" true in
  let syncPathsInput := getInput host "sync_paths" true in
  let destinationRepo := getInput host "destination_repo" true in
  let dryRun := String.eqb (getInput host "dry_run" false) "true" in
  tell (SetSecret personalAccessToken);;
  if is_empty personalAccessToken then fail (Invalid TokenRequired)
  else if is_empty destinationRepo then fail (Invalid DestinationRepoRequired)
  else if negb (test_repo_format destinationRepo) then
    fail (Invalid (InvalidRepositoryFormat destinationRepo))
  else if is_empty (trim syncPathsInput) then fail (Invalid SyncPathsRequired)
  else
    syncPaths ← parse_lines (split newline syncPathsInput) [];
    if (length syncPaths =? 0)%nat then fail (Invalid NoValidSyncPaths)
    else
      mret {|
        Legacy.personalAccessToken := personalAccessToken;
        Legacy.syncPaths := syncPaths;
        Legacy.destinationRepo := destinationRepo;
        Legacy.dryRun := dryRun;
      |}.

Definition configureGit (config : Legacy.GitConfig) : Eff' unit :=
  executeCommand "git"
    ["config"; "--global"; "user.name"; Legacy.userName config] None;;
  executeCommand "git"
    ["config"; "--global"; "user.email"; Legacy.userEmail config] None;;
  mret tt.

Definition repoUrl (personalAccessToken destinationRepo : string) : string :=
  "https://" +:+ personalAccessToken +:+ "@github.com/" +:+ destinationRepo
  +:+ ".git".

Definition cloneRepo (inputs : Legacy.ActionInputs) (tempDir : string)
    : Eff' string :=
  ignore (ask (MakeDirectory tempDir) (fs_makeDirectory host tempDir));;
  let repoUrl :=
    repoUrl (Legacy.personalAccessToken inputs)
      (Legacy.destinationRepo inputs) in
  let cloneDir := tempDir +:+ "/destination-repo" in
  ignore (ask (Remove cloneDir) (fs_remove host cloneDir));;
  executeCommand "git" ["clone"; repoUrl; cloneDir] None;;
  mret cloneDir.

(** The body of [copyDirectoryRecursive] calls itself on the entries that
    are directories; [fuel] bounds the depth of these calls. *)
Fixpoint copyDirectoryRecursive (fuel : nat) (source dest : string)
    : Effect P (Halted PErr) unit :=
  match fuel with
  | O => fail Exhausted
  | S fuel' =>
      mapError Raised
        (ask (MakeDirectory dest) (fs_makeDirectory host dest));;
      entries ←
        mapError Raised
          (ask (ReadDirectory source) (fs_readDirectory host source));
      (fix each (entries : list string) : Effect P (Halted PErr) unit :=
         match entries with
         | [] => mret tt
         | entry :: rest =>
             let sourcePath := source +:+ "/" +:+ entry in
             let destPath := dest +:+ "/" +:+ entry in
             entryInfo ←
               mapError Raised
                 (ask (Stat sourcePath) (fs_stat host sourcePath));
             (if is_Directory entryInfo then
                copyDirectoryRecursive fuel' sourcePath destPath
              else
                mapError Raised
                  (ask (Copy sourcePath destPath)
                     (fs_copy host sourcePath destPath)));;
             each rest
         end) entries
  end.

(** [lastSlashIndex === -1 ? cloneDir : destPath.substring(0, lastSlashIndex)] *)
Definition destDir (cloneDir destPath : string) : string :=
  match lastIndexOf slash destPath with
  | None => cloneDir
  | Some lastSlashIndex => slice_to lastSlashIndex destPath
  end.

Definition halted (source : string) (h : Halted PErr) : Failed PErr :=
  match h with
  | Raised error => CopyDirectoryFailed source error
  | Exhausted => OutOfFuel
  end.

(** The loop of [copyFiles]. *)
Fixpoint copy_each (fuel : nat) (syncPaths : list (string * string))
    (cloneDir : string) : Eff' unit :=
  match syncPaths with
  | [] => mret tt
  | (source, destination) :: rest =>
      sourceExists ←
        mapError SourceCheckFailed
          (ask (Exists source) (fs_exists host source));
      if negb sourceExists then
        tell (Warning (SourceDoesNotExist source));;
        copy_each fuel rest cloneDir
      else
        let destPath := cloneDir +:+ "/" +:+ destination in
        let destDir := destDir cloneDir destPath in
        ignore (ask (MakeDirectory destDir) (fs_makeDirectory host destDir));;
        sourceInfo ←
          mapError StatSourceFailed (ask (Stat source) (fs_stat host source));
        (if is_Directory sourceInfo then
           mapError (halted source)
             (copyDirectoryRecursive fuel source destPath)
         else
           mapError (CopyFileFailed source)
             (ask (Copy source destPath) (fs_copy host source destPath)));;
        tell (Info (Copied source destination));;
        copy_each fuel rest cloneDir
  end.

Definition copyFiles (fuel : nat) (inputs : Legacy.ActionInputs)
    (cloneDir : string) : Eff' unit :=
  copy_each fuel (Legacy.syncPaths inputs) cloneDir.

Definition commitAndPush (cloneDir : string) : Eff' string :=
  status ←
    executeCommand "git" ["status"; "--porcelain"] (Some cloneDir);
  if is_empty (trim status) then
    tell (Info (Kept NoChangesDetected));;
    mret EmptyString
  else
    executeCommand "git" ["add"; "."] (Some cloneDir);;
    let commitMessage := "chore: Sync files from source repository" in
    executeCommand "git" ["commit"; "-m"; commitMessage] (Some cloneDir);;
    executeCommand "git" ["push"; "origin"; "main"] (Some cloneDir);;
    commitHash ← executeCommand "git" ["rev-parse"; "HEAD"] (Some cloneDir);
    tell (Info (Kept (PushedChanges commitHash)));;
    mret commitHash.

(** [inputs.syncPaths.forEach(...)] *)
Fixpoint info_lines (paths : list (string * string)) (index : nat)
    : Eff' unit :=
  match paths with
  | [] => mret tt
  | (s, d) :: rest =>
      tell (Info (Kept (SyncPathLine (index + 1) s d)));;
      info_lines rest (S index)
  end.

(** The steps of [program] after the dry-run notice. *)
Definition proceed (fuel : nat) (inputs : Legacy.ActionInputs) : Eff' unit :=
  let tempDir := Legacy.tempDir in
  let gitConfig := Legacy.gitConfig in
  configureGit gitConfig;;
  cloneDir ← cloneRepo inputs tempDir;
  copyFiles fuel inputs cloneDir;;
  commitHash ← commitAndPush cloneDir;
  tell (SetOutput "commit_hash" commitHash);;
  ignore (ask (Remove tempDir) (fs_remove host tempDir));;
  tell (Info (Kept SyncCompleted)).

Definition program (fuel : nat) : Eff' unit :=
  inputs ← parseInputs;
  tell (Info (Kept (StartingSync (Legacy.destinationRepo inputs)
                      (Legacy.dryRun inputs))));;
  tell (Info (Kept (FoundSyncPaths (length (Legacy.syncPaths inputs)))));;
  info_lines (Legacy.syncPaths inputs) 0;;
  (if Legacy.dryRun inputs then tell (Info (Kept DryRunMode)) else mret tt);;
  proceed fuel inputs.

End Program.

End LegacyMain.

(** * Properties *)

Import JsString Sync.

(** ** Strings *)

Section StringFacts.

Lemma append_empty_r (a : string) : a +:+ EmptyString = a.
Proof. induction a as [|x a IH]; simpl; [reflexivity | now rewrite IH]. Qed.

Lemma is_empty_true (s : string) : is_empty s = true -> s = EmptyString.
Proof. destruct s; [reflexivity | discriminate]. Qed.

Lemma is_space_colon : is_space colon = false.
Proof. reflexivity. Qed.

Lemma trim_start_sep (a b : string) (c : ascii) :
  is_space c = false ->
  trim_start (a +:+ String c b) = trim_start a +:+ String c b.
Proof.
  intros Hc. induction a as [|x a IH]; simpl.
  - now rewrite Hc.
  - destruct (is_space x); [exact IH | reflexivity].
Qed.

Lemma trim_end_sep (a b : string) (c : ascii) :
  is_space c = false ->
  trim_end (a +:+ String c b) = a +:+ String c (trim_end b).
Proof.
  intros Hc. induction a as [|x a IH]; simpl.
  - now rewrite Hc.
  - rewrite IH. destruct a; simpl; now rewrite andb_false_r.
Qed.

Lemma trim_start_idem (s : string) : trim_start (trim_start s) = trim_start s.
Proof.
  induction s as [|x s IH]; simpl; [reflexivity |].
  destruct (is_space x) eqn:E; [exact IH | simpl; now rewrite E].
Qed.

Lemma trim_end_idem (s : string) : trim_end (trim_end s) = trim_end s.
Proof.
  induction s as [|x s IH]; simpl; [reflexivity |].
  destruct (is_space x && is_empty (trim_end s)) eqn:E; [reflexivity |].
  simpl. now rewrite IH, E.
Qed.

Lemma trim_start_end_comm (s : string) :
  trim_start (trim_end s) = trim_end (trim_start s).
Proof.
  induction s as [|x s IH]; simpl; [reflexivity |].
  destruct (is_space x) eqn:E; simpl.
  - destruct (is_empty (trim_end s)) eqn:E'; simpl.
    + rewrite <- IH. now rewrite (is_empty_true _ E').
    + now rewrite E.
  - now rewrite E.
Qed.

Lemma trim_trim_start (s : string) : trim (trim_start s) = trim s.
Proof. unfold trim. now rewrite trim_start_idem. Qed.

Lemma trim_trim_end (s : string) : trim (trim_end s) = trim s.
Proof.
  unfold trim. now rewrite trim_start_end_comm, trim_end_idem.
Qed.

Lemma indexOf_trim_start (c : ascii) (s : string) :
  indexOf c s = None -> indexOf c (trim_start s) = None.
Proof.
  induction s as [|x s IH]; simpl; [reflexivity |].
  destruct (Ascii.eqb x c) eqn:E; [discriminate |].
  destruct (indexOf c s) eqn:E'; [discriminate |]. intros _.
  destruct (is_space x); [now apply IH | simpl; now rewrite E, E'].
Qed.

Lemma indexOf_sep (c : ascii) (a b : string) :
  indexOf c a = None ->
  indexOf c (a +:+ String c b) = Some (String.length a).
Proof.
  induction a as [|x a IH]; simpl.
  - now rewrite Ascii.eqb_refl.
  - destruct (Ascii.eqb x c); [discriminate |].
    destruct (indexOf c a); [discriminate |]. intros _. now rewrite IH.
Qed.

Lemma slice_to_append (a b : string) : slice_to (String.length a) (a +:+ b) = a.
Proof.
  induction a as [|x a IH]; simpl; [reflexivity | now rewrite IH].
Qed.

Lemma slice_from_append (a b : string) (c : ascii) :
  slice_from (String.length a + 1) (a +:+ String c b) = b.
Proof. induction a as [|x a IH]; simpl; [reflexivity | exact IH]. Qed.

Lemma is_empty_append_sep (a b : string) (c : ascii) :
  is_empty (a +:+ String c b) = false.
Proof. destruct a; reflexivity. Qed.

Lemma strip_quotes_unquoted (s : string) :
  surrounding_quotes s = false -> strip_quotes s = s.
Proof.
  destruct s as [|q rest]; simpl; [reflexivity |].
  destruct (Ascii.eqb q quote); simpl; [| reflexivity].
  destruct (last_char rest); [| reflexivity].
  intros ->. reflexivity.
Qed.

Lemma startsWith_cons (a b : ascii) (p s : string) :
  startsWith (String a p) (String b s) = Ascii.eqb a b && startsWith p s.
Proof. reflexivity. Qed.

Lemma split_nonempty (c : ascii) (s : string) : split c s <> [].
Proof.
  induction s as [|x s IH]; simpl; [discriminate |].
  destruct (Ascii.eqb x c); [discriminate |].
  destruct (split c s); [contradiction | discriminate].
Qed.

Lemma split_head_prefix (c : ascii) (s w : string) (ws : list string) :
  split c s = w :: ws -> startsWith w s = true.
Proof.
  revert w ws. induction s as [|x s IH]; simpl; intros w ws.
  - intros [= <- _]. reflexivity.
  - destruct (Ascii.eqb x c).
    + intros [= <- _]. reflexivity.
    + destruct (split c s) as [|w' ws'] eqn:E.
      * intros [= <- _]. simpl. now rewrite Ascii.eqb_refl.
      * intros [= <- _]. simpl. rewrite Ascii.eqb_refl. simpl.
        eapply IH. reflexivity.
Qed.

Lemma split_cons (c d : ascii) (s : string) :
  split c (String d s) =
  if Ascii.eqb d c then EmptyString :: split c s
  else match split c s with
       | [] => [str1 d]
       | w :: ws => String d w :: ws
       end.
Proof. reflexivity. Qed.

Lemma includes_cons (p : string) (x : ascii) (s : string) :
  includes p (String x s) = startsWith p (String x s) || includes p s.
Proof. reflexivity. Qed.

(** A parent-directory segment shows as two dots in a row. *)
Lemma traversal_segment_includes (s : string) :
  has_traversal_segment s -> includes PosixPath.dotdot s = true.
Proof.
  unfold has_traversal_segment.
  induction s as [|x s IH].
  - intros [H | []]. discriminate H.
  - rewrite split_cons, includes_cons.
    destruct (Ascii.eqb x slash) eqn:Ex.
    + intros [H | H]; [discriminate H |].
      rewrite (IH H). now rewrite orb_true_r.
    + destruct (split slash s) as [|w ws] eqn:E.
      * intros [H | []]. discriminate H.
      * intros [H | H].
        -- injection H as -> ->.
           pose proof (split_head_prefix _ _ _ _ E) as Hp.
           destruct s as [|y s]; [discriminate Hp |].
           unfold str1 in Hp. rewrite startsWith_cons in Hp.
           apply andb_prop in Hp as [Hy _].
           apply Ascii.eqb_eq in Hy. subst y.
           reflexivity.
        -- rewrite IH; [now rewrite orb_true_r | now right].
Qed.

End StringFacts.

(** ** The path-mapping parser *)

Section ParserFacts.
Context {W Repo PErr : Type}.

Lemma logged_nil (st : State W Repo) : logged st [] = st.
Proof. destruct st; unfold logged; simpl. now rewrite app_nil_r. Qed.

Lemma logged_logged (st : State W Repo) (a b : list (Event Repo)) :
  logged (logged st a) b = logged st (a ++ b).
Proof. unfold logged; simpl. now rewrite app_assoc. Qed.

Lemma record_run (ev : Event Repo) (st : State W Repo) :
  record (PErr := PErr) ev st = (Success tt, logged st [ev]).
Proof. reflexivity. Qed.

(** The loop is the line-by-line reading: it never fails, it pushes the
    mappings in line order and warns once per skipped line. *)
Lemma parse_sync_paths_run (lines : list string)
    (acc : list (string * string)) (st : State W Repo) :
  parse_sync_paths (PErr := PErr) lines acc st =
  (Success (acc ++ mappings_of lines),
   logged st (map CoreWarning (warnings_of lines))).
Proof.
  revert acc st. induction lines as [|line rest IH]; intros acc st.
  - simpl. unfold succeed. now rewrite app_nil_r, logged_nil.
  - unfold mappings_of, warnings_of. simpl.
    fold (mappings_of rest). fold (warnings_of rest).
    unfold parse_line.
    destruct (is_empty (trim line)); [apply IH |].
    destruct (indexOf colon (trim line)) as [colon_index|].
    + destruct (unsafe_path _ || unsafe_path _).
      * unfold and_then. rewrite record_run, IH, logged_logged.
        reflexivity.
      * rewrite IH. simpl. now rewrite <- app_assoc.
    + destruct (unsafe_path _).
      * unfold and_then. rewrite record_run, IH, logged_logged.
        reflexivity.
      * rewrite IH. simpl. now rewrite <- app_assoc.
Qed.

End ParserFacts.

Lemma parse_line_sides (line : string) :
  parse_line line =
  match extracted_sides line with
  | None => Blank
  | Some (source, destination) =>
      if unsafe_path source || unsafe_path destination then
        match indexOf colon (trim line) with
        | None => Skipped (UnsafePathSkipped source)
        | Some _ => Skipped (UnsafeMappingSkipped source destination)
        end
      else Mapping source destination
  end.
Proof.
  unfold parse_line, extracted_sides.
  destruct (is_empty (trim line)); [reflexivity |].
  destruct (indexOf colon (trim line)); [reflexivity |].
  now rewrite orb_diag.
Qed.

Lemma parse_line_mapping_safe (line source destination : string) :
  parse_line line = Mapping source destination ->
  unsafe_path source = false /\ unsafe_path destination = false.
Proof.
  unfold parse_line.
  destruct (is_empty (trim line)); [discriminate |].
  destruct (indexOf colon (trim line)).
  - destruct (unsafe_path _ || unsafe_path _) eqn:E; [discriminate |].
    intros [= <- <-]. now apply orb_false_elim in E.
  - destruct (unsafe_path _) eqn:E; [discriminate |].
    intros [= <- <-]. now split.
Qed.

Lemma unsafe_path_spec (side : string) :
  has_traversal_segment side \/ root_anchored side ->
  unsafe_path side = true.
Proof.
  unfold unsafe_path, root_anchored. intros [H | H].
  - now rewrite (traversal_segment_includes _ H).
  - rewrite H. apply orb_true_r.
Qed.

Lemma in_mappings_of (lines : list string) (source destination : string) :
  In (source, destination) (mappings_of lines) ->
  exists line, In line lines /\ parse_line line = Mapping source destination.
Proof.
  unfold mappings_of. rewrite in_flat_map. intros (line & Hin & H).
  exists line. split; [exact Hin |].
  destruct (parse_line line); simpl in H; try contradiction.
  destruct H as [[= -> ->] | []]. reflexivity.
Qed.

(** No mapping is parsed exactly when every line is blank or skipped. *)
Lemma mappings_of_nil (lines : list string) :
  mappings_of lines = [] <->
  Forall (fun line =>
            parse_line line = Blank
            \/ exists warning, parse_line line = Skipped warning) lines.
Proof.
  unfold mappings_of. induction lines as [|line rest IH]; simpl.
  - split; [constructor | reflexivity].
  - destruct (parse_line line) as [| warning | source destination] eqn:E;
      simpl.
    + rewrite IH. split; [intros H; constructor; auto |].
      now inversion 1.
    + rewrite IH. split; [intros H; constructor; eauto |].
      now inversion 1.
    + split; [discriminate |].
      inversion 1 as [|? ? [H' | [w H']] _]; congruence.
Qed.

(** A line [A:B] whose [A] holds no separator is split at that separator:
    the sides are [A] and [B], trimmed and stripped of a pair of quotes. *)
Lemma parse_line_colon (A B : string) :
  indexOf colon A = None ->
  parse_line (A +:+ String colon B) =
  let clean_source := strip_quotes (trim A) in
  let clean_destination := strip_quotes (trim B) in
  if unsafe_path clean_source || unsafe_path clean_destination then
    Skipped (UnsafeMappingSkipped clean_source clean_destination)
  else Mapping clean_source clean_destination.
Proof.
  intros HA. unfold parse_line.
  assert (Ht : trim (A +:+ String colon B)
               = trim_start A +:+ String colon (trim_end B)).
  { unfold trim. rewrite trim_start_sep by apply is_space_colon.
    apply trim_end_sep, is_space_colon. }
  rewrite Ht, is_empty_append_sep.
  rewrite indexOf_sep by now apply indexOf_trim_start.
  rewrite slice_to_append, slice_from_append.
  now rewrite trim_trim_start, trim_trim_end.
Qed.

(** C4: a line one of whose extracted sides has a parent-directory segment or
    starts at the root contributes no mapping and one warning, the lines
    around it are parsed as if it were not there, the loop itself never
    fails, and so no side of a parsed mapping has a parent-directory segment
    or starts at the root. *)
Theorem unsafe_sides_are_skipped_with_a_warning {W Repo PErr : Type}
    (lines : list string) (acc : list (string * string))
    (st : State W Repo) :
  parse_sync_paths (PErr := PErr) lines acc st =
    (Success (acc ++ mappings_of lines),
     logged st (map CoreWarning (warnings_of lines)))
  /\ (forall before line after source destination,
        lines = before ++ line :: after ->
        extracted_sides line = Some (source, destination) ->
        has_traversal_segment source \/ root_anchored source
        \/ has_traversal_segment destination \/ root_anchored destination ->
        exists warning,
          parse_line line = Skipped warning
          /\ mappings_of lines = mappings_of before ++ mappings_of after
          /\ warnings_of lines =
             warnings_of before ++ warning :: warnings_of after)
  /\ (forall source destination,
        In (source, destination) (mappings_of lines) ->
        ~ has_traversal_segment source /\ ~ root_anchored source
        /\ ~ has_traversal_segment destination /\ ~ root_anchored destination).
Proof.
  split; [apply parse_sync_paths_run |]. split.
  - intros before line after source destination -> Hsides Hunsafe.
    assert (Hu : unsafe_path source || unsafe_path destination = true).
    { destruct Hunsafe as [H | [H | [H | H]]].
      - rewrite (unsafe_path_spec source); [reflexivity | now left].
      - rewrite (unsafe_path_spec source); [reflexivity | now right].
      - rewrite (unsafe_path_spec destination);
          [apply orb_true_r | now left].
      - rewrite (unsafe_path_spec destination);
          [apply orb_true_r | now right]. }
    pose proof (parse_line_sides line) as Hline.
    rewrite Hsides, Hu in Hline.
    assert (exists warning, parse_line line = Skipped warning) as [w Hw].
    { destruct (indexOf colon (trim line)); eauto. }
    exists w. split; [exact Hw |].
    unfold mappings_of, warnings_of.
    rewrite !flat_map_app. simpl. rewrite Hw. now split.
  - intros source destination Hin.
    apply in_mappings_of in Hin as (line & _ & Hline).
    apply parse_line_mapping_safe in Hline as [Hs Hd].
    repeat split; intros H.
    + rewrite unsafe_path_spec in Hs; [discriminate | now left].
    + rewrite unsafe_path_spec in Hs; [discriminate | now right].
    + rewrite unsafe_path_spec in Hd; [discriminate | now left].
    + rewrite unsafe_path_spec in Hd; [discriminate | now right].
Qed.

(** The mapping in front of a valid one climbs out of the repository: it is
    skipped with a warning and the valid one is parsed. *)
Lemma unsafe_sides_are_skipped_with_a_warning_witness :
  extracted_sides "../etc/passwd:stolen" = Some ("../etc/passwd", "stolen")
  /\ has_traversal_segment "../etc/passwd"
  /\ exists warning,
       parse_line "../etc/passwd:stolen" = Skipped warning
       /\ mappings_of ["../etc/passwd:stolen"; "docs:content"]
          = mappings_of [] ++ mappings_of ["docs:content"]
       /\ warnings_of ["../etc/passwd:stolen"; "docs:content"]
          = warnings_of [] ++ warning :: warnings_of ["docs:content"].
Proof.
  split; [reflexivity |]. split; [left; reflexivity |].
  refine (proj1 (proj2 (unsafe_sides_are_skipped_with_a_warning
    (W := unit) (Repo := unit) (PErr := unit)
    ["../etc/passwd:stolen"; "docs:content"] []
    {| world := tt; trace := [] |}))
    [] "../etc/passwd:stolen" ["docs:content"] "../etc/passwd" "stolen"
    eq_refl eq_refl _).
  left. left. reflexivity.
Defined.

(** C5, as stated, fails: in the line [a..b:c] neither side is quoted, has
    a parent-directory segment or starts at the root, yet the line is skipped
    (two dots in a row anywhere in a side are enough) and yields no pair. *)
Lemma two_dots_inside_a_segment_are_skipped :
  indexOf colon "a..b" = None
  /\ surrounding_quotes (trim "a..b") = false
  /\ surrounding_quotes (trim "c") = false
  /\ ~ has_traversal_segment (trim "a..b") /\ ~ root_anchored (trim "a..b")
  /\ ~ has_traversal_segment (trim "c") /\ ~ root_anchored (trim "c")
  /\ parse_line ("a..b" +:+ String colon "c")
     = Skipped (UnsafeMappingSkipped "a..b" "c")
  /\ parse_line ("a..b" +:+ String colon "c") <> Mapping (trim "a..b") (trim "c")
  /\ mappings_of ["a..b" +:+ String colon "c"] = [].
Proof.
  repeat split; try reflexivity; try discriminate.
  - intros [H | []]. discriminate H.
  - intros [H | []]. discriminate H.
Qed.

(** C5, amended: a line [A:B] whose [A] holds no separator, whose trimmed
    sides are not wrapped in quotes, do not contain two dots in a row and do
    not start with a slash, is split at its first separator and yields
    exactly the pair of the trimmed sides. *)
Theorem line_with_separator_yields_trimmed_pair {W Repo PErr : Type}
    (A B : string) (st : State W Repo) :
  indexOf colon A = None ->
  surrounding_quotes (trim A) = false ->
  surrounding_quotes (trim B) = false ->
  unsafe_path (trim A) = false ->
  unsafe_path (trim B) = false ->
  indexOf colon (trim (A +:+ String colon B)) = Some (String.length (trim_start A))
  /\ parse_line (A +:+ String colon B) = Mapping (trim A) (trim B)
  /\ parse_sync_paths (PErr := PErr) [A +:+ String colon B] [] st
     = (Success [(trim A, trim B)], st).
Proof.
  intros HA HqA HqB HuA HuB.
  assert (Hline : parse_line (A +:+ String colon B) = Mapping (trim A) (trim B)).
  { rewrite parse_line_colon by exact HA. simpl.
    rewrite !strip_quotes_unquoted by assumption.
    now rewrite HuA, HuB. }
  split; [| split; [exact Hline |]].
  - unfold trim. rewrite trim_start_sep by apply is_space_colon.
    rewrite trim_end_sep by apply is_space_colon.
    apply indexOf_sep. now apply indexOf_trim_start.
  - rewrite parse_sync_paths_run. unfold mappings_of, warnings_of. simpl.
    rewrite Hline. simpl. now rewrite logged_nil.
Qed.

Lemma line_with_separator_yields_trimmed_pair_witness :
  parse_line (" docs/api " +:+ String colon " content/api:v2 ")
  = Mapping "docs/api" "content/api:v2".
Proof.
  exact (proj1 (proj2 (line_with_separator_yields_trimmed_pair
    (W := unit) (Repo := unit) (PErr := unit)
    " docs/api " " content/api:v2 " {| world := tt; trace := [] |}
    eq_refl eq_refl eq_refl eq_refl eq_refl))).
Defined.

(** ** Paths *)

Section PathFacts.
Import PosixPath.

Lemma split_no_separator (c : ascii) (s : string) :
  indexOf c s = None -> split c s = [s].
Proof.
  induction s as [|x s IH]; [reflexivity |].
  rewrite split_cons. simpl.
  destruct (Ascii.eqb x c); [discriminate |].
  destruct (indexOf c s); [discriminate |]. intros _.
  now rewrite IH.
Qed.

Lemma split_segments_no_separator (c : ascii) (s : string) :
  Forall (fun w => indexOf c w = None) (split c s).
Proof.
  induction s as [|x s IH]; [repeat constructor |].
  rewrite split_cons.
  destruct (Ascii.eqb x c) eqn:E; [now constructor |].
  destruct (split c s) as [|w ws].
  - repeat constructor. simpl. now rewrite E.
  - inversion IH as [|? ? Hw Hws]; subst. constructor; [| exact Hws].
    simpl. now rewrite E, Hw.
Qed.

Lemma split_append (c : ascii) (a b : string) :
  split c (a +:+ String c b) = split c a ++ split c b.
Proof.
  induction a as [|x a IH]; simpl.
  - now rewrite Ascii.eqb_refl.
  - destruct (Ascii.eqb x c); [now rewrite IH |].
    rewrite IH. pose proof (split_nonempty c a).
    destruct (split c a); [contradiction | reflexivity].
Qed.

Lemma join_cons (c : ascii) (w w' : string) (ws : list string) :
  join c (w :: w' :: ws) = w +:+ String c (join c (w' :: ws)).
Proof. reflexivity. Qed.

Lemma split_join (c : ascii) (l : list string) :
  l <> [] -> Forall (fun w => indexOf c w = None) l ->
  split c (join c l) = l.
Proof.
  induction l as [|w ws IH]; [contradiction |]. intros _ H.
  inversion H as [|? ? Hw Hws]; subst.
  destruct ws as [|w' ws].
  - simpl. now apply split_no_separator.
  - rewrite join_cons, split_append, split_no_separator by exact Hw.
    simpl. f_equal. now apply IH.
Qed.

Lemma is_name_segment (seg : string) : is_name seg = true -> is_segment seg = true.
Proof.
  unfold is_name. intros H.
  apply andb_prop in H as [H _]. now apply andb_prop in H as [H _].
Qed.

Lemma is_segment_no_slash (seg : string) :
  is_segment seg = true -> indexOf slash seg = None.
Proof.
  unfold is_segment, has_no_slash. intros H. apply andb_prop in H as [_ H].
  now destruct (indexOf slash seg).
Qed.

(** A segment that is kept is pushed; nothing else changes the result. *)
Lemma normalize_segments_name (allow : bool) (seg : string)
    (rest res : list string) :
  is_name seg = true ->
  normalize_segments allow (seg :: rest) res
  = normalize_segments allow rest (seg :: res).
Proof.
  unfold is_name, is_segment. intros H.
  apply andb_prop in H as [H Hdd]. apply andb_prop in H as [H Hd].
  apply andb_prop in H as [He _].
  apply negb_true_iff in He, Hd, Hdd.
  simpl. now rewrite He, Hd, Hdd.
Qed.

Lemma normalize_segments_empty (allow : bool) (rest res : list string) :
  normalize_segments allow (EmptyString :: rest) res
  = normalize_segments allow rest res.
Proof. reflexivity. Qed.

Lemma normalize_segments_dotdot (allow : bool) (rest res : list string) :
  normalize_segments allow (dotdot :: rest) res
  = match res with
    | prev :: res' =>
        if String.eqb prev dotdot then
          normalize_segments allow rest
            (if allow then dotdot :: res else res)
        else normalize_segments allow rest res'
    | [] =>
        normalize_segments allow rest (if allow then [dotdot] else [])
    end.
Proof. reflexivity. Qed.

Lemma kept_step (allow : bool) (seg : string) (res : list string) :
  indexOf slash seg = None -> kept allow res ->
  forall rest,
  exists res', kept allow res'
    /\ normalize_segments allow (seg :: rest) res
       = normalize_segments allow rest res'.
Proof.
  intros Hseg (k & names & -> & Hnames & Hk) rest.
  destruct (is_empty seg || String.eqb seg (str1 dot)) eqn:Eskip.
  { exists (names ++ repeat dotdot k). split; [now exists k, names |].
    simpl. now rewrite Eskip. }
  destruct (String.eqb seg dotdot) eqn:Edd.
  - apply String.eqb_eq in Edd. subst seg.
    rewrite normalize_segments_dotdot.
    destruct names as [|n names].
    + destruct k as [|k]; simpl.
      * exists (if allow then [dotdot] else []). split; [| reflexivity].
        destruct allow.
        -- exists 1, []. repeat split; [constructor | discriminate].
        -- exists 0, []. repeat split. constructor.
      * destruct allow.
        -- eexists. split; [| reflexivity].
           exists (S (S k)), []. repeat split; [constructor | discriminate].
        -- now specialize (Hk eq_refl).
    + inversion Hnames as [|? ? Hn Hnames']; subst. simpl.
      assert (String.eqb n dotdot = false) as ->.
      { unfold is_name in Hn. apply andb_prop in Hn as [_ Hn].
        now apply negb_true_iff in Hn. }
      eexists. split; [| reflexivity]. now exists k, names.
  - assert (Hname : is_name seg = true).
    { apply orb_false_elim in Eskip as [He Hd].
      unfold is_name, is_segment, has_no_slash.
      now rewrite He, Hd, Edd, Hseg. }
    rewrite normalize_segments_name by exact Hname.
    eexists. split; [| reflexivity].
    exists k, (seg :: names). repeat split; [| exact Hk].
    now constructor.
Qed.

Lemma rev_repeat {A} (x : A) (k : nat) : rev (repeat x k) = repeat x k.
Proof.
  induction k as [|k IH]; [reflexivity |]. simpl. rewrite IH.
  clear IH. induction k as [|k IH]; [reflexivity |]. simpl. now rewrite IH.
Qed.

Lemma normalize_segments_kept (allow : bool) (segs res : list string) :
  Forall (fun w => indexOf slash w = None) segs -> kept allow res ->
  exists k names,
    normalize_segments allow segs res = repeat dotdot k ++ names
    /\ Forall (fun w => is_name w = true) names
    /\ (allow = false -> k = 0).
Proof.
  revert res. induction segs as [|seg rest IH]; intros res Hsegs Hres.
  - destruct Hres as (k & names & -> & Hnames & Hk).
    exists k, (rev names). simpl. rewrite rev_app_distr, rev_repeat.
    repeat split; [| exact Hk]. now apply Forall_rev.
  - inversion Hsegs as [|? ? Hseg Hrest]; subst.
    destruct (kept_step allow seg res Hseg Hres rest) as (res' & Hres' & ->).
    now apply IH.
Qed.

Lemma normalize_segments_names (allow : bool) (names post res : list string) :
  Forall (fun w => is_name w = true) names ->
  Forall (fun w => w = EmptyString) post ->
  normalize_segments allow (names ++ post) res = rev res ++ names.
Proof.
  revert res. induction names as [|n names IH]; intros res Hn Hp.
  - simpl. rewrite app_nil_r. revert res.
    induction post as [|p post IHp]; intros res; [reflexivity |].
    inversion Hp; subst. rewrite normalize_segments_empty. now apply IHp.
  - inversion Hn; subst. simpl app.
    rewrite normalize_segments_name by assumption.
    rewrite IH by assumption. simpl. now rewrite <- app_assoc.
Qed.

Lemma normalize_segments_dotdots (k j : nat) (segs : list string) :
  normalize_segments true (repeat dotdot k ++ segs) (repeat dotdot j)
  = normalize_segments true segs (repeat dotdot (k + j)).
Proof.
  revert j. induction k as [|k IH]; intros j; [reflexivity |].
  simpl app. rewrite normalize_segments_dotdot.
  replace (S k + j) with (k + S j) by lia.
  destruct j as [|j]; simpl repeat.
  - apply (IH 1).
  - apply (IH (S (S j))).
Qed.

(** Normalized segments are a fixed point, also between empty segments. *)
Lemma normalize_segments_fixed (allow : bool) (k : nat)
    (names pre post : list string) :
  Forall (fun w => is_name w = true) names ->
  (allow = false -> k = 0) ->
  Forall (fun w => w = EmptyString) pre ->
  Forall (fun w => w = EmptyString) post ->
  normalize_segments allow (pre ++ (repeat dotdot k ++ names) ++ post) []
  = repeat dotdot k ++ names.
Proof.
  intros Hn Hk Hpre Hpost.
  induction pre as [|p pre IH].
  - simpl app. rewrite <- app_assoc.
    destruct allow.
    + rewrite (normalize_segments_dotdots k 0).
      rewrite normalize_segments_names by assumption.
      now rewrite rev_repeat, Nat.add_0_r.
    + rewrite (Hk eq_refl). simpl.
      now rewrite normalize_segments_names by assumption.
  - inversion Hpre; subst. simpl app. rewrite normalize_segments_empty.
    now apply IH.
Qed.

Lemma startsWith_slash (c : ascii) (s : string) :
  startsWith (str1 slash) (String c s) = Ascii.eqb c slash.
Proof.
  unfold str1. rewrite startsWith_cons. simpl startsWith.
  rewrite andb_true_r. apply Ascii.eqb_sym.
Qed.

Lemma last_char_append_cons (a b : string) (c : ascii) :
  last_char (a +:+ String c b) = last_char (String c b).
Proof.
  induction a as [|x a IH]; [reflexivity |].
  simpl String.append.
  change (last_char (String x (a +:+ String c b)))
    with (match a +:+ String c b with
          | EmptyString => Some x
          | String _ _ => last_char (a +:+ String c b)
          end).
  rewrite <- IH. now destruct a.
Qed.

Lemma endsWith_slash_append_slash (a : string) :
  endsWith_slash (a +:+ String slash EmptyString) = true.
Proof.
  unfold endsWith_slash. rewrite last_char_append_cons. simpl last_char.
  apply Ascii.eqb_refl.
Qed.

Lemma endsWith_slash_last (s : string) (d : ascii) :
  last_char s = Some d -> endsWith_slash s = Ascii.eqb d slash.
Proof. unfold endsWith_slash. now intros ->. Qed.

Lemma segment_chars (w : string) :
  is_segment w = true ->
  exists c w', w = String c w' /\ Ascii.eqb c slash = false
    /\ exists d, last_char w = Some d /\ Ascii.eqb d slash = false.
Proof.
  unfold is_segment, has_no_slash. intros H.
  apply andb_prop in H as [He Hs].
  destruct w as [|c w']; [discriminate |]. clear He.
  exists c, w'. split; [reflexivity |].
  revert c Hs. induction w' as [|y w' IH]; intros c Hs.
  - simpl in Hs. destruct (Ascii.eqb c slash) eqn:E; [discriminate |].
    split; [reflexivity | now exists c].
  - simpl in Hs. destruct (Ascii.eqb c slash) eqn:E; [discriminate |].
    split; [reflexivity |].
    destruct (IH y) as (_ & d & Hd & Hds).
    { simpl. destruct (Ascii.eqb y slash); [discriminate |].
      now destruct (indexOf slash w'). }
    exists d. split; [| exact Hds].
    change (last_char (String c (String y w')))
      with (last_char (String y w')). exact Hd.
Qed.

Lemma join_segments_chars (w : string) (ws : list string) :
  Forall (fun w => is_segment w = true) (w :: ws) ->
  exists c body, join slash (w :: ws) = String c body
    /\ Ascii.eqb c slash = false
    /\ exists d, last_char (join slash (w :: ws)) = Some d
         /\ Ascii.eqb d slash = false.
Proof.
  revert w. induction ws as [|w' ws IH]; intros w H.
  - inversion H as [|? ? Hw _]; subst.
    destruct (segment_chars w Hw) as (c & b & -> & Hc & Hl).
    now exists c, b.
  - inversion H as [|? ? Hw Hws]; subst.
    destruct (segment_chars w Hw) as (c & b & -> & Hc & _).
    destruct (IH w' Hws) as (_ & _ & _ & _ & d & Hd & Hds).
    rewrite join_cons. eexists c, _. split; [reflexivity |].
    split; [exact Hc |]. exists d. split; [| exact Hds].
    rewrite last_char_append_cons.
    destruct (IH w' Hws) as (c' & b' & Hj & _).
    rewrite Hj in *.
    change (last_char (String slash (String c' b')))
      with (last_char (String c' b')). exact Hd.
Qed.

Lemma kept_segments (k : nat) (names : list string) :
  Forall (fun w => is_name w = true) names ->
  Forall (fun w => is_segment w = true) (repeat dotdot k ++ names).
Proof.
  intros H. apply Forall_app. split.
  - induction k; constructor; [reflexivity | assumption].
  - eapply Forall_impl; [exact H |]. apply is_name_segment.
Qed.

(** What [normalize] returns, it returns unchanged. *)
Lemma normalize_assemble (isAbsolute trailingSeparator : bool) (k : nat)
    (names : list string) :
  Forall (fun w => is_name w = true) names ->
  (isAbsolute = true -> k = 0) ->
  normalize (assemble isAbsolute trailingSeparator (repeat dotdot k ++ names))
  = assemble isAbsolute trailingSeparator (repeat dotdot k ++ names).
Proof.
  intros Hnames Hk.
  pose proof (kept_segments k names Hnames) as Hsegs.
  destruct (repeat dotdot k ++ names) as [|w ws] eqn:Eout.
  { destruct isAbsolute, trailingSeparator; reflexivity. }
  destruct (join_segments_chars w ws Hsegs)
    as (c & body & Hj & Hc & d & Hd & Hds).
  assert (Hsplit : split slash (join slash (w :: ws)) = w :: ws).
  { apply split_join; [discriminate |].
    eapply Forall_impl; [exact Hsegs |]. apply is_segment_no_slash. }
  assert (Hfix : forall pre post,
    Forall (fun w => w = EmptyString) pre ->
    Forall (fun w => w = EmptyString) post ->
    normalize_segments (negb isAbsolute) (pre ++ (w :: ws) ++ post) []
    = w :: ws).
  { intros pre post Hpre Hpost. rewrite <- Eout.
    apply normalize_segments_fixed; try assumption.
    intros Ha. apply Hk. now destruct isAbsolute. }
  unfold assemble at 2. unfold assemble at 1. rewrite Hj.
  change (is_empty (String c body)) with false. cbv iota.
  destruct isAbsolute, trailingSeparator; unfold normalize.
  - change (str1 slash +:+ String c body +:+ str1 slash)
      with (String slash (String c body) +:+ String slash EmptyString).
    rewrite endsWith_slash_append_slash, split_append.
    change (is_empty (String slash (String c body) +:+ String slash EmptyString))
      with false.
    change (String slash (String c body) +:+ String slash EmptyString)
      with (String slash (String c body +:+ String slash EmptyString)).
    rewrite startsWith_slash, split_cons, Ascii.eqb_refl, <- Hj, Hsplit.
    change (negb true) with false in *.
    change ((EmptyString :: w :: ws) ++ split slash EmptyString)
      with ([EmptyString] ++ (w :: ws) ++ [EmptyString]).
    rewrite (Hfix [EmptyString] [EmptyString]) by (repeat constructor).
    unfold assemble. rewrite Hj. reflexivity.
  - change (str1 slash +:+ String c body +:+ EmptyString)
      with (String slash (String c body +:+ EmptyString)).
    rewrite append_empty_r.
    change (is_empty (String slash (String c body))) with false.
    rewrite startsWith_slash, Ascii.eqb_refl.
    rewrite (endsWith_slash_last _ d), Hds, split_cons, Ascii.eqb_refl.
    2:{ rewrite <- Hd, Hj. reflexivity. }
    rewrite <- Hj, Hsplit.
    change (negb true) with false in *.
    replace (EmptyString :: w :: ws) with ([EmptyString] ++ (w :: ws) ++ [])
      by (now rewrite app_nil_r).
    rewrite (Hfix [EmptyString] []) by (repeat constructor).
    unfold assemble. rewrite Hj.
    change (is_empty (String c body)) with false. cbv iota.
    now rewrite append_empty_r.
  - change (EmptyString +:+ String c body +:+ str1 slash)
      with (String c body +:+ String slash EmptyString).
    rewrite endsWith_slash_append_slash, split_append.
    change (is_empty (String c body +:+ String slash EmptyString))
      with false.
    change (String c body +:+ String slash EmptyString)
      with (String c (body +:+ String slash EmptyString)).
    rewrite startsWith_slash, Hc, <- Hj, Hsplit.
    change (negb false) with true in *.
    change ((w :: ws) ++ split slash EmptyString)
      with ([] ++ (w :: ws) ++ [EmptyString]).
    rewrite (Hfix [] [EmptyString]) by (repeat constructor).
    unfold assemble. rewrite Hj. reflexivity.
  - change (EmptyString +:+ String c body +:+ EmptyString)
      with (String c body +:+ EmptyString).
    rewrite append_empty_r.
    change (is_empty (String c body)) with false.
    rewrite startsWith_slash, Hc.
    rewrite (endsWith_slash_last _ d), Hds by (now rewrite <- Hj).
    rewrite <- Hj, Hsplit.
    change (negb false) with true in *.
    replace (normalize_segments true (w :: ws) [])
      with (normalize_segments true ([] ++ (w :: ws) ++ []) [])
      by (now rewrite app_nil_r).
    rewrite (Hfix [] []) by constructor.
    unfold assemble. rewrite Hj.
    change (is_empty (String c body)) with false. cbv iota.
    now rewrite append_empty_r.
Qed.

Theorem normalize_idempotent (path : string) :
  normalize (normalize path) = normalize path.
Proof.
  unfold normalize at 2 3.
  destruct (is_empty path); [reflexivity |].
  destruct (normalize_segments_kept
              (negb (startsWith (str1 slash) path)) (split slash path) [])
    as (k & names & Hout & Hnames & Hk).
  - apply split_segments_no_separator.
  - exists 0, []. repeat split. constructor.
  - cbv zeta. rewrite Hout. apply normalize_assemble; [exact Hnames |].
    intros Ha. apply Hk. now rewrite Ha.
Qed.

Lemma normalize_not_empty (path : string) : is_empty (normalize path) = false.
Proof.
  unfold normalize. destruct (is_empty path); [reflexivity |].
  cbv zeta. unfold assemble.
  generalize (endsWith_slash path) as tr.
  generalize (startsWith (str1 slash) path) as abs. intros abs tr.
  destruct (join slash _); destruct abs, tr; reflexivity.
Qed.

Lemma path_join_normalized (a b : string) :
  exists path, path_join a b = normalize path.
Proof.
  unfold path_join. destruct (is_empty a), (is_empty b); eauto.
  now exists EmptyString.
Qed.

(** Joining the empty string to a path that [path.join] made gives the
    same path back. *)
Lemma path_join_empty (a b : string) :
  path_join (path_join a b) EmptyString = path_join a b.
Proof.
  destruct (path_join_normalized a b) as [path ->].
  unfold path_join. rewrite normalize_not_empty. simpl.
  apply normalize_idempotent.
Qed.

End PathFacts.

(** ** Runs of [parse_inputs] and [program] *)

Section RunFacts.
Context {W Repo PErr : Type} (svc : Services W Repo PErr).

Lemma and_then_success {A B} (m : Eff W Repo PErr A)
    (k : A -> Eff W Repo PErr B) (st st' : State W Repo) (a : A) :
  m st = (Success a, st') -> and_then m k st = k a st'.
Proof. unfold and_then. now intros ->. Qed.

Lemma and_then_failure {A B} (m : Eff W Repo PErr A)
    (k : A -> Eff W Repo PErr B) (st st' : State W Repo)
    (e : Error PErr) :
  m st = (Failure e, st') -> and_then m k st = (Failure e, st').
Proof. unfold and_then. now intros ->. Qed.

(** [parse_inputs], step by step: the token is masked first, the checks
    follow in order, the lines are parsed last. *)
Lemma parse_inputs_run (st : State W Repo) :
  parse_inputs svc st =
  let personal_access_token := get_input svc "personal_access_token" true in
  let sync_paths_input := get_input svc "sync_paths" true in
  let source_repo := get_input svc "source_repo" true in
  let destination_repo := get_input svc "destination_repo" true in
  let dry_run := String.eqb (get_input svc "dry_run" false) "true" in
  let masked := logged st [CoreSetSecret personal_access_token] in
  if is_empty personal_access_token then
    (Failure (Validation TokenRequired), masked)
  else if is_empty destination_repo then
    (Failure (Validation DestinationRepoRequired), masked)
  else if is_empty source_repo then
    (Failure (Validation SourceRepoRequired), masked)
  else if negb (test_repo_format destination_repo) then
    (Failure (Validation (InvalidRepositoryFormat destination_repo)), masked)
  else if is_empty (trim sync_paths_input) then
    (Failure (Validation SyncPathsRequired), masked)
  else
    let lines := split newline sync_paths_input in
    let parsed :=
      logged st (CoreSetSecret personal_access_token
                 :: map CoreWarning (warnings_of lines)) in
    if (length (mappings_of lines) =? 0)%nat then
      (Failure (Validation NoValidSyncPaths), parsed)
    else
      (Success {|
         personal_access_token := personal_access_token;
         sync_paths := mappings_of lines;
         source_repo := source_repo;
         destination_repo := destination_repo;
         dry_run := dry_run;
       |}, parsed).
Proof.
  unfold parse_inputs. cbv zeta.
  unfold and_then at 1. rewrite record_run.
  destruct (is_empty (get_input svc "personal_access_token" true));
    [reflexivity |].
  destruct (is_empty (get_input svc "destination_repo" true));
    [reflexivity |].
  destruct (is_empty (get_input svc "source_repo" true)); [reflexivity |].
  destruct (negb (test_repo_format _)); [reflexivity |].
  destruct (is_empty (trim _)); [reflexivity |].
  unfold and_then. rewrite parse_sync_paths_run, logged_logged. simpl app.
  destruct (length _ =? 0)%nat; reflexivity.
Qed.

(** When [parse_inputs] fails, it fails with a validation error, having
    masked the token and warned about skipped lines, and nothing else. *)
Lemma parse_inputs_failure (st st' : State W Repo) (e : Error PErr) :
  parse_inputs svc st = (Failure e, st') ->
  exists v warnings,
    e = Validation v
    /\ st' = logged st
               (CoreSetSecret (get_input svc "personal_access_token" true)
                :: map CoreWarning warnings).
Proof.
  rewrite parse_inputs_run. cbv zeta.
  repeat match goal with
         | |- context [if ?c then _ else _] => destruct c
         end;
    intros H; try discriminate H; injection H as <- <-; eauto;
    eexists _, []; split; reflexivity.
Qed.

Lemma program_parse_failure (st st' : State W Repo) (e : Error PErr) :
  parse_inputs svc st = (Failure e, st') -> program svc st = (Failure e, st').
Proof. intros H. unfold program. now apply and_then_failure. Qed.

End RunFacts.

(** C3: when the lines of [sync_paths] yield no mapping, the run fails with
    a validation error; the token was masked and the skipped lines warned
    about, and no call went to the file system or to git: the world is as it
    was. *)
Theorem no_mapping_is_a_validation_error {W Repo PErr : Type}
    (svc : Services W Repo PErr) (w : W) :
  mappings_of (split newline (get_input svc "sync_paths" true)) = [] ->
  exists v warnings,
    run (program svc) w =
      (Failure (Validation v),
       {| world := w;
          trace := CoreSetSecret (get_input svc "personal_access_token" true)
                   :: map CoreWarning warnings |})
    /\ Forall (fun ev : Event Repo => acts_on_world ev = false)
         (CoreSetSecret (get_input svc "personal_access_token" true)
          :: map CoreWarning warnings).
Proof.
  intros Hnone. unfold run.
  destruct (parse_inputs svc {| world := w; trace := [] |})
    as [[inputs | e] st'] eqn:Hparse.
  - exfalso. rewrite parse_inputs_run in Hparse. cbv zeta in Hparse.
    rewrite Hnone in Hparse. cbn [length Nat.eqb] in Hparse.
    repeat match type of Hparse with
           | context [if ?c then _ else _] => destruct c
           end; discriminate.
  - rewrite (program_parse_failure svc _ _ _ Hparse).
    apply parse_inputs_failure in Hparse as (v & warnings & -> & ->).
    exists v, warnings. split; [reflexivity |].
    constructor; [reflexivity |].
    induction warnings; constructor; [reflexivity | assumption].
Qed.

Lemma no_mapping_is_a_validation_error_witness :
  exists v warnings,
    run (program (TestEnv.test_services
           (TestEnv.test_scenario_with
              (TestEnv.inputs_of "token" "../etc/passwd:stolen"
                 "owner/source" "owner/destination" EmptyString))))
        TestEnv.initial_volume
    = (Failure (Validation v),
       {| world := TestEnv.initial_volume;
          trace := CoreSetSecret "token" :: map CoreWarning warnings |})
    /\ Forall (fun ev : Event TestEnv.TestGitRepo => acts_on_world ev = false)
         (CoreSetSecret "token" :: map CoreWarning warnings).
Proof.
  exact (no_mapping_is_a_validation_error
    (TestEnv.test_services
       (TestEnv.test_scenario_with
          (TestEnv.inputs_of "token" "../etc/passwd:stolen"
             "owner/source" "owner/destination" EmptyString)))
    TestEnv.initial_volume eq_refl).
Defined.

(** C10: the empty string passes the path-safety test, so a line that is
    only the separator yields the pair of two empty strings and [:dest]
    yields the empty source with [dest]; more generally a side that trims to
    nothing is accepted whenever the other side is. Joined to the source
    clone directory or to the target directory of [program], the empty side
    gives that directory itself, so the composer renames the directory. *)
Theorem empty_side_is_accepted {W Repo PErr : Type}
    (svc : Services W Repo PErr) (temp_dir : string) :
  unsafe_path EmptyString = false
  /\ parse_line (str1 colon) = Mapping EmptyString EmptyString
  /\ parse_line (String colon "dest") = Mapping EmptyString "dest"
  /\ mappings_of [str1 colon; String colon "dest"]
     = [(EmptyString, EmptyString); (EmptyString, "dest")]
  /\ (forall A B,
        indexOf colon A = None -> trim A = EmptyString ->
        unsafe_path (strip_quotes (trim B)) = false ->
        parse_line (A +:+ String colon B)
        = Mapping EmptyString (strip_quotes (trim B)))
  /\ (forall A B,
        indexOf colon A = None -> trim B = EmptyString ->
        unsafe_path (strip_quotes (trim A)) = false ->
        parse_line (A +:+ String colon B)
        = Mapping (strip_quotes (trim A)) EmptyString)
  /\ let source_repo_dir := PosixPath.path_join temp_dir "source_repo" in
     let target_dir := PosixPath.path_join temp_dir "target" in
     PosixPath.path_join source_repo_dir EmptyString = source_repo_dir
     /\ PosixPath.path_join target_dir EmptyString = target_dir
     /\ move_one svc EmptyString EmptyString source_repo_dir target_dir
        = (yield _ <-
             call (FsMakeDirectory (PosixPath.dirname target_dir))
               (makeDirectory svc (PosixPath.dirname target_dir)) ;
           call (FsRename source_repo_dir target_dir)
             (fs_rename svc source_repo_dir target_dir)).
Proof.
  repeat split; try reflexivity.
  - intros A B HA HtA HB. rewrite parse_line_colon by exact HA.
    cbv zeta. rewrite HtA.
    change (strip_quotes EmptyString) with EmptyString.
    change (unsafe_path EmptyString) with false. simpl orb. now rewrite HB.
  - intros A B HA HtB HA'. rewrite parse_line_colon by exact HA.
    cbv zeta. rewrite HtB.
    change (strip_quotes EmptyString) with EmptyString.
    change (unsafe_path EmptyString) with false.
    now rewrite HA', orb_false_r.
  - apply path_join_empty.
  - apply path_join_empty.
  - unfold move_one. now rewrite !path_join_empty.
Qed.

Lemma empty_side_is_accepted_witness :
  parse_line ("  " +:+ String colon " docs ") = Mapping EmptyString "docs".
Proof.
  exact (proj1 (proj2 (proj2 (proj2 (proj2
    (empty_side_is_accepted
       (TestEnv.test_services TestEnv.test_scenario) "/tmp/cross-repo-sync")))))
    "  " " docs " eq_refl eq_refl eq_refl).
Defined.

(** ** The orchestrator *)

Section OrchestratorFacts.
Context {W Repo PErr : Type} (svc : Services W Repo PErr).

Lemma annotate_all_run (entries : list (string * SpanValue))
    (st : State W Repo) :
  annotate_all (PErr := PErr) entries st =
  (Success tt,
   logged st
     (map (fun entry => AnnotateCurrentSpan (fst entry) (snd entry))
        entries)).
Proof.
  revert st. induction entries as [|[key value] rest IH]; intros st.
  - simpl. unfold succeed. now rewrite logged_nil.
  - simpl. unfold and_then. rewrite record_run, IH, logged_logged.
    reflexivity.
Qed.

Lemma info_sync_paths_run (paths : list (string * string)) (index : nat)
    (st : State W Repo) :
  info_sync_paths (PErr := PErr) paths index st =
  (Success tt, logged st (map CoreInfo (sync_path_lines paths index))).
Proof.
  revert index st.
  induction paths as [|[source destination] rest IH]; intros index st.
  - simpl. unfold succeed. now rewrite logged_nil.
  - simpl. unfold and_then. rewrite record_run, IH, logged_logged.
    reflexivity.
Qed.

(** [program] from parsed inputs up to the dry-run gate. *)
Lemma program_after_parse (st parsed : State W Repo)
    (inputs : ActionInputs) :
  parse_inputs svc st = (Success inputs, parsed) ->
  program svc st =
  (if dry_run inputs then record (CoreInfo DryRunMode) else sync svc inputs)
    (logged parsed
       (annotations inputs
        ++ [CoreInfo (StartingSync (destination_repo inputs)
                        (dry_run inputs));
            CoreInfo (FoundSyncPaths (length (sync_paths inputs)))]
        ++ map CoreInfo (sync_path_lines (sync_paths inputs) 0))).
Proof.
  intros Hparse. unfold program.
  rewrite (and_then_success _ _ _ _ _ Hparse).
  unfold and_then.
  rewrite annotate_all_run, !record_run, info_sync_paths_run.
  rewrite !logged_logged. reflexivity.
Qed.

Lemma written_output_none (name : string) (tr : list (Event Repo)) :
  Forall (fun ev => match ev with
                    | CoreSetOutput _ _ => False
                    | _ => True
                    end) tr ->
  written_output name tr = None.
Proof.
  induction 1 as [|ev tr Hev _ IH]; [reflexivity |].
  simpl. rewrite IH. now destruct ev.
Qed.

End OrchestratorFacts.

Lemma Forall_map_all {A B} (P : B -> Prop) (f : A -> B) (l : list A) :
  (forall x, P (f x)) -> Forall P (map f l).
Proof. intros H. induction l; constructor; auto. Qed.

(** C7: with the input [dry_run] set to [true] and inputs that parse, the
    run succeeds after it has masked the token, warned about skipped lines,
    annotated its span and logged the start, the number of mappings, one
    line per parsed mapping and the dry-run notice. No call goes to the file
    system or to git and the world is as it was; [commit_hash] is never
    set, so the output reads as the empty string. *)
Theorem dry_run_changes_nothing {W Repo PErr : Type}
    (svc : Services W Repo PErr) (w : W) (inputs : ActionInputs)
    (parsed : State W Repo) :
  get_input svc "dry_run" false = "true" ->
  parse_inputs svc {| world := w; trace := [] |} = (Success inputs, parsed) ->
  let lines := split newline (get_input svc "sync_paths" true) in
  let tr :=
    CoreSetSecret (get_input svc "personal_access_token" true)
    :: map CoreWarning (warnings_of lines)
    ++ annotations inputs
    ++ [CoreInfo (StartingSync (destination_repo inputs) true);
        CoreInfo (FoundSyncPaths (length (sync_paths inputs)))]
    ++ map CoreInfo (sync_path_lines (sync_paths inputs) 0)
    ++ [CoreInfo DryRunMode] in
  sync_paths inputs = mappings_of lines
  /\ run (program svc) w = (Success tt, {| world := w; trace := tr |})
  /\ Forall (fun ev => acts_on_world ev = false) tr
  /\ written_output "commit_hash" tr = None
  /\ output_value "commit_hash" tr = EmptyString.
Proof.
  intros Hdry Hparse lines tr.
  assert (Hshape : sync_paths inputs = mappings_of lines
                   /\ dry_run inputs = true
                   /\ parsed = {| world := w;
                                  trace := CoreSetSecret
                                    (get_input svc "personal_access_token" true)
                                    :: map CoreWarning (warnings_of lines) |}).
  { pose proof Hparse as H. rewrite parse_inputs_run in H. cbv zeta in H.
    rewrite Hdry in H.
    repeat match type of H with
           | context [if ?c then _ else _] => destruct c
           end; try discriminate H.
    injection H as <- <-. repeat split. }
  destruct Hshape as (Hpaths & Hflag & ->).
  assert (Hquiet : Forall (fun ev : Event Repo => acts_on_world ev = false) tr).
  { subst tr. constructor; [reflexivity |].
    repeat apply Forall_app_2;
      try (apply Forall_map_all; intros; reflexivity);
      repeat constructor. }
  assert (Hout : written_output "commit_hash" tr = None).
  { apply written_output_none. subst tr. constructor; [exact I |].
    repeat apply Forall_app_2;
      try (apply Forall_map_all; intros; exact I);
      repeat constructor. }
  split; [exact Hpaths |]. split; [| split; [exact Hquiet |]].
  - unfold run. rewrite (program_after_parse svc _ _ _ Hparse).
    clear Hquiet Hout. subst tr.
    destruct (dry_run inputs); [| discriminate Hflag].
    rewrite record_run, logged_logged. unfold logged. simpl trace.
    simpl world. now rewrite <- !app_assoc.
  - split; [exact Hout |]. unfold output_value. now rewrite Hout.
Qed.

Lemma dry_run_changes_nothing_witness :
  let svc :=
    TestEnv.test_services
      (TestEnv.test_scenario_with
         (TestEnv.inputs_of "token" "docs:content" "owner/source"
            "owner/destination" "true")) in
  run (program svc) TestEnv.initial_volume
  = (Success tt,
     {| world := TestEnv.initial_volume;
        trace :=
          [CoreSetSecret "token";
           AnnotateCurrentSpan "personal_access_token" (AttrString "token");
           AnnotateCurrentSpan "sync_paths" (AttrPaths [("docs", "content")]);
           AnnotateCurrentSpan "destination_repo"
             (AttrString "owner/destination");
           AnnotateCurrentSpan "dry_run" (AttrBool true);
           AnnotateCurrentSpan "source_repo" (AttrString "owner/source");
           CoreInfo (StartingSync "owner/destination" true);
           CoreInfo (FoundSyncPaths 1);
           CoreInfo (SyncPathLine 1 "docs" "content");
           CoreInfo DryRunMode] |}).
Proof.
  intros svc.
  exact (proj1 (proj2 (dry_run_changes_nothing svc TestEnv.initial_volume
    {| personal_access_token := "token";
       sync_paths := [("docs", "content")];
       source_repo := "owner/source";
       destination_repo := "owner/destination";
       dry_run := true |}
    {| world := TestEnv.initial_volume; trace := [CoreSetSecret "token"] |}
    eq_refl eq_refl))).
Defined.

(** C1: once the status of the merged tree is known, an empty or blank
    status ends [commit_and_push] successfully with the empty string, after
    the status query and a notice and nothing else; any other status is
    followed by [add(["."])] in every case and, as each git call succeeds,
    by the commit with the fixed message, the push and the resolution of
    [HEAD], whose answer is the result. *)
Theorem commit_and_push_follows_status {W Repo PErr : Type}
    (svc : Services W Repo PErr) (repo : Repo) (st : State W Repo)
    (status : string) (w1 : W) :
  repo_status svc repo (world st) = (Success status, w1) ->
  (is_empty (trim status) = true ->
   commit_and_push svc repo st =
   (Success EmptyString,
    {| world := w1;
       trace := trace st ++ [RepoStatus repo; CoreInfo NoChangesDetected] |}))
  /\ (is_empty (trim status) = false ->
      exists evs,
        trace (snd (commit_and_push svc repo st)) =
        trace st ++ RepoStatus repo :: RepoAdd repo ["."] :: evs)
  /\ (is_empty (trim status) = false ->
      forall (w2 w3 w4 w5 : W) (commit_hash : string),
        repo_add svc repo ["."] w1 = (Success tt, w2) ->
        repo_commit svc repo commit_message w2 = (Success tt, w3) ->
        repo_push svc repo w3 = (Success tt, w4) ->
        repo_rev_parse svc repo "HEAD" w4 = (Success commit_hash, w5) ->
        commit_and_push svc repo st =
        (Success commit_hash,
         {| world := w5;
            trace := trace st ++
              [RepoStatus repo; RepoAdd repo ["."];
               RepoCommit repo commit_message; RepoPush repo;
               RepoRevParse repo "HEAD";
               CoreInfo (PushedChanges commit_hash)] |})).
Proof.
  intros Hstatus.
  assert (Hfirst : call (PErr := PErr) (RepoStatus repo)
                     (repo_status svc repo) st
                   = (Success status,
                      {| world := w1; trace := trace st ++ [RepoStatus repo] |})).
  { unfold call. now rewrite Hstatus. }
  unfold commit_and_push.
  rewrite (and_then_success _ _ _ _ _ Hfirst).
  split; [| split].
  - intros ->. unfold and_then. rewrite record_run.
    unfold succeed, logged. simpl. now rewrite <- app_assoc.
  - intros ->. unfold and_then, call, record, succeed. simpl.
    destruct (repo_add svc repo ["."] w1) as [[[] | e] w2]; simpl.
    2:{ eexists. rewrite <- app_assoc. reflexivity. }
    destruct (repo_commit svc repo commit_message w2) as [[[] | e] w3]; simpl.
    2:{ eexists. rewrite <- !app_assoc. reflexivity. }
    destruct (repo_push svc repo w3) as [[[] | e] w4]; simpl.
    2:{ eexists. rewrite <- !app_assoc. reflexivity. }
    destruct (repo_rev_parse svc repo "HEAD" w4) as [[h | e] w5]; simpl.
    all: eexists; rewrite <- !app_assoc; reflexivity.
  - intros -> w2 w3 w4 w5 commit_hash Hadd Hcommit Hpush Hrev.
    unfold and_then, call, record, succeed. simpl.
    rewrite Hadd. simpl. rewrite Hcommit. simpl. rewrite Hpush. simpl.
    rewrite Hrev. simpl. now rewrite <- !app_assoc.
Qed.

(** A run of [sync] that succeeds has run [commit_and_push] on the merged
    tree; what that returned is the output [commit_hash], and the closing
    notice is the last call. *)
Lemma sync_reports_commit_and_push {W Repo PErr : Type}
    (svc : Services W Repo PErr) (inputs : ActionInputs)
    (st st' : State W Repo) :
  sync svc inputs st = (Success tt, st') ->
  exists target_repo before commit_hash after,
    commit_and_push svc target_repo before = (Success commit_hash, after)
    /\ st' = logged after [CoreSetOutput "commit_hash" commit_hash;
                          CoreInfo SyncCompleted].
Proof.
  unfold sync, and_then.
  repeat match goal with
         | |- context [match ?m ?s with (_, _) => _ end] =>
             lazymatch m with
             | commit_and_push _ _ => fail
             | _ => destruct (m s) as [[? | ?] ?]; try discriminate
             end
         end.
  destruct (commit_and_push svc _ _) as [[commit_hash | e] after] eqn:Hcp;
    [| discriminate].
  rewrite !record_run, logged_logged. intros [= <-].
  eexists _, _, commit_hash, after. split; [exact Hcp | reflexivity].
Qed.

(** The two branches on the repository of the test suite: its status with
    changes, and a blank one. *)
Lemma commit_and_push_follows_status_witness :
  let repo := {| TestEnv.repo_path := "/tmp/cross-repo-sync/target" |} in
  let fresh := {| world := TestEnv.initial_volume; trace := [] |} in
  commit_and_push (TestEnv.test_services TestEnv.test_scenario) repo fresh
  = (Success "test-rev-parse-hash",
     {| world := TestEnv.initial_volume;
        trace := [RepoStatus repo; RepoAdd repo ["."];
                  RepoCommit repo commit_message; RepoPush repo;
                  RepoRevParse repo "HEAD";
                  CoreInfo (PushedChanges "test-rev-parse-hash")] |})
  /\ commit_and_push
       (TestEnv.test_services
          {| TestEnv.inputs := TestEnv.test_inputs;
             TestEnv.remote := TestEnv.test_remote;
             TestEnv.status_text := "  ";
             TestEnv.head_hash := "test-rev-parse-hash";
             TestEnv.posix_rename := false |}) repo fresh
     = (Success EmptyString,
        {| world := TestEnv.initial_volume;
           trace := [RepoStatus repo; CoreInfo NoChangesDetected] |}).
Proof.
  intros repo fresh. split.
  - exact (proj2 (proj2 (commit_and_push_follows_status
      (TestEnv.test_services TestEnv.test_scenario) repo fresh
      (TestEnv.status_text TestEnv.test_scenario) TestEnv.initial_volume
      eq_refl)) eq_refl
      TestEnv.initial_volume TestEnv.initial_volume TestEnv.initial_volume
      TestEnv.initial_volume "test-rev-parse-hash"
      eq_refl eq_refl eq_refl eq_refl).
  - exact (proj1 (commit_and_push_follows_status
      (TestEnv.test_services
         {| TestEnv.inputs := TestEnv.test_inputs;
            TestEnv.remote := TestEnv.test_remote;
            TestEnv.status_text := "  ";
            TestEnv.head_hash := "test-rev-parse-hash";
            TestEnv.posix_rename := false |}) repo fresh
      "  " TestEnv.initial_volume eq_refl) eq_refl).
Defined.

(** ** What a run calls git with *)

Section EmitsFacts.
Context {W Repo PErr : Type} (svc : Services W Repo PErr).
Variable P : Event Repo -> Prop.

Lemma emits_succeed {A} (a : A) : emits (PErr := PErr) (W := W) P (succeed a).
Proof. intros st. exists []. simpl. now rewrite app_nil_r. Qed.

Lemma emits_record (ev : Event Repo) :
  P ev -> emits (PErr := PErr) (W := W) P (record ev).
Proof. intros Hev st. exists [ev]. simpl. now repeat constructor. Qed.

Lemma emits_call {A} (ev : Event Repo) (op : W -> Exit PErr A * W) :
  P ev -> emits P (call ev op).
Proof.
  intros Hev st. exists [ev]. unfold call.
  destruct (op (world st)) as [[a | e] w']; simpl; now repeat constructor.
Qed.

Lemma emits_and_then {A B} (m : Eff W Repo PErr A)
    (k : A -> Eff W Repo PErr B) :
  emits P m -> (forall a, emits P (k a)) -> emits P (and_then m k).
Proof.
  intros Hm Hk st. unfold and_then.
  destruct (Hm st) as (evs & Htr & Hevs).
  destruct (m st) as [[a | e] st'] eqn:E; simpl in *.
  - destruct (Hk a st') as (evs' & Htr' & Hevs').
    exists (evs ++ evs'). rewrite Htr', Htr, app_assoc.
    split; [reflexivity | now apply Forall_app_2].
  - now exists evs.
Qed.

Lemma emits_if {A} (c : bool) (m1 m2 : Eff W Repo PErr A) :
  emits P m1 -> emits P m2 -> emits P (if c then m1 else m2).
Proof. now destruct c. Qed.

Lemma emits_run {A} (m : Eff W Repo PErr A) (a : A)
    (evs : list (Event Repo)) :
  (forall st, m st = (Success a, logged st evs)) -> Forall P evs ->
  emits P m.
Proof. intros Hm Hevs st. exists evs. now rewrite Hm. Qed.

Lemma emits_move_each (paths : list (string * string))
    (source_clone_dir destination_clone_dir : string) :
  (forall path, P (FsMakeDirectory path)) ->
  (forall oldPath newPath, P (FsRename oldPath newPath)) ->
  emits P (move_each svc paths source_clone_dir destination_clone_dir).
Proof.
  intros Hmk Hmv. induction paths as [|[source destination] rest IH].
  - apply emits_succeed.
  - cbn [move_each]. apply emits_and_then; [| intros _; exact IH].
    unfold move_one.
    apply emits_and_then; [now apply emits_call | intros _].
    now apply emits_call.
Qed.

End EmitsFacts.

Lemma all_chars_append (p : ascii -> bool) (a b : string) :
  all_chars p (a +:+ b) = all_chars p a && all_chars p b.
Proof.
  induction a as [|x a IH]; [reflexivity |].
  simpl. now rewrite IH, andb_assoc.
Qed.

Lemma percent_encode_unit_chars (c : ascii) :
  all_chars is_encoded_char (percent_encode_unit c) = true.
Proof. destruct c as [[] [] [] [] [] [] [] []]; vm_compute; reflexivity. Qed.

(** [encodeURIComponent] returns unreserved characters and percent signs
    only. *)
Lemma encodeURIComponent_chars (s : string) :
  all_chars is_encoded_char (encodeURIComponent s) = true.
Proof.
  induction s as [|c s IH]; [reflexivity |].
  cbn [encodeURIComponent]. rewrite all_chars_append, IH, andb_true_r.
  destruct (is_uri_unreserved c) eqn:E.
  - unfold str1. cbn [all_chars]. unfold is_encoded_char. now rewrite E.
  - apply percent_encode_unit_chars.
Qed.

Section CredentialFacts.
Context {W Repo PErr : Type} (svc : Services W Repo PErr).

(** A call whose answer the calls after it are built from. *)
Lemma emits_call_then {A B} (ev : Event Repo) (op : W -> Exit PErr A * W)
    (k : A -> Eff W Repo PErr B) (P : Exit PErr A -> Event Repo -> Prop)
    (st : State W Repo) :
  (forall answer, P answer ev) ->
  (forall a, emits (P (Success a)) (k a)) ->
  exists evs,
    trace (snd (and_then (call ev op) k st)) = trace st ++ evs
    /\ Forall (P (fst (op (world st)))) evs.
Proof.
  intros Hev Hk. unfold and_then, call.
  destruct (op (world st)) as [[a | e] w']; cbn [fst snd trace].
  - destruct (Hk a {| world := w'; trace := trace st ++ [ev] |})
      as (evs & -> & Hevs).
    cbn [trace]. exists (ev :: evs). rewrite <- app_assoc.
    split; [reflexivity |]. constructor; [apply Hev | exact Hevs].
  - exists [ev]. split; [reflexivity |]. constructor; [apply Hev | constructor].
Qed.

Lemma commit_and_push_git_arguments
    (access_token destination source : string) (made : Exit PErr string)
    (repo : Repo) :
  emits (git_arguments_from access_token destination source made)
    (commit_and_push svc repo).
Proof.
  unfold commit_and_push.
  apply emits_and_then; [now apply emits_call | intros status].
  apply emits_if.
  - apply emits_and_then; [now apply emits_record | intros _].
    apply emits_succeed.
  - repeat (apply emits_and_then; [now apply emits_call | intros ?]).
    apply emits_and_then; [now apply emits_record | intros _].
    apply emits_succeed.
Qed.

(** The git calls of the steps past the dry-run gate, given what
    [fs.makeTempDirectory] answers in the state they start in. *)
Lemma sync_git_arguments (inputs : ActionInputs) (st : State W Repo) :
  exists evs,
    trace (snd (sync svc inputs st)) = trace st ++ evs
    /\ Forall (git_arguments_from (personal_access_token inputs)
                 (destination_repo inputs) (source_repo inputs)
                 (fst (makeTempDirectory svc (world st)))) evs.
Proof.
  unfold sync.
  apply (emits_call_then FsMakeTempDirectory (makeTempDirectory svc) _
           (git_arguments_from (personal_access_token inputs)
              (destination_repo inputs) (source_repo inputs)));
    [intros answer; exact I | intros temp_dir].
  apply emits_and_then; [now apply emits_call | intros _].
  apply emits_and_then; [now apply emits_call | intros _].
  apply emits_and_then.
  { apply emits_call. simpl. eauto 10. }
  intros _. apply emits_and_then.
  { apply emits_call. simpl. eauto 10. }
  intros _. apply emits_and_then; [now apply emits_call | intros _].
  apply emits_and_then.
  { apply emits_call. simpl. eauto. }
  intros target_repo. apply emits_and_then.
  { now apply emits_move_each. }
  intros _. apply emits_and_then.
  { apply commit_and_push_git_arguments. }
  intros commit_hash.
  apply emits_and_then; [now apply emits_record | intros _].
  now apply emits_record.
Qed.

End CredentialFacts.

(** C9: the first call of every run registers the raw token with
    [core.set_secret], before any clone. Of the arguments git is called
    with afterwards only the URL of a clone is built from the token, as
    [https://<encoded token>@github.com/<repo>.git], where the encoded token
    consists of unreserved characters and percent escapes. The directory
    of a clone and of the repository is the directory that
    [fs.makeTempDirectory] returned to this run, joined with a fixed name,
    and there is no such call when it returned none; the identity, the
    staged path, the commit message and the resolved ref are constants. *)
Theorem token_reaches_git_encoded_after_masking {W Repo PErr : Type}
    (svc : Services W Repo PErr) (w : W) :
  let access_token := get_input svc "personal_access_token" true in
  let destination := get_input svc "destination_repo" true in
  let source := get_input svc "source_repo" true in
  exists rest,
    trace (snd (run (program svc) w)) = CoreSetSecret access_token :: rest
    /\ Forall (git_arguments_from access_token destination source
                 (fst (makeTempDirectory svc w))) rest
    /\ all_chars is_encoded_char (encodeURIComponent access_token) = true.
Proof.
  intros access_token destination source. unfold run.
  destruct (parse_inputs svc {| world := w; trace := [] |})
    as [[inputs | e] parsed] eqn:Hparse.
  - rewrite (program_after_parse svc _ _ _ Hparse).
    assert (Hshape : personal_access_token inputs = access_token
                     /\ destination_repo inputs = destination
                     /\ source_repo inputs = source
                     /\ world parsed = w
                     /\ exists warnings,
                          trace parsed = CoreSetSecret access_token
                                         :: map CoreWarning warnings).
    { pose proof Hparse as H. rewrite parse_inputs_run in H. cbv zeta in H.
      repeat match type of H with
             | context [if ?c then _ else _] => destruct c
             end; try discriminate H.
      injection H as <- <-. repeat split. eexists. reflexivity. }
    destruct Hshape as (Htok & Hdst & Hsrc & Hworld & warnings & Hparsed).
    set (st := logged parsed _).
    assert (Hem : exists evs,
              trace (snd ((if dry_run inputs
                           then record (PErr := PErr) (W := W)
                                  (CoreInfo DryRunMode)
                           else sync svc inputs) st)) = trace st ++ evs
              /\ Forall (git_arguments_from access_token destination source
                           (fst (makeTempDirectory svc w))) evs).
    { destruct (dry_run inputs).
      - exists [CoreInfo DryRunMode]. split; [reflexivity |].
        repeat constructor.
      - rewrite <- Htok, <- Hdst, <- Hsrc, <- Hworld.
        exact (sync_git_arguments svc inputs st). }
    destruct Hem as (evs & -> & Hevs).
    subst st. unfold logged at 1. cbn [trace]. rewrite Hparsed.
    eexists. split; [reflexivity |].
    split; [| apply encodeURIComponent_chars].
    repeat apply Forall_app_2; try exact Hevs;
      try (apply Forall_map_all; intros; exact I).
    repeat constructor.
  - rewrite (program_parse_failure svc _ _ _ Hparse).
    apply parse_inputs_failure in Hparse as (v & warnings & -> & ->).
    exists (map CoreWarning warnings). split; [reflexivity |].
    split; [| apply encodeURIComponent_chars].
    apply Forall_map_all. intros; exact I.
Qed.

Example clone_url_of_a_token_with_special_characters :
  repo_url "p@ss w#rd" "owner/repo"
  = "https://p%40ss%20w%23rd@github.com/owner/repo.git".
Proof. reflexivity. Qed.

(** The destination half of the format check: a destination that is not of
    the shape owner/name stops the run in [parse_inputs], after the token was
    masked and before anything else. *)
Lemma malformed_destination_repo_is_refused {W Repo PErr : Type}
    (svc : Services W Repo PErr) (w : W) :
  test_repo_format (get_input svc "destination_repo" true) = false ->
  exists v,
    run (program svc) w =
    (Failure (Validation v),
     {| world := w;
        trace := [CoreSetSecret (get_input svc "personal_access_token" true)] |}).
Proof.
  intros Hformat. unfold run.
  assert (H : exists v,
    parse_inputs svc {| world := w; trace := [] |} =
    (Failure (Validation v),
     {| world := w;
        trace := [CoreSetSecret (get_input svc "personal_access_token" true)] |})).
  { rewrite parse_inputs_run. cbv zeta. rewrite Hformat.
    change (negb false) with true. cbv iota.
    repeat match goal with
           | |- context [if ?c then _ else _] => destruct c
           end; eexists; reflexivity. }
  destruct H as [v H]. exists v. now apply program_parse_failure.
Qed.

(** C6, on the code: [source_repo] is only required not to be empty. With
    [not-a-repo] as the source and everything else as in the test suite,
    the run passes [parse_inputs], clones both repositories and pushes. *)
Theorem malformed_source_repo_is_cloned :
  let svc :=
    TestEnv.test_services
      (TestEnv.test_scenario_with
         (TestEnv.inputs_of "test-personal-access-token" "test-sync-paths"
            "not-a-repo" "test-owner/test-destination-repo" EmptyString)) in
  let result := run (program svc) TestEnv.initial_volume in
  test_repo_format "not-a-repo" = false
  /\ fst result = Success tt
  /\ In (GitClone
           "https://test-personal-access-token@github.com/not-a-repo.git"
           "/tmp/cross-repo-sync/source_repo")
        (trace (snd result))
  /\ In (RepoPush {| TestEnv.repo_path := "/tmp/cross-repo-sync/target" |})
        (trace (snd result))
  /\ output_value "commit_hash" (trace (snd result)) = "test-rev-parse-hash".
Proof.
  vm_compute. repeat split; auto 40.
Qed.

(** ** Working directories *)

Section CleanupFacts.
Context {W Repo PErr : Type} (svc : Services W Repo PErr).

Lemma parse_inputs_removes_nothing : emits removes_nothing (parse_inputs svc).
Proof.
  intros st. rewrite parse_inputs_run. cbv zeta.
  assert (Hw : forall warnings : list Message,
    Forall (removes_nothing (Repo := Repo)) (map CoreWarning warnings)).
  { intros warnings. apply Forall_map_all. intros; exact I. }
  repeat match goal with
         | |- context [if ?c then _ else _] => destruct c
         end; eexists; (split; [reflexivity |]);
    (constructor; [exact I |]); first [apply Hw | constructor].
Qed.

Lemma sync_removes_nothing (inputs : Sync.ActionInputs) :
  emits removes_nothing (sync svc inputs).
Proof.
  unfold sync, configureGit, clone_repo, move_paths.
  repeat (apply emits_and_then; [now apply emits_call | intros ?]).
  apply emits_and_then; [now apply emits_move_each | intros _].
  apply emits_and_then.
  { unfold commit_and_push.
    apply emits_and_then; [now apply emits_call | intros status].
    apply emits_if.
    - apply emits_and_then; [now apply emits_record | intros _].
      apply emits_succeed.
    - repeat (apply emits_and_then; [now apply emits_call | intros ?]).
      apply emits_and_then; [now apply emits_record | intros _].
      apply emits_succeed. }
  intros commit_hash.
  apply emits_and_then; [now apply emits_record | intros _].
  now apply emits_record.
Qed.

(** No run of [program] calls [FileSystem.remove]. *)
Lemma program_removes_nothing : emits removes_nothing (program svc).
Proof.
  unfold program.
  apply emits_and_then; [apply parse_inputs_removes_nothing | intros inputs].
  apply emits_and_then.
  { eapply emits_run; [intros st; apply annotate_all_run |].
    apply Forall_map_all. intros; exact I. }
  intros _.
  apply emits_and_then; [now apply emits_record | intros _].
  apply emits_and_then; [now apply emits_record | intros _].
  apply emits_and_then.
  { eapply emits_run; [intros st; apply info_sync_paths_run |].
    apply Forall_map_all. intros; exact I. }
  intros _. apply emits_if; [now apply emits_record |].
  apply sync_removes_nothing.
Qed.

(** The earlier program of [main.ts]: when none of its steps removes the
    temporary directory itself, a run that fails has not removed it, and a
    run that succeeds ends with the output, the removal and the closing
    notice. *)
Lemma legacy_program_cleans_up_on_success_only
    (parseInputs : Eff W Repo PErr Legacy.ActionInputs)
    (configureGit : Legacy.GitConfig -> Eff W Repo PErr unit)
    (cloneRepo : Legacy.ActionInputs -> string -> Eff W Repo PErr string)
    (copyFiles : Legacy.ActionInputs -> string -> Eff W Repo PErr unit)
    (commitAndPush : string -> Eff W Repo PErr string)
    (st : State W Repo) :
  emits Legacy.keeps_tempDir parseInputs ->
  (forall config, emits Legacy.keeps_tempDir (configureGit config)) ->
  (forall inputs dir, emits Legacy.keeps_tempDir (cloneRepo inputs dir)) ->
  (forall inputs dir, emits Legacy.keeps_tempDir (copyFiles inputs dir)) ->
  (forall dir, emits Legacy.keeps_tempDir (commitAndPush dir)) ->
  match Legacy.program svc parseInputs configureGit cloneRepo copyFiles
          commitAndPush st with
  | (Failure _, st') =>
      exists evs,
        trace st' = trace st ++ evs /\ Forall Legacy.keeps_tempDir evs
  | (Success _, st') =>
      exists evs commitHash,
        trace st' =
        trace st ++ evs
        ++ [CoreSetOutput "commit_hash" commitHash;
            FsRemove Legacy.tempDir; CoreInfo SyncCompleted]
  end.
Proof.
  intros Hparse Hconfig Hclone Hcopy Hcommit.
  assert (Hsteps : emits Legacy.keeps_tempDir
    (yield inputs <- parseInputs ;
     yield _ <-
       record (CoreInfo (StartingSync (Legacy.destinationRepo inputs)
                           (Legacy.dryRun inputs))) ;
     yield _ <-
       record (CoreInfo (FoundSyncPaths (length (Legacy.syncPaths inputs)))) ;
     yield _ <- info_sync_paths (Legacy.syncPaths inputs) 0 ;
     yield _ <-
       (if Legacy.dryRun inputs then record (CoreInfo DryRunMode)
        else succeed tt) ;
     yield _ <- configureGit Legacy.gitConfig ;
     yield cloneDir <- cloneRepo inputs Legacy.tempDir ;
     yield _ <- copyFiles inputs cloneDir ;
     commitAndPush cloneDir)).
  { apply emits_and_then; [exact Hparse | intros inputs].
    apply emits_and_then; [now apply emits_record | intros _].
    apply emits_and_then; [now apply emits_record | intros _].
    apply emits_and_then.
    { eapply emits_run; [intros st0; apply info_sync_paths_run |].
      apply Forall_map_all. intros; discriminate. }
    intros _. apply emits_and_then.
    { apply emits_if; [now apply emits_record | apply emits_succeed]. }
    intros _. apply emits_and_then; [apply Hconfig | intros _].
    apply emits_and_then; [apply Hclone | intros cloneDir].
    apply emits_and_then; [apply Hcopy | intros _]. apply Hcommit. }
  destruct (Hsteps st) as (evs & Htrace & Hevs). revert Htrace.
  unfold Legacy.program, and_then.
  destruct (parseInputs st) as [[inputs | e] st1]; [| now exists evs].
  rewrite !record_run, info_sync_paths_run.
  destruct (if Legacy.dryRun inputs then _ else _) as [[[] | e] st2];
    [| now exists evs].
  destruct (configureGit _ st2) as [[[] | e] st3]; [| now exists evs].
  destruct (cloneRepo _ _ st3) as [[cloneDir | e] st4]; [| now exists evs].
  destruct (copyFiles _ _ st4) as [[[] | e] st5]; [| now exists evs].
  destruct (commitAndPush _ st5) as [[commitHash | e] st6]; [| now exists evs].
  unfold Legacy.ignore, call, record. cbn [trace world].
  destruct (fs_remove svc Legacy.tempDir (world st6)) as [[[] | e] w'];
    cbn [snd trace]; intros Htrace; exists evs, commitHash;
    rewrite Htrace, <- !app_assoc; reflexivity.
Qed.

End CleanupFacts.

(** C8, on the code: [program] makes its working directories under the
    directory [makeTempDirectory] returns, and no run of it, whatever the
    services do, calls [FileSystem.remove]. When the clones fail the run
    fails and the directory, with the target directory inside, is still in
    the volume; after the successful run of the test suite the directory
    holds the rest of both clones and the merged tree. *)
Theorem temporary_directory_is_left_behind :
  let failed :=
    run (program (TestEnv.test_services TestEnv.unreachable_scenario))
      TestEnv.initial_volume in
  let passed :=
    run (program (TestEnv.test_services TestEnv.test_scenario))
      TestEnv.initial_volume in
  (forall (W Repo PErr : Type) (svc : Services W Repo PErr) (w : W),
     Forall removes_nothing (trace (snd (run (program svc) w))))
  /\ fst failed = Failure (Platform TestEnv.GitCommandFailed)
  /\ In FsMakeTempDirectory (trace (snd failed))
  /\ MemFs.get (MemFs.steps TestEnv.temp_dir) (world (snd failed))
     = Some (MemFs.Dir {[ "target" := MemFs.empty_dir ]})
  /\ fst passed = Success tt
  /\ MemFs.get (MemFs.steps "/tmp/cross-repo-sync/target/.git/HEAD")
       (world (snd passed))
     = Some (MemFs.File "test-HEAD")
  /\ MemFs.get (MemFs.steps "/tmp/cross-repo-sync/source_repo/.git/HEAD")
       (world (snd passed))
     = Some (MemFs.File "test-HEAD")
  /\ MemFs.get
       (MemFs.steps "/tmp/cross-repo-sync/destination_repo/test-sync-paths/test-file")
       (world (snd passed))
     = Some (MemFs.File
         ("test-file from https://test-personal-access-token@github.com/"
          +:+ "test-owner/test-destination-repo.git")).
Proof.
  split.
  - intros W Repo PErr svc w. unfold run.
    destruct (program_removes_nothing svc {| world := w; trace := [] |})
      as (evs & -> & Hevs). exact Hevs.
  - vm_compute. repeat split; auto 40.
Qed.

(** ** The volume *)

Section VolumeFacts.
Import MemFs.

Lemma not_prefix_cons (s : string) (p q : list string) :
  ~ (s :: p) `prefix_of` (s :: q) -> ~ p `prefix_of` q.
Proof. intros H Hp. apply H. now apply prefix_cons. Qed.

Lemma get_cons (s : string) (p : list string) (es : gmap string node) :
  get (s :: p) (Dir es)
  = match es !! s with
    | Some c => get p c
    | None => None
    end.
Proof. reflexivity. Qed.

Lemma put_single (s : string) (new : node) (es : gmap string node) :
  put [s] new (Dir es) = Some (Dir (<[s := new]> es)).
Proof. reflexivity. Qed.

Lemma put_deeper (s t : string) (p : list string) (new : node)
    (es : gmap string node) :
  put (s :: t :: p) new (Dir es)
  = match es !! s with
    | Some c =>
        match put (t :: p) new c with
        | Some c' => Some (Dir (<[s := c']> es))
        | None => None
        end
    | None => None
    end.
Proof. reflexivity. Qed.

Lemma del_single (s : string) (es : gmap string node) :
  del [s] (Dir es) = Dir (delete s es).
Proof. reflexivity. Qed.

Lemma del_deeper (s t : string) (p : list string) (es : gmap string node) :
  del (s :: t :: p) (Dir es)
  = match es !! s with
    | Some c => Dir (<[s := del (t :: p) c]> es)
    | None => Dir es
    end.
Proof. reflexivity. Qed.

Lemma mkdirp_cons (s : string) (p : list string) (es : gmap string node) :
  mkdirp (s :: p) (Dir es)
  = match mkdirp p (default empty_dir (es !! s)) with
    | Some c' => Some (Dir (<[s := c']> es))
    | None => None
    end.
Proof. reflexivity. Qed.

(** What was put at a location is found there. *)
Lemma get_put (p : list string) (new n n' : node) :
  put p new n = Some n' -> get p n' = Some new.
Proof.
  revert n n'. induction p as [|s p IH]; intros n n'; [discriminate |].
  destruct n as [|es]; [discriminate |].
  destruct p as [|t p].
  - rewrite put_single. intros [= <-].
    now rewrite get_cons, lookup_insert_eq.
  - rewrite put_deeper.
    destruct (es !! s) as [c|] eqn:Es; [| discriminate].
    destruct (put (t :: p) new c) as [c'|] eqn:Ec; [| discriminate].
    intros [= <-]. rewrite get_cons, lookup_insert_eq. now apply (IH c).
Qed.

(** Putting at a location leaves every unrelated location as it was. *)
Lemma get_put_unrelated (p q : list string) (new n n' : node) :
  put p new n = Some n' -> unrelated p q -> get q n' = get q n.
Proof.
  revert q n n'. induction p as [|s p IH]; intros q n n'; [discriminate |].
  intros Hput [Hpq Hqp].
  destruct q as [|t q]; [exfalso; apply Hqp, prefix_nil |].
  destruct n as [|es]; [discriminate |].
  destruct (decide (s = t)) as [<- | Hne].
  - destruct p as [|u p]; [exfalso; apply Hpq, prefix_cons, prefix_nil |].
    rewrite put_deeper in Hput.
    destruct (es !! s) as [c|] eqn:Es; [| discriminate].
    destruct (put (u :: p) new c) as [c'|] eqn:Ec; [| discriminate].
    injection Hput as <-. rewrite !get_cons, lookup_insert_eq, Es.
    apply (IH q c c' Ec). split; eapply not_prefix_cons; eassumption.
  - assert (exists c', n' = Dir (<[s := c']> es)) as [c' ->].
    { destruct p as [|u p].
      - rewrite put_single in Hput. injection Hput as <-. eauto.
      - rewrite put_deeper in Hput.
        destruct (es !! s); [| discriminate].
        destruct (put _ _ _); [| discriminate].
        injection Hput as <-. eauto. }
    rewrite !get_cons. now rewrite lookup_insert_ne.
Qed.

(** Unlinking a location leaves every unrelated location as it was. *)
Lemma get_del_unrelated (p q : list string) (n : node) :
  unrelated p q -> get q (del p n) = get q n.
Proof.
  revert q n. induction p as [|s p IH]; intros q n [Hpq Hqp];
    [reflexivity |].
  destruct q as [|t q]; [exfalso; apply Hqp, prefix_nil |].
  destruct n as [|es]; [reflexivity |].
  destruct (decide (s = t)) as [<- | Hne].
  - destruct p as [|u p]; [exfalso; apply Hpq, prefix_cons, prefix_nil |].
    rewrite del_deeper. destruct (es !! s) as [c|] eqn:Es.
    + rewrite !get_cons, lookup_insert_eq, Es. apply IH.
      split; eapply not_prefix_cons; eassumption.
    + reflexivity.
  - destruct p as [|u p].
    + rewrite del_single, !get_cons. now rewrite lookup_delete_ne.
    + rewrite del_deeper. destruct (es !! s); [| reflexivity].
      rewrite !get_cons. now rewrite lookup_insert_ne.
Qed.

(** A recursive mkdir changes nothing at a location that is not on the
    way to the directory. *)
Lemma get_mkdirp (p q : list string) (n n' : node) :
  mkdirp p n = Some n' -> ~ q `prefix_of` p -> get q n' = get q n.
Proof.
  revert q n n'. induction p as [|s p IH]; intros q n n' Hmk Hqp.
  - destruct n; [discriminate |]. now injection Hmk as <-.
  - destruct n as [|es]; [discriminate |]. rewrite mkdirp_cons in Hmk.
    destruct (mkdirp p (default empty_dir (es !! s))) as [c'|] eqn:Ec;
      [| discriminate].
    injection Hmk as <-.
    destruct q as [|t q]; [exfalso; apply Hqp, prefix_nil |].
    destruct (decide (s = t)) as [<- | Hne].
    + rewrite !get_cons, lookup_insert_eq.
      rewrite (IH q _ _ Ec) by (eapply not_prefix_cons; eassumption).
      destruct (es !! s); [reflexivity |].
      destruct q as [|u q]; [| reflexivity].
      exfalso. apply Hqp, prefix_cons, prefix_nil.
    + rewrite !get_cons. now rewrite lookup_insert_ne.
Qed.

(** A rename moves what is at the old path to the new path, in place of
    whatever the new path held, and leaves unrelated locations alone. *)
Lemma rename_moves (posix : bool) (src dst : list string)
    (root root' : node) :
  rename posix src dst root = inr root' ->
  get dst root' = get src root
  /\ is_Some (get src root)
  /\ forall q, unrelated src q -> unrelated dst q ->
       get q root' = get q root.
Proof.
  unfold rename.
  destruct (get src root) as [moved|] eqn:Esrc; [| discriminate].
  destruct (if posix then posix_refuses src dst moved root else None);
    [discriminate |].
  destruct (put dst moved (del src root)) as [r|] eqn:Eput; [| discriminate].
  intros [= <-]. split; [now apply (get_put _ _ _ _ Eput) |].
  split; [eauto |].
  intros q Hsq Hdq.
  rewrite (get_put_unrelated _ _ _ _ _ Eput Hdq).
  now apply get_del_unrelated.
Qed.

End VolumeFacts.

(** ** The composer *)

Section ComposerFacts.
Import MemFs TestEnv.

(** The loop of [move_paths] takes its turns one after the other. *)
Lemma move_each_cons {W Repo PErr : Type} (svc : Services W Repo PErr)
    (source destination : string) (rest : list (string * string))
    (source_clone_dir destination_clone_dir : string) (st : State W Repo) :
  move_each svc ((source, destination) :: rest)
    source_clone_dir destination_clone_dir st
  = (yield _ <-
       move_one svc source destination source_clone_dir
         destination_clone_dir ;
     move_each svc rest source_clone_dir destination_clone_dir) st.
Proof. reflexivity. Qed.

(** One turn on the volume. *)
Lemma move_one_volume (sc : Scenario)
    (source destination source_clone_dir destination_clone_dir : string)
    (st st' : State node TestGitRepo) :
  let source_path := PosixPath.path_join source_clone_dir source in
  let destination_path :=
    PosixPath.path_join destination_clone_dir destination in
  let dir := PosixPath.dirname destination_path in
  move_one (test_services sc) source destination source_clone_dir
    destination_clone_dir st
  = (Success tt, st') ->
  exists made,
    mkdirp (steps dir) (world st) = Some made
    /\ rename (posix_rename sc) (steps source_path) (steps destination_path)
         made
       = inr (world st')
    /\ trace st' =
       trace st ++ [FsMakeDirectory dir; FsRename source_path destination_path].
Proof.
  intros source_path destination_path dir.
  unfold move_one. fold source_path destination_path dir.
  unfold and_then, call. simpl.
  unfold test_makeDirectory, test_rename, of_option.
  destruct (mkdirp (steps dir) (world st)) as [made|]; [| discriminate].
  simpl. destruct (rename _ _ _ made) as [e | vol'] eqn:Erename;
    [discriminate |].
  intros [= <-]. exists made. simpl. now rewrite <- app_assoc.
Qed.

End ComposerFacts.

(** C2, as stated, fails for source paths that lie inside one another. With
    the mappings [d -> x] and [d/f -> x] the file [d/f] has left the source
    clone together with [d] when its turn comes: the second rename fails,
    composition stops, and [x] holds the directory, not the file. With
    [d/f -> x] and [d -> x] composition succeeds, on the volume of the test
    suite, and [x] holds [d] without the file that was moved first. *)
Lemma nested_source_paths_break_later_wins :
  let src := "/tmp/cross-repo-sync/source_repo" in
  let tgt := "/tmp/cross-repo-sync/target" in
  let at_x vol :=
    MemFs.get (MemFs.steps (PosixPath.path_join tgt "x")) vol in
  let in_source path :=
    MemFs.get (MemFs.steps (PosixPath.path_join src path))
      TestEnv.nested_volume in
  let compose posix paths :=
    run (move_paths
           (TestEnv.test_services (TestEnv.scenario_with_rename posix))
           (TestEnv.inputs_with paths) src tgt)
      TestEnv.nested_volume in
  in_source "d" = Some TestEnv.nested_source
  /\ in_source "d/f" = Some (MemFs.File "1")
  /\ in_source "d" <> in_source "d/f"
  /\ (forall posix,
        fst (compose posix [("d", "x"); ("d/f", "x")])
        = Failure (Platform (TestEnv.FsFailure MemFs.ENOENT))
        /\ at_x (world (snd (compose posix [("d", "x"); ("d/f", "x")])))
           = Some TestEnv.nested_source
        /\ at_x (world (snd (compose posix [("d", "x"); ("d/f", "x")])))
           <> in_source "d/f")
  /\ fst (compose false [("d/f", "x"); ("d", "x")]) = Success tt
  /\ at_x (world (snd (compose false [("d/f", "x"); ("d", "x")])))
     = Some (MemFs.Dir {[ "g" := MemFs.File "2" ]})
  /\ at_x (world (snd (compose false [("d/f", "x"); ("d", "x")])))
     <> in_source "d".
Proof.
  cbv zeta.
  split; [vm_compute; reflexivity |].
  split; [vm_compute; reflexivity |].
  split; [vm_compute; discriminate |].
  split.
  - intros []; (split; [vm_compute; reflexivity |]);
      (split; [vm_compute; reflexivity | vm_compute; discriminate]).
  - split; [vm_compute; reflexivity |].
    split; [vm_compute; reflexivity |].
    vm_compute. intros H. discriminate H.
Qed.

(** C2, amended: for mappings [a -> x] and [b -> x] such that source path
    [b] neither contains nor lies inside source path [a] or the destination,
    whenever both relocations succeed the destination holds what source
    path [b] held before composition: the mappings are applied in list order,
    each by a recursive mkdir of the parent and a rename, and the second
    rename replaces what the first one put at [x]. This holds with the
    rename of the in-memory volume and with the checks of rename(2). *)
Theorem later_mapping_wins (sc : TestEnv.Scenario) (vol : MemFs.node)
    (source_clone_dir destination_clone_dir a b x : string)
    (inputs : ActionInputs)
    (st' : State MemFs.node TestEnv.TestGitRepo) :
  let pa := MemFs.steps (PosixPath.path_join source_clone_dir a) in
  let pb := MemFs.steps (PosixPath.path_join source_clone_dir b) in
  let px := MemFs.steps (PosixPath.path_join destination_clone_dir x) in
  let dir :=
    PosixPath.dirname (PosixPath.path_join destination_clone_dir x) in
  sync_paths inputs = [(a, x); (b, x)] ->
  MemFs.unrelated pa pb ->
  MemFs.unrelated px pb ->
  ~ pb `prefix_of` MemFs.steps dir ->
  run (move_paths (TestEnv.test_services sc) inputs
         source_clone_dir destination_clone_dir) vol
  = (Success tt, st') ->
  MemFs.get px (world st') = MemFs.get pb vol
  /\ is_Some (MemFs.get pb vol)
  /\ trace st' =
     [FsMakeDirectory dir;
      FsRename (PosixPath.path_join source_clone_dir a)
        (PosixPath.path_join destination_clone_dir x);
      FsMakeDirectory dir;
      FsRename (PosixPath.path_join source_clone_dir b)
        (PosixPath.path_join destination_clone_dir x)].
Proof.
  intros pa pb px dir Hpaths Hab Hxb Hdir.
  unfold run, move_paths. rewrite Hpaths.
  rewrite move_each_cons. unfold and_then at 1.
  destruct (move_one _ a x _ _ _) as [[[] | e] st1] eqn:Hfirst;
    [| discriminate].
  rewrite move_each_cons. unfold and_then at 1.
  destruct (move_one _ b x _ _ _) as [[[] | e] st2] eqn:Hsecond;
    [| discriminate].
  intros [= <-].
  apply move_one_volume in Hfirst as (made1 & Hmk1 & Hmv1 & Htr1).
  apply move_one_volume in Hsecond as (made2 & Hmk2 & Hmv2 & Htr2).
  apply rename_moves in Hmv1 as (_ & _ & Hkeep1).
  apply rename_moves in Hmv2 as (Hdst & Hsome & _).
  fold px in Hdst. fold pb in Hdst, Hsome. fold dir in Hmk1, Hmk2.
  assert (Hb : MemFs.get pb made2 = MemFs.get pb vol).
  { rewrite (get_mkdirp _ _ _ _ Hmk2 Hdir).
    rewrite (Hkeep1 pb Hab Hxb).
    apply (get_mkdirp _ _ _ _ Hmk1 Hdir). }
  rewrite Hb in Hdst, Hsome. split; [exact Hdst |]. split; [exact Hsome |].
  rewrite Htr2, Htr1. reflexivity.
Qed.

(** Two files of the source clone mapped to the same destination: the
    second one is what the destination holds. *)
Lemma later_mapping_wins_witness :
  MemFs.get (MemFs.steps "/tmp/cross-repo-sync/target/x")
    (world (snd
       (run (move_paths (TestEnv.test_services (TestEnv.scenario_with_rename true))
               (TestEnv.inputs_with [("d/f", "x"); ("d/g", "x")])
               "/tmp/cross-repo-sync/source_repo"
               "/tmp/cross-repo-sync/target")
          TestEnv.nested_volume)))
  = Some (MemFs.File "2").
Proof.
  refine (proj1 (later_mapping_wins (TestEnv.scenario_with_rename true)
    TestEnv.nested_volume
    "/tmp/cross-repo-sync/source_repo" "/tmp/cross-repo-sync/target"
    "d/f" "d/g" "x" (TestEnv.inputs_with [("d/f", "x"); ("d/g", "x")])
    _ eq_refl _ _ _ _)).
  - split; apply (bool_decide_unpack _); vm_compute; reflexivity.
  - split; apply (bool_decide_unpack _); vm_compute; reflexivity.
  - apply (bool_decide_unpack _); vm_compute; reflexivity.
  - vm_compute. reflexivity.
Defined.

(** ** The run of the test suite

    [program] on the services of its test: it succeeds, the
    merged tree has the history of the destination and the mapped path of
    the source, and the output is the hash of the test repository. *)
Example test_suite_run :
  let result :=
    run (program (TestEnv.test_services TestEnv.test_scenario))
      TestEnv.initial_volume in
  fst result = Success tt
  /\ output_value "commit_hash" (trace (snd result)) = "test-rev-parse-hash"
  /\ MemFs.get (MemFs.steps "/tmp/cross-repo-sync/target") (world (snd result))
     = Some (MemFs.Dir
         {[ ".git" :=
              MemFs.Dir
                {[ "config" :=
                     MemFs.File
                       ("origin: https://test-personal-access-token@github.com/"
                        +:+ "test-owner/test-destination-repo.git");
                   "HEAD" := MemFs.File "test-HEAD" ]};
            "test-sync-paths" :=
              MemFs.Dir
                {[ "test-file" :=
                     MemFs.File
                       ("test-file from https://test-personal-access-token@github.com/"
                        +:+ "test-owner/test-source-repo.git") ]} ]}).
Proof. vm_compute. repeat split. Qed.

(** * Further properties *)

Import Notions Plan Composer.

(** ** More on strings *)

Lemma is_empty_false (s : string) : is_empty s = false <-> s <> EmptyString.
Proof. destruct s; cbn; split; congruence. Qed.


Section MoreStringFacts.

Lemma indexOf_cons (c d : ascii) (s : string) :
  indexOf c (String d s)
  = if Ascii.eqb d c then Some 0
    else match indexOf c s with
         | Some i => Some (S i)
         | None => None
         end.
Proof. reflexivity. Qed.

Lemma indexOf_cons_none (c d : ascii) (s : string) :
  indexOf c (String d s) = None <-> Ascii.eqb d c = false /\ indexOf c s = None.
Proof.
  rewrite indexOf_cons. destruct (Ascii.eqb d c).
  - split; [discriminate | intros [? _]; discriminate].
  - destruct (indexOf c s); split; try discriminate; auto.
    intros [_ ?]; discriminate.
Qed.

Lemma indexOf_trim_end (c : ascii) (s : string) :
  indexOf c s = None -> indexOf c (trim_end s) = None.
Proof.
  induction s as [| d s IH]; [reflexivity |].
  intros [Hd Hs]%indexOf_cons_none.
  cbn [trim_end].
  destruct (is_space d && is_empty (trim_end s)); [reflexivity |].
  apply indexOf_cons_none. auto.
Qed.

Lemma indexOf_trim (c : ascii) (s : string) :
  indexOf c s = None -> indexOf c (trim s) = None.
Proof. intros H. now apply indexOf_trim_end, indexOf_trim_start. Qed.

Lemma trim_start_spaces (pre s : string) :
  all_chars is_space pre = true -> trim_start (pre +:+ s) = trim_start s.
Proof.
  induction pre as [| c pre IH]; [reflexivity |].
  cbn [all_chars]. intros [Hc Hpre]%andb_prop.
  cbn [String.append trim_start]. rewrite Hc. auto.
Qed.

Lemma trim_end_spaces (s post : string) :
  all_chars is_space post = true -> trim_end (s +:+ post) = trim_end s.
Proof.
  intros Hpost. induction s as [| c s IH].
  - cbn [String.append]. induction post as [| c post IH]; [reflexivity |].
    cbn [all_chars] in Hpost. apply andb_prop in Hpost as [Hc Hpost].
    cbn [trim_end]. rewrite (IH Hpost), Hc. reflexivity.
  - cbn [String.append trim_end]. now rewrite IH.
Qed.

Lemma trim_spaces (pre s post : string) :
  all_chars is_space pre = true -> all_chars is_space post = true ->
  trim (pre +:+ s +:+ post) = trim s.
Proof.
  intros Hpre Hpost. unfold trim.
  rewrite trim_start_spaces by exact Hpre.
  rewrite <- !trim_start_end_comm.
  now rewrite trim_end_spaces.
Qed.

Lemma last_char_snoc (s : string) (c : ascii) :
  last_char (s +:+ str1 c) = Some c.
Proof.
  induction s as [| d s IH]; [reflexivity |].
  cbn [String.append]. destruct s; [reflexivity |].
  exact IH.
Qed.

Lemma drop_last_snoc (s : string) (c : ascii) :
  drop_last (s +:+ str1 c) = s.
Proof.
  induction s as [| d s IH]; [reflexivity |].
  cbn [String.append]. destruct s as [| e s]; [reflexivity |].
  cbn [String.append] in *. cbn [drop_last]. f_equal. exact IH.
Qed.

Lemma strip_quotes_quoted (s : string) :
  no_line_terminator s = true -> strip_quotes (quoted s) = s.
Proof.
  intros Hs. unfold strip_quotes, quoted.
  rewrite Ascii.eqb_refl, last_char_snoc, drop_last_snoc, Ascii.eqb_refl.
  unfold no_line_terminator in Hs. now rewrite Hs.
Qed.

Lemma trim_quoted (s : string) : trim (quoted s) = quoted s.
Proof.
  unfold trim, quoted.
  change (trim_start (String quote (s +:+ str1 quote)))
    with (String quote (s +:+ str1 quote)).
  change (String quote (s +:+ str1 quote))
    with (EmptyString +:+ String quote (s +:+ str1 quote)).
  rewrite trim_end_sep by reflexivity.
  cbn [String.append]. f_equal. unfold str1.
  rewrite trim_end_sep by reflexivity. reflexivity.
Qed.

Lemma indexOf_append_none (c : ascii) (a b : string) :
  indexOf c a = None -> indexOf c b = None -> indexOf c (a +:+ b) = None.
Proof.
  intros Ha Hb. induction a as [| d a IH]; [exact Hb |].
  apply indexOf_cons_none in Ha as [Hd Ha].
  cbn [String.append]. apply indexOf_cons_none. auto.
Qed.

Lemma indexOf_quoted (c : ascii) (s : string) :
  Ascii.eqb quote c = false -> indexOf c s = None ->
  indexOf c (quoted s) = None.
Proof.
  intros Hq Hs. unfold quoted. apply indexOf_cons_none. split; [exact Hq |].
  apply indexOf_append_none; [exact Hs |].
  apply indexOf_cons_none. auto.
Qed.

End MoreStringFacts.

Lemma parse_line_no_separator (A : string) :
  indexOf colon A = None -> is_empty (trim A) = false ->
  parse_line A
  = if unsafe_path (strip_quotes (trim A))
    then Skipped (UnsafePathSkipped (strip_quotes (trim A)))
    else Mapping (strip_quotes (trim A)) (strip_quotes (trim A)).
Proof.
  intros HA Hne. unfold parse_line. rewrite Hne.
  now rewrite (indexOf_trim _ _ HA).
Qed.

(** ** Lines of [sync_paths] *)

(** X1: a line without the separator that is not blank names one path,
    which is source and destination at once: when the path, trimmed and
    unquoted, passes the path-safety test, the line yields the pair of the
    path with itself, exactly what the line [A:A] yields, and no
    warning. *)
Theorem line_without_separator_maps_a_path_to_itself {W Repo PErr : Type}
    (A : string) (st : State W Repo) :
  indexOf colon A = None ->
  is_empty (trim A) = false ->
  unsafe_path (strip_quotes (trim A)) = false ->
  parse_line A = Mapping (strip_quotes (trim A)) (strip_quotes (trim A))
  /\ parse_line (A +:+ String colon A) = parse_line A
  /\ parse_sync_paths (PErr := PErr) [A] [] st
     = (Success [(strip_quotes (trim A), strip_quotes (trim A))], st).
Proof.
  intros HA Hne Hsafe.
  assert (Hline : parse_line A
                  = Mapping (strip_quotes (trim A)) (strip_quotes (trim A))).
  { rewrite parse_line_no_separator by assumption. now rewrite Hsafe. }
  split; [exact Hline |]. split.
  - rewrite Hline, parse_line_colon by exact HA.
    cbv zeta. now rewrite Hsafe.
  - rewrite parse_sync_paths_run. unfold mappings_of, warnings_of.
    cbn [flat_map]. rewrite Hline. cbn [app map]. now rewrite logged_nil.
Qed.

(** A path with white space around it. *)
Lemma line_without_separator_maps_a_path_to_itself_witness :
  parse_line " docs/guide.md " = Mapping "docs/guide.md" "docs/guide.md".
Proof.
  refine (proj1 (line_without_separator_maps_a_path_to_itself
    (W := unit) (Repo := unit) (PErr := unit) " docs/guide.md "
    {| world := tt; trace := [] |} _ _ _)); reflexivity.
Defined.

(** X2: a pair of double quotes around a side is dropped and what stands
    between the quotes is taken as it is, white space included; the
    path-safety test is made on the unquoted sides, so quotes do not hide
    an unsafe side. This needs the quoted text to have no line terminator
    in it (a carriage return, since the input is split at line feeds), and
    the source side to have no separator: quotes do not protect a colon. *)
Theorem quoted_sides_lose_their_quotes (A B : string) :
  indexOf colon A = None ->
  no_line_terminator A = true ->
  no_line_terminator B = true ->
  parse_line (quoted A +:+ String colon (quoted B))
  = if unsafe_path A || unsafe_path B
    then Skipped (UnsafeMappingSkipped A B)
    else Mapping A B.
Proof.
  intros HA HtA HtB.
  rewrite parse_line_colon by (apply indexOf_quoted; [reflexivity | exact HA]).
  cbv zeta. rewrite !trim_quoted, !strip_quotes_quoted by assumption.
  reflexivity.
Qed.

(** Sides with spaces in them. *)
Lemma quoted_sides_lose_their_quotes_witness :
  parse_line (quoted " my docs " +:+ String colon (quoted "site/my docs"))
  = Mapping " my docs " "site/my docs".
Proof.
  exact (quoted_sides_lose_their_quotes " my docs " "site/my docs"
           eq_refl eq_refl eq_refl).
Defined.

(** X3: white space before and after a line, indentation as well as the
    carriage return of a line that ends in CR LF, changes nothing about
    what the line yields. *)
Theorem white_space_around_a_line_is_ignored (pre line post : string) :
  all_chars is_space pre = true ->
  all_chars is_space post = true ->
  parse_line (pre +:+ line +:+ post) = parse_line line.
Proof.
  intros Hpre Hpost. unfold parse_line.
  now rewrite trim_spaces.
Qed.

(** An indented line that ends in a carriage return. *)
Lemma white_space_around_a_line_is_ignored_witness :
  parse_line ("  " +:+ "docs:content" +:+ str1 carriage_return)
  = parse_line "docs:content".
Proof.
  apply (white_space_around_a_line_is_ignored "  " "docs:content"
           (str1 carriage_return)); reflexivity.
Defined.

(** ** The repository format and the clone URL *)

Section RepoFormatFacts.

Lemma join_split (c : ascii) (s : string) : join c (split c s) = s.
Proof.
  induction s as [| d s IH]; [reflexivity |].
  rewrite split_cons. destruct (Ascii.eqb d c) eqn:E.
  - apply Ascii.eqb_eq in E as ->.
    destruct (split c s) as [| w ws] eqn:Hs; [now apply split_nonempty in Hs |].
    rewrite join_cons. cbn [String.append]. now rewrite IH.
  - destruct (split c s) as [| w ws] eqn:Hs; [now apply split_nonempty in Hs |].
    destruct ws as [| w' ws].
    + cbn [join] in *. now rewrite IH.
    + rewrite join_cons in *. cbn [String.append]. now rewrite IH.
Qed.

Lemma all_chars_indexOf (p : ascii -> bool) (c : ascii) (s : string) :
  p c = false -> all_chars p s = true -> indexOf c s = None.
Proof.
  intros Hc. induction s as [| d s IH]; [reflexivity |].
  cbn [all_chars]. intros [Hd Hs]%andb_prop.
  apply indexOf_cons_none. split; [| auto].
  destruct (Ascii.eqb d c) eqn:E; [| reflexivity].
  apply Ascii.eqb_eq in E as ->. congruence.
Qed.

End RepoFormatFacts.

(** X4: the format test of [parse_inputs] accepts exactly the strings
    [owner/name] in which owner and name are not empty and made of
    letters, digits, dots, underscores and hyphens: one slash, no scheme,
    no host, no white space. *)
Theorem repo_format_is_owner_slash_name (s : string) :
  test_repo_format s = true
  <-> exists owner name,
        s = owner +:+ String slash name
        /\ owner <> EmptyString /\ name <> EmptyString
        /\ all_chars is_repo_char owner = true
        /\ all_chars is_repo_char name = true.
Proof.
  unfold test_repo_format. split.
  - destruct (split slash s) as [| owner [| name [| ? ?]]] eqn:Hs;
      try discriminate.
    intros H. apply andb_prop in H as [H Hname].
    apply andb_prop in H as [H Hne]. apply andb_prop in H as [Hoe Howner].
    exists owner, name. repeat split; try assumption.
    + rewrite <- (join_split slash s), Hs. reflexivity.
    + apply is_empty_false. now destruct (is_empty owner).
    + apply is_empty_false. now destruct (is_empty name).
  - intros (owner & name & -> & Hoe & Hne & Howner & Hname).
    rewrite split_append.
    rewrite (split_no_separator slash owner)
      by (now apply (all_chars_indexOf is_repo_char)).
    rewrite (split_no_separator slash name)
      by (now apply (all_chars_indexOf is_repo_char)).
    cbn [app]. apply is_empty_false in Hoe, Hne.
    now rewrite Hoe, Hne, Howner, Hname.
Qed.

Section UrlFacts.

Lemma is_encoded_char_not_delimiter (c : ascii) :
  In c url_delimiters -> is_encoded_char c = false.
Proof.
  intros H. repeat (destruct H as [<- | H]; [reflexivity |]). destruct H.
Qed.

Lemma indexOf_append_skip (c : ascii) (a b : string) (i : nat) :
  indexOf c a = None -> indexOf c b = Some i ->
  indexOf c (a +:+ b) = Some (String.length a + i).
Proof.
  intros Ha Hb. induction a as [| d a IH]; [exact Hb |].
  apply indexOf_cons_none in Ha as [Hd Ha].
  cbn [String.append]. rewrite indexOf_cons, Hd, (IH Ha). reflexivity.
Qed.

End UrlFacts.

(** X5: whatever the token, the user information of the clone URL has
    none of the characters that end a part of a URL in it: the first at
    sign of what follows the scheme is the one [clone_repo] wrote and the
    first slash is the one after [github.com], so the token cannot change
    the host the clone goes to. *)
Theorem token_cannot_redirect_the_clone (access_token repo : string) :
  let userinfo := encodeURIComponent access_token in
  repo_url access_token repo
  = "https://" +:+ userinfo +:+ String at_sign ("github.com/" +:+ repo +:+ ".git")
  /\ Forall (fun c => indexOf c userinfo = None) url_delimiters
  /\ indexOf at_sign (userinfo +:+ String at_sign ("github.com/" +:+ repo +:+ ".git"))
     = Some (String.length userinfo)
  /\ indexOf slash (userinfo +:+ String at_sign ("github.com/" +:+ repo +:+ ".git"))
     = Some (String.length userinfo + 11).
Proof.
  intros userinfo.
  assert (Hfree : forall c, In c url_delimiters -> indexOf c userinfo = None).
  { intros c Hc. apply (all_chars_indexOf is_encoded_char).
    - now apply is_encoded_char_not_delimiter.
    - apply encodeURIComponent_chars. }
  split; [reflexivity |]. split.
  - unfold url_delimiters.
    repeat (constructor; [apply Hfree; cbn; tauto |]). constructor.
  - split.
    + apply indexOf_sep, Hfree. cbn; tauto.
    + apply indexOf_append_skip; [apply Hfree; cbn; tauto | reflexivity].
Qed.

(** ** What [parse_inputs] accepts *)

Section BlankFacts.

Lemma trim_end_empty_spaces (s : string) :
  is_empty (trim_end s) = true -> all_chars is_space s = true.
Proof.
  induction s as [| c s IH]; [reflexivity |].
  cbn [trim_end all_chars].
  destruct (is_space c); cbn [andb]; [| discriminate].
  destruct (is_empty (trim_end s)); [auto | discriminate].
Qed.

Lemma trim_start_spaces_inv (s : string) :
  all_chars is_space (trim_start s) = true -> all_chars is_space s = true.
Proof.
  induction s as [| c s IH]; [reflexivity |].
  cbn [trim_start all_chars]. destruct (is_space c) eqn:E; [auto |].
  cbn [all_chars]. now rewrite E.
Qed.

Lemma trim_empty_spaces (s : string) :
  is_empty (trim s) = true -> all_chars is_space s = true.
Proof. intros H. now apply trim_start_spaces_inv, trim_end_empty_spaces. Qed.

Lemma spaces_trim_empty (s : string) :
  all_chars is_space s = true -> trim s = EmptyString.
Proof.
  intros H. unfold trim.
  replace (trim_start s) with EmptyString; [reflexivity |].
  induction s as [| c s IH]; [reflexivity |].
  cbn [all_chars] in H. apply andb_prop in H as [Hc Hs].
  cbn [trim_start]. rewrite Hc. auto.
Qed.

Lemma all_chars_split (p : ascii -> bool) (c : ascii) (s : string) :
  all_chars p s = true ->
  Forall (fun line => all_chars p line = true) (split c s).
Proof.
  induction s as [| d s IH]; [repeat constructor |].
  cbn [all_chars]. intros [Hd Hs]%andb_prop. specialize (IH Hs).
  rewrite split_cons. destruct (Ascii.eqb d c).
  - constructor; [reflexivity | exact IH].
  - destruct (split c s) as [| w ws].
    + repeat constructor. cbn. now rewrite Hd.
    + inversion IH; subst. constructor; [| assumption].
      cbn [all_chars]. now rewrite Hd.
Qed.

Lemma blank_input_has_no_mapping (s : string) :
  is_empty (trim s) = true -> mappings_of (split newline s) = [].
Proof.
  intros H. apply mappings_of_nil.
  eapply Forall_impl; [apply all_chars_split, trim_empty_spaces, H |].
  intros line Hline. left. unfold parse_line.
  now rewrite (spaces_trim_empty _ Hline).
Qed.

Lemma mappings_of_safe (lines : list string) :
  Forall safe_mapping (mappings_of lines).
Proof.
  induction lines as [| line lines IH]; [constructor |].
  unfold mappings_of in *. cbn [flat_map].
  destruct (parse_line line) eqn:E; cbn [app]; try exact IH.
  constructor; [| exact IH]. now apply parse_line_mapping_safe in E.
Qed.

End BlankFacts.

(** X6: [parse_inputs] accepts the inputs exactly when the token and the
    source repository are not empty, the destination repository has the
    format owner/name and at least one line of [sync_paths] yields a
    mapping. The tests for an empty destination and for a blank
    [sync_paths] decide the error that is reported, not whether the inputs
    are accepted. *)
Theorem parse_inputs_accepts_exactly_valid_inputs {W Repo PErr : Type}
    (svc : Services W Repo PErr) (st : State W Repo) :
  (exists inputs st', parse_inputs svc st = (Success inputs, st'))
  <-> get_input svc "personal_access_token" true <> EmptyString
      /\ get_input svc "source_repo" true <> EmptyString
      /\ test_repo_format (get_input svc "destination_repo" true) = true
      /\ mappings_of (split newline (get_input svc "sync_paths" true)) <> [].
Proof.
  rewrite parse_inputs_run. cbv zeta.
  destruct (is_empty (get_input svc "personal_access_token" true)) eqn:Ht.
  { apply is_empty_true in Ht.
    split; [intros (? & ? & [=]) | intros (H & _); contradiction]. }
  destruct (is_empty (get_input svc "destination_repo" true)) eqn:Hd.
  { apply is_empty_true in Hd. rewrite Hd.
    split; [intros (? & ? & [=]) | intros (_ & _ & H & _); discriminate H]. }
  destruct (is_empty (get_input svc "source_repo" true)) eqn:Hs.
  { apply is_empty_true in Hs.
    split; [intros (? & ? & [=]) | intros (_ & H & _); contradiction]. }
  destruct (test_repo_format (get_input svc "destination_repo" true)) eqn:Hf;
    cbn [negb].
  2: { split; [intros (? & ? & [=]) | intros (_ & _ & H & _); discriminate H]. }
  destruct (is_empty (trim (get_input svc "sync_paths" true))) eqn:Hb.
  { apply blank_input_has_no_mapping in Hb.
    split; [intros (? & ? & [=]) | intros (_ & _ & _ & H); contradiction]. }
  apply is_empty_false in Ht, Hs.
  destruct (mappings_of (split newline (get_input svc "sync_paths" true)))
    as [| mapping mappings] eqn:Hm; cbn [length Nat.eqb].
  - split; [intros (? & ? & [=]) | intros (_ & _ & _ & H); contradiction].
  - split; [intros _; repeat split; auto; discriminate | intros _; eauto].
Qed.

(** X7: what the steps after [parse_inputs] can rely on. Accepted inputs
    have a token and a source repository that are not empty, a destination
    repository of the format owner/name and at least one mapping; both
    sides of every mapping pass the path-safety test; the dry-run flag is
    set exactly when the input is the string [true]. Parsing leaves the
    world as it is and records the masking of the token, first, and
    warnings. *)
Theorem parsed_inputs_are_valid {W Repo PErr : Type}
    (svc : Services W Repo PErr) (st st' : State W Repo)
    (inputs : ActionInputs) :
  parse_inputs svc st = (Success inputs, st') ->
  personal_access_token inputs <> EmptyString
  /\ source_repo inputs <> EmptyString
  /\ test_repo_format (destination_repo inputs) = true
  /\ sync_paths inputs <> []
  /\ Forall safe_mapping (sync_paths inputs)
  /\ (dry_run inputs = true <-> get_input svc "dry_run" false = "true")
  /\ world st' = world st
  /\ exists warnings,
       trace st' = trace st
         ++ CoreSetSecret (personal_access_token inputs)
         :: map CoreWarning warnings.
Proof.
  rewrite parse_inputs_run. cbv zeta.
  destruct (is_empty (get_input svc "personal_access_token" true)) eqn:Ht;
    [discriminate |].
  destruct (is_empty (get_input svc "destination_repo" true)) eqn:Hd;
    [discriminate |].
  destruct (is_empty (get_input svc "source_repo" true)) eqn:Hs;
    [discriminate |].
  destruct (test_repo_format (get_input svc "destination_repo" true)) eqn:Hf;
    cbn [negb]; [| discriminate].
  destruct (is_empty (trim (get_input svc "sync_paths" true)));
    [discriminate |].
  destruct (length _ =? 0)%nat eqn:Hn; [discriminate |].
  intros [= <- <-]. cbn.
  apply is_empty_false in Ht, Hs.
  repeat split; try assumption.
  - intros Hm. rewrite Hm in Hn. discriminate Hn.
  - apply mappings_of_safe.
  - apply String.eqb_eq.
  - apply String.eqb_eq.
  - eauto.
Qed.

(** Three lines, the second of which is unsafe. *)
Lemma parsed_inputs_are_valid_witness :
  Forall safe_mapping [("docs", "content"); ("a.md", "a.md")].
Proof.
  refine (proj1 (proj2 (proj2 (proj2 (proj2
    (parsed_inputs_are_valid
       (TestEnv.test_services
          (TestEnv.test_scenario_with
             (TestEnv.inputs_of "token"
                ("docs:content" +:+ String newline "../up"
                 +:+ String newline "a.md")
                "owner/source" "owner/destination" EmptyString)))
       {| world := TestEnv.initial_volume; trace := [] |}
       {| world := TestEnv.initial_volume;
          trace := [CoreSetSecret "token";
                    CoreWarning (UnsafePathSkipped "../up")] |}
       {| personal_access_token := "token";
          sync_paths := [("docs", "content"); ("a.md", "a.md")];
          source_repo := "owner/source";
          destination_repo := "owner/destination";
          dry_run := false |}
       _)))))).
  vm_compute. reflexivity.
Defined.

(** ** The order of the calls of a run *)

Section ShapeFacts.
Context {W Repo PErr : Type} (svc : Services W Repo PErr).

Lemma shape_succeed {A} (a : A) (S : A -> list (Event Repo) -> Prop)
    (F : list (Event Repo) -> Prop) :
  S a [] -> run_shape (W := W) (PErr := PErr) (succeed a) S F.
Proof. intros H st. exists []. now rewrite app_nil_r. Qed.

Lemma shape_record (ev : Event Repo) (S : unit -> list (Event Repo) -> Prop)
    (F : list (Event Repo) -> Prop) :
  S tt [ev] -> run_shape (W := W) (PErr := PErr) (record ev) S F.
Proof. intros H st. exists [ev]. auto. Qed.

Lemma shape_call {A} (ev : Event Repo) (op : W -> Exit PErr A * W)
    (S : A -> list (Event Repo) -> Prop) (F : list (Event Repo) -> Prop) :
  (forall a, S a [ev]) -> F [ev] -> run_shape (call ev op) S F.
Proof.
  intros HS HF st. unfold call. destruct (op (world st)) as [[a | pe] w'].
  - exists [ev]. auto.
  - exists pe, [ev]. auto.
Qed.

Lemma shape_and_then {A B} (m : Eff W Repo PErr A)
    (k : A -> Eff W Repo PErr B)
    (S1 : A -> list (Event Repo) -> Prop) (F1 : list (Event Repo) -> Prop)
    (S : B -> list (Event Repo) -> Prop) (F : list (Event Repo) -> Prop) :
  run_shape m S1 F1 ->
  (forall evs, F1 evs -> F evs) ->
  (forall a evs1, S1 a evs1 ->
     run_shape (k a) (fun b evs2 => S b (evs1 ++ evs2))
       (fun evs2 => F (evs1 ++ evs2))) ->
  run_shape (and_then m k) S F.
Proof.
  intros Hm HF Hk st. unfold and_then. specialize (Hm st).
  destruct (m st) as [[a | e] st1].
  - destruct Hm as (evs1 & Htr1 & HS1). specialize (Hk a evs1 HS1 st1).
    destruct (k a st1) as [[b | e] st2].
    + destruct Hk as (evs2 & Htr2 & HS). exists (evs1 ++ evs2).
      rewrite Htr2, Htr1, app_assoc. auto.
    + destruct Hk as (pe & evs2 & -> & Htr2 & HF2). exists pe, (evs1 ++ evs2).
      rewrite Htr2, Htr1, app_assoc. auto.
  - destruct Hm as (pe & evs & -> & Htr & HF1). exists pe, evs. auto.
Qed.

Lemma shape_call_then {A B} (ev : Event Repo) (op : W -> Exit PErr A * W)
    (k : A -> Eff W Repo PErr B)
    (S : B -> list (Event Repo) -> Prop) (F : list (Event Repo) -> Prop) :
  F [ev] ->
  (forall a, run_shape (k a) (fun b evs => S b (ev :: evs))
               (fun evs => F (ev :: evs))) ->
  run_shape (and_then (call ev op) k) S F.
Proof.
  intros HF Hk.
  apply (shape_and_then _ _ (fun _ evs => evs = [ev]) (fun evs => evs = [ev])).
  - apply shape_call; auto.
  - now intros evs ->.
  - intros a evs1 ->. apply Hk.
Qed.

Lemma shape_record_then {B} (ev : Event Repo) (k : unit -> Eff W Repo PErr B)
    (S : B -> list (Event Repo) -> Prop) (F : list (Event Repo) -> Prop) :
  run_shape (k tt) (fun b evs => S b (ev :: evs)) (fun evs => F (ev :: evs)) ->
  run_shape (and_then (record ev) k) S F.
Proof.
  intros Hk.
  apply (shape_and_then _ _ (fun _ evs => evs = [ev]) (fun _ => False)).
  - now apply shape_record.
  - intros evs [].
  - intros [] evs1 ->. apply Hk.
Qed.

Lemma shape_weaken {A} (m : Eff W Repo PErr A)
    (S S' : A -> list (Event Repo) -> Prop)
    (F F' : list (Event Repo) -> Prop) :
  run_shape m S F ->
  (forall a evs, S a evs -> S' a evs) -> (forall evs, F evs -> F' evs) ->
  run_shape m S' F'.
Proof.
  intros Hm HS HF st. specialize (Hm st). destruct (m st) as [[a | e] st'].
  - destruct Hm as (evs & ? & ?). eauto.
  - destruct Hm as (pe & evs & ? & ? & ?). exists pe, evs. auto.
Qed.

(** [move_paths]: on success every mapping was applied; a failure stopped
    at a call. *)
Lemma move_each_shape (paths : list (string * string))
    (source_clone_dir destination_clone_dir : string) :
  run_shape (move_each svc paths source_clone_dir destination_clone_dir)
    (fun _ evs => evs = moves paths source_clone_dir destination_clone_dir)
    (fun evs =>
       evs <> []
       /\ exists rest,
            evs ++ rest = moves paths source_clone_dir destination_clone_dir).
Proof.
  induction paths as [| [source destination] paths IH].
  - now apply shape_succeed.
  - cbn [move_each]. unfold move_one.
    eapply shape_and_then with
      (S1 := fun _ evs =>
         evs = moves [(source, destination)] source_clone_dir
                 destination_clone_dir)
      (F1 := fun evs =>
         evs <> []
         /\ exists rest,
              evs ++ rest = moves [(source, destination)] source_clone_dir
                              destination_clone_dir).
    + apply shape_call_then.
      * split; [discriminate | eexists; reflexivity].
      * intros []. apply shape_call.
        -- reflexivity.
        -- split; [discriminate |]. exists []. reflexivity.
    + intros evs (Hne & rest & Hrest). split; [exact Hne |].
      exists (rest ++ moves paths source_clone_dir destination_clone_dir).
      rewrite app_assoc, Hrest. reflexivity.
    + intros [] evs1 ->. eapply shape_weaken; [apply IH | |].
      * intros _ evs ->. reflexivity.
      * intros evs (Hne & rest & Hrest). split.
        -- cbn. discriminate.
        -- exists rest. rewrite <- app_assoc, Hrest. reflexivity.
Qed.

(** [commit_and_push]: what it records when it succeeds, and where it
    stopped when it fails. *)
Lemma commit_and_push_shape (repo : Repo) :
  run_shape (commit_and_push svc repo)
    (fun commit_hash evs =>
       exists pushed, evs = committed repo pushed commit_hash
         /\ (pushed = false -> commit_hash = EmptyString))
    (fun evs => evs <> [] /\ exists rest, evs ++ rest = publication repo).
Proof.
  unfold commit_and_push.
  apply shape_call_then.
  { split; [discriminate | eexists; reflexivity]. }
  intros status. destruct (is_empty (trim status)).
  - apply shape_record_then, shape_succeed. exists false. auto.
  - apply shape_call_then.
    { split; [discriminate | eexists; reflexivity]. }
    intros _. apply shape_call_then.
    { split; [discriminate | eexists; reflexivity]. }
    intros _. apply shape_call_then.
    { split; [discriminate | eexists; reflexivity]. }
    intros _. apply shape_call_then.
    { split; [discriminate | exists []; reflexivity]. }
    intros commit_hash. apply shape_record_then, shape_succeed.
    exists true. split; [reflexivity | discriminate].
Qed.

Lemma sync_shape (inputs : ActionInputs) :
  run_shape (sync svc inputs)
    (fun _ evs =>
       exists temp_dir repo pushed commit_hash,
         evs = setup inputs temp_dir ++ conclusion repo pushed commit_hash
         /\ (pushed = false -> commit_hash = EmptyString))
    (stopped inputs).
Proof.
  unfold sync, configureGit, clone_repo, move_paths.
  apply shape_call_then.
  { split; [discriminate |]. exists EmptyString. left. eexists. reflexivity. }
  intros temp_dir.
  assert (Hstop : forall evs rest : list (Event Repo),
            evs <> [] -> evs ++ rest = setup inputs temp_dir ->
            stopped inputs evs).
  { intros evs rest Hne Hrest. split; [exact Hne |].
    exists temp_dir. left. now exists rest. }
  apply shape_call_then.
  { eapply Hstop; [discriminate | reflexivity]. }
  intros _. apply shape_call_then.
  { eapply Hstop; [discriminate | reflexivity]. }
  intros _. apply shape_call_then.
  { eapply Hstop; [discriminate | reflexivity]. }
  intros _. apply shape_call_then.
  { eapply Hstop; [discriminate | reflexivity]. }
  intros _. apply shape_call_then.
  { eapply Hstop; [discriminate | reflexivity]. }
  intros _. apply shape_call_then.
  { eapply Hstop; [discriminate | reflexivity]. }
  intros repo.
  eapply shape_and_then; [apply move_each_shape | |].
  { intros evs (Hne & rest & Hrest). apply (Hstop _ rest); [discriminate |].
    unfold setup, preparation, source_repo_dir, target_dir. cbn [app].
    rewrite <- Hrest. reflexivity. }
  intros [] evs1 ->.
  eapply shape_and_then; [apply commit_and_push_shape | |].
  { intros calls (Hne & rest & Hrest). split; [discriminate |].
    exists temp_dir. right. exists repo, calls, rest.
    split; [reflexivity | exact Hrest]. }
  intros commit_hash evs2 (pushed & -> & Hhash).
  apply shape_record_then, shape_record.
  exists temp_dir, repo, pushed, commit_hash. split; [| exact Hhash].
  unfold setup, conclusion, preparation. cbn [app].
  reflexivity.
Qed.

(** A first call whose answer the shape of the rest is stated with. *)
Lemma shape_call_then_at {A B} (ev : Event Repo) (op : W -> Exit PErr A * W)
    (k : A -> Eff W Repo PErr B)
    (S : Exit PErr A -> B -> list (Event Repo) -> Prop)
    (F : Exit PErr A -> list (Event Repo) -> Prop) (st : State W Repo) :
  (forall e, F (Failure e) [ev]) ->
  (forall a, run_shape (k a) (fun b evs => S (Success a) b (ev :: evs))
               (fun evs => F (Success a) (ev :: evs))) ->
  match and_then (call ev op) k st with
  | (Success b, st') =>
      exists evs, trace st' = trace st ++ evs /\ S (fst (op (world st))) b evs
  | (Failure e, st') =>
      exists pe evs,
        e = Platform pe /\ trace st' = trace st ++ evs
        /\ F (fst (op (world st))) evs
  end.
Proof.
  intros HF Hk. unfold and_then, call.
  destruct (op (world st)) as [[a | e] w']; cbn [fst].
  - specialize (Hk a {| world := w'; trace := trace st ++ [ev] |}).
    destruct (k a _) as [[b | e] st'']; cbn [trace] in Hk.
    + destruct Hk as (evs & -> & HS). exists (ev :: evs).
      now rewrite <- app_assoc.
    + destruct Hk as (pe & evs & -> & -> & HF'). exists pe, (ev :: evs).
      now rewrite <- app_assoc.
  - exists e, [ev]. auto.
Qed.

(** [sync_shape] with the temporary directory the run was given: the
    directory of the plan is the one [fs.makeTempDirectory] answers in
    the state the steps start in. *)
Lemma sync_shape_at (inputs : ActionInputs) (st : State W Repo) :
  match sync svc inputs st with
  | (Success _, st') =>
      exists evs,
        trace st' = trace st ++ evs
        /\ exists temp_dir repo pushed commit_hash,
             fst (makeTempDirectory svc (world st)) = Success temp_dir
             /\ evs = setup inputs temp_dir
                      ++ conclusion repo pushed commit_hash
             /\ (pushed = false -> commit_hash = EmptyString)
  | (Failure e, st') =>
      exists pe evs,
        e = Platform pe /\ trace st' = trace st ++ evs
        /\ match fst (makeTempDirectory svc (world st)) with
           | Success temp_dir => stopped_in inputs temp_dir evs
           | Failure _ => evs = [FsMakeTempDirectory]
           end
  end.
Proof.
  unfold sync, configureGit, clone_repo, move_paths.
  apply (shape_call_then_at FsMakeTempDirectory (makeTempDirectory svc) _
           (fun made _ evs =>
              exists temp_dir repo pushed commit_hash,
                made = Success temp_dir
                /\ evs = setup inputs temp_dir
                         ++ conclusion repo pushed commit_hash
                /\ (pushed = false -> commit_hash = EmptyString))
           (fun made evs =>
              match made with
              | Success temp_dir => stopped_in inputs temp_dir evs
              | Failure _ => evs = [FsMakeTempDirectory]
              end)).
  { reflexivity. }
  intros temp_dir.
  assert (Hstop : forall evs rest : list (Event Repo),
            evs <> [] -> evs ++ rest = setup inputs temp_dir ->
            stopped_in inputs temp_dir evs).
  { intros evs rest Hne Hrest. split; [exact Hne |]. left. now exists rest. }
  apply shape_call_then.
  { eapply Hstop; [discriminate | reflexivity]. }
  intros _. apply shape_call_then.
  { eapply Hstop; [discriminate | reflexivity]. }
  intros _. apply shape_call_then.
  { eapply Hstop; [discriminate | reflexivity]. }
  intros _. apply shape_call_then.
  { eapply Hstop; [discriminate | reflexivity]. }
  intros _. apply shape_call_then.
  { eapply Hstop; [discriminate | reflexivity]. }
  intros _. apply shape_call_then.
  { eapply Hstop; [discriminate | reflexivity]. }
  intros repo.
  eapply shape_and_then; [apply move_each_shape | |].
  { intros evs (Hne & rest & Hrest). apply (Hstop _ rest); [discriminate |].
    unfold setup, preparation, source_repo_dir, target_dir. cbn [app].
    rewrite <- Hrest. reflexivity. }
  intros [] evs1 ->.
  eapply shape_and_then; [apply commit_and_push_shape | |].
  { intros calls (Hne & rest & Hrest). split; [discriminate |].
    right. exists repo, calls, rest.
    split; [reflexivity | exact Hrest]. }
  intros commit_hash evs2 (pushed & -> & Hhash).
  apply shape_record_then, shape_record.
  exists temp_dir, repo, pushed, commit_hash. split; [reflexivity |].
  split; [| exact Hhash].
  unfold setup, conclusion, preparation. cbn [app].
  reflexivity.
Qed.

End ShapeFacts.


Section PlanFacts.
Context {W Repo PErr : Type} (svc : Services W Repo PErr).

Lemma moves_act_on_world (paths : list (string * string)) (src dst : string) :
  Forall (fun ev : Event Repo => acts_on_world ev = true) (moves paths src dst).
Proof.
  induction paths as [| mapping paths IH]; [constructor |].
  unfold moves in *. cbn [flat_map app]. repeat constructor. exact IH.
Qed.

Lemma setup_acts_on_world (inputs : ActionInputs) (temp_dir : string) :
  Forall (fun ev : Event Repo => acts_on_world ev = true)
    (setup inputs temp_dir).
Proof.
  unfold setup, preparation. cbn [app]. repeat constructor.
  apply moves_act_on_world.
Qed.

Lemma publication_acts_on_world (repo : Repo) :
  Forall (fun ev : Event Repo => acts_on_world ev = true) (publication repo).
Proof. repeat constructor. Qed.

Lemma Forall_app_l {A} (P : A -> Prop) (l1 l2 : list A) :
  Forall P (l1 ++ l2) -> Forall P l1.
Proof. intros H. now apply Forall_app in H. Qed.

Lemma stopped_acts_on_world (inputs : ActionInputs) (evs : list (Event Repo)) :
  stopped inputs evs ->
  Forall (fun ev => acts_on_world ev = true) evs
  /\ exists front ev, evs = front ++ [ev].
Proof.
  intros (Hne & temp_dir & Hcases). split.
  - destruct Hcases as [(rest & Hrest) | (repo & calls & rest & -> & Hrest)].
    + apply (Forall_app_l _ _ rest). rewrite Hrest. apply setup_acts_on_world.
    + apply Forall_app. split; [apply setup_acts_on_world |].
      apply (Forall_app_l _ _ rest). rewrite Hrest.
      apply publication_acts_on_world.
  - destruct (exists_last Hne) as (front & ev & ->). eauto.
Qed.

End PlanFacts.


Section ProgramCases.
Context {W Repo PErr : Type} (svc : Services W Repo PErr).

Lemma parse_inputs_success (st parsed : State W Repo)
    (inputs : ActionInputs) :
  parse_inputs svc st = (Success inputs, parsed) ->
  inputs = accepted_inputs svc
  /\ parsed = logged st
       (CoreSetSecret (get_input svc "personal_access_token" true)
        :: map CoreWarning (read_warnings svc)).
Proof.
  rewrite parse_inputs_run. cbv zeta.
  repeat match goal with
         | |- context [if ?c then _ else _] => destruct c
         end;
    intros H; try discriminate H.
  injection H as <- <-. split; reflexivity.
Qed.

(** Past [parse_inputs], [program] has recorded its introduction and is at
    the dry-run gate. *)
Lemma program_at_the_gate (st parsed : State W Repo) (inputs : ActionInputs) :
  parse_inputs svc st = (Success inputs, parsed) ->
  program svc st
  = (if dry_run inputs then record (CoreInfo DryRunMode) else sync svc inputs)
      (logged st (introduction inputs (read_warnings svc))).
Proof.
  intros Hparse. rewrite (program_after_parse svc _ _ _ Hparse).
  apply parse_inputs_success in Hparse as (-> & ->).
  rewrite logged_logged. reflexivity.
Qed.

(** The three ways a run of [program] goes: the inputs are refused; they
    are accepted and the run is a dry run; they are accepted and the run
    goes through the steps past the gate. *)
Lemma program_cases (w : W) :
  let inputs := accepted_inputs svc in
  let fresh := {| world := w; trace := [] |} in
  let opening := introduction inputs (read_warnings svc) in
  (exists v warnings,
     let refused :=
       {| world := w;
          trace := CoreSetSecret (get_input svc "personal_access_token" true)
                   :: map CoreWarning warnings |} in
     parse_inputs svc fresh = (Failure (Validation v), refused)
     /\ run (program svc) w = (Failure (Validation v), refused))
  \/ (fst (parse_inputs svc fresh) = Success inputs
      /\ ((dry_run inputs = true
           /\ run (program svc) w
              = (Success tt,
                 {| world := w; trace := opening ++ [CoreInfo DryRunMode] |}))
          \/ (dry_run inputs = false
              /\ run (program svc) w
                 = sync svc inputs {| world := w; trace := opening |}))).
Proof.
  intros inputs fresh opening. unfold run. fold fresh.
  destruct (parse_inputs svc fresh) as [[inputs' | e] parsed] eqn:Hparse.
  - right. rewrite (program_at_the_gate _ _ _ Hparse).
    apply parse_inputs_success in Hparse as (-> & _).
    fold inputs opening. split; [reflexivity |].
    destruct (dry_run inputs); [left | right]; (split; [reflexivity |]).
    + rewrite record_run. reflexivity.
    + reflexivity.
  - left. rewrite (program_parse_failure svc _ _ _ Hparse).
    apply parse_inputs_failure in Hparse as (v & warnings & -> & ->).
    exists v, warnings. split; reflexivity.
Qed.

(** What a run past the gate adds to the opening. *)
Lemma sync_trace (inputs : ActionInputs) (st : State W Repo) :
  exists evs, trace (snd (sync svc inputs st)) = trace st ++ evs.
Proof.
  pose proof (sync_shape svc inputs st) as H.
  destruct (sync svc inputs st) as [[[] | e] st'].
  - destruct H as (evs & ? & _). now exists evs.
  - destruct H as (_ & evs & _ & ? & _). now exists evs.
Qed.

End ProgramCases.

(** ** What the trace tells about the answers of the services *)

Section ReplayFacts.
Context {W Repo PErr : Type} (svc : Services W Repo PErr).

Lemma replay_app (evs1 evs2 : list (Event Repo)) (w : W) :
  replay svc (evs1 ++ evs2) w
  = match replay svc evs1 w with
    | Some w' => replay svc evs2 w'
    | None => None
    end.
Proof.
  revert w. induction evs1 as [| ev evs1 IH]; intros w; [reflexivity |].
  cbn [app replay]. destruct (outcome svc ev w) as [[e |] w']; [reflexivity |].
  apply IH.
Qed.

Lemma tracks_succeed {A} (a : A) : tracks svc (succeed a).
Proof. intros st. exists []. now rewrite app_nil_r. Qed.

Lemma tracks_record (ev : Event Repo) :
  acts_on_world ev = false -> tracks svc (record ev).
Proof.
  intros Hev st. exists [ev]. split; [reflexivity |].
  destruct ev; try discriminate Hev; reflexivity.
Qed.

Lemma tracks_call {A} (ev : Event Repo) (op : W -> Exit PErr A * W) :
  (forall w, outcome svc ev w = answered (op w)) -> tracks svc (call ev op).
Proof.
  intros Hop st. unfold call. specialize (Hop (world st)).
  unfold answered in Hop.
  destruct (op (world st)) as [[a | pe] w']; cbn [fst snd] in Hop.
  - exists [ev]. split; [reflexivity |]. cbn [replay world]. now rewrite Hop.
  - exists [], ev, (world st). cbn [trace world]. auto.
Qed.

Lemma tracks_and_then {A B} (m : Eff W Repo PErr A)
    (k : A -> Eff W Repo PErr B) :
  tracks svc m -> (forall a, tracks svc (k a)) -> tracks svc (and_then m k).
Proof.
  intros Hm Hk st. unfold and_then. specialize (Hm st).
  destruct (m st) as [[a | [v | pe]] st1]; [| exact Hm | exact Hm].
  destruct Hm as (evs1 & Htr1 & Hw1). specialize (Hk a st1).
  destruct (k a st1) as [[b | [v | pe]] st2].
  - destruct Hk as (evs2 & -> & Hw2). exists (evs1 ++ evs2).
    rewrite Htr1, app_assoc, replay_app, Hw1. auto.
  - destruct Hk as (evs2 & -> & Hw2). exists (evs1 ++ evs2).
    rewrite Htr1, app_assoc, replay_app, Hw1. auto.
  - destruct Hk as (calls & failed & before & -> & Hw2 & Hfailed).
    exists (evs1 ++ calls), failed, before.
    rewrite Htr1, <- !app_assoc, replay_app, Hw1. auto.
Qed.

Lemma tracks_move_each (paths : list (string * string))
    (source_clone_dir destination_clone_dir : string) :
  tracks svc (move_each svc paths source_clone_dir destination_clone_dir).
Proof.
  induction paths as [| [source destination] paths IH].
  - apply tracks_succeed.
  - cbn [move_each]. apply tracks_and_then; [| intros _; exact IH].
    unfold move_one.
    apply tracks_and_then; [now apply tracks_call | intros _].
    now apply tracks_call.
Qed.

Lemma tracks_commit_and_push (repo : Repo) :
  tracks svc (commit_and_push svc repo).
Proof.
  unfold commit_and_push.
  apply tracks_and_then; [now apply tracks_call | intros status].
  destruct (is_empty (trim status)).
  - apply tracks_and_then; [now apply tracks_record | intros _].
    apply tracks_succeed.
  - repeat (apply tracks_and_then; [now apply tracks_call | intros ?]).
    apply tracks_and_then; [now apply tracks_record | intros _].
    apply tracks_succeed.
Qed.

Lemma tracks_sync (inputs : ActionInputs) : tracks svc (sync svc inputs).
Proof.
  unfold sync, configureGit, clone_repo, move_paths.
  repeat (apply tracks_and_then; [now apply tracks_call | intros ?]).
  apply tracks_and_then; [apply tracks_move_each | intros _].
  apply tracks_and_then; [apply tracks_commit_and_push | intros commit_hash].
  apply tracks_and_then; [now apply tracks_record | intros _].
  now apply tracks_record.
Qed.

End ReplayFacts.


(** X8: a run of [program] that succeeds and is not a dry run has recorded,
    after its opening, every call of the setup in order: the temporary
    directory, the git identity, the target directory, the clone of the
    destination and then of the source, the move of the history into the
    target, the repository of the target, and for each parsed mapping, in
    the order of the lines, a recursive mkdir and a rename; then the calls
    of [commit_and_push], the output [commit_hash] and the closing notice.
    The directories of these calls are made of the temporary directory
    that [fs.makeTempDirectory] returned to the run. When nothing was
    pushed the output is the empty string. *)
Theorem successful_run_follows_the_plan {W Repo PErr : Type}
    (svc : Services W Repo PErr) (w : W) (st' : State W Repo) :
  get_input svc "dry_run" false <> "true" ->
  run (program svc) w = (Success tt, st') ->
  let inputs := accepted_inputs svc in
  exists temp_dir repo pushed commit_hash,
    trace st'
    = introduction inputs (read_warnings svc)
      ++ setup inputs temp_dir
      ++ conclusion repo pushed commit_hash
    /\ (pushed = false -> commit_hash = EmptyString)
    /\ fst (makeTempDirectory svc w) = Success temp_dir.
Proof.
  intros Hdry Hrun inputs.
  destruct (program_cases svc w)
    as [(v & warnings & _ & Hfail) | (_ & Hcases)].
  { cbv zeta in Hfail. rewrite Hfail in Hrun. discriminate Hrun. }
  destruct Hcases as [(Hflag & _) | (_ & Hsync)].
  { apply String.eqb_eq in Hflag. contradiction. }
  rewrite Hsync in Hrun. fold inputs in Hrun.
  pose proof (sync_shape_at svc inputs
    {| world := w; trace := introduction inputs (read_warnings svc) |}) as H.
  rewrite Hrun in H. cbn [trace world] in H.
  destruct H as (evs & Htrace & temp_dir & repo & pushed & commit_hash
                 & Hmade & -> & Hhash).
  exists temp_dir, repo, pushed, commit_hash. auto.
Qed.

(** The run of the test suite follows the plan. *)
Lemma successful_run_follows_the_plan_witness :
  let svc := TestEnv.test_services TestEnv.test_scenario in
  exists temp_dir repo pushed commit_hash,
    trace (snd (run (program svc) TestEnv.initial_volume))
    = introduction (accepted_inputs svc) (read_warnings svc)
      ++ setup (accepted_inputs svc) temp_dir
      ++ conclusion repo pushed commit_hash
    /\ (pushed = false -> commit_hash = EmptyString)
    /\ fst (makeTempDirectory svc TestEnv.initial_volume) = Success temp_dir.
Proof.
  intros svc.
  refine (successful_run_follows_the_plan svc TestEnv.initial_volume
            (snd (run (program svc) TestEnv.initial_volume)) _ _).
  - vm_compute. discriminate.
  - vm_compute. reflexivity.
Defined.

(** X9: whatever validation error a run of [program] fails with, it is an
    error of [parse_inputs], and the run has made no call on the file
    system or on git: the world is as it was. The steps past the dry-run
    gate never fail with a validation error. *)
Theorem validation_failure_touches_nothing {W Repo PErr : Type}
    (svc : Services W Repo PErr) (w : W) (v : ValidationError) :
  fst (run (program svc) w) = Failure (Validation v) ->
  world (snd (run (program svc) w)) = w
  /\ Forall (fun ev => acts_on_world ev = false)
       (trace (snd (run (program svc) w)))
  /\ fst (parse_inputs svc {| world := w; trace := [] |})
     = Failure (Validation v).
Proof.
  intros Hfail.
  destruct (program_cases svc w)
    as [(v' & warnings & Hparse & Hrun) | (_ & Hcases)].
  - cbv zeta in Hparse, Hrun. rewrite Hrun in Hfail |- *. rewrite Hparse.
    cbn [fst snd world trace]. split; [reflexivity |].
    split; [| cbn [fst] in Hfail; now injection Hfail as ->].
    constructor; [reflexivity |]. now apply Forall_map_all.
  - exfalso. destruct Hcases as [(_ & Hrun) | (_ & Hrun)].
    + rewrite Hrun in Hfail. discriminate Hfail.
    + rewrite Hrun in Hfail.
      pose proof (sync_shape svc (accepted_inputs svc)
        {| world := w;
           trace := introduction (accepted_inputs svc) (read_warnings svc) |})
        as H.
      destruct (sync svc _ _) as [[[] | e] st']; [discriminate Hfail |].
      destruct H as (pe & _ & -> & _). discriminate Hfail.
Qed.

(** A run without [source_repo]. *)
Lemma validation_failure_touches_nothing_witness :
  let svc :=
    TestEnv.test_services
      (TestEnv.test_scenario_with
         (TestEnv.inputs_of "token" "docs:content" EmptyString
            "owner/destination" EmptyString)) in
  world (snd (run (program svc) TestEnv.initial_volume))
  = TestEnv.initial_volume.
Proof.
  intros svc.
  exact (proj1 (validation_failure_touches_nothing svc TestEnv.initial_volume
                  SourceRepoRequired eq_refl)).
Defined.

(** X10: a run of [program] that fails with a platform error had its
    inputs accepted and was not a dry run; after the opening it recorded
    only calls on the file system and on git, which are the beginning of
    the plan of a run for the temporary directory that was returned.
    Every one of them but the last succeeded, and the last is the call
    that failed: the service answered it with the error the run reports,
    and the world is as that call left it. Nothing is called, logged or
    cleaned up after a failure,
    the output [commit_hash] is not set and the closing notice is not
    given. *)
Theorem platform_failure_ends_the_run {W Repo PErr : Type}
    (svc : Services W Repo PErr) (w : W) (pe : PErr) :
  fst (run (program svc) w) = Failure (Platform pe) ->
  let inputs := accepted_inputs svc in
  exists calls failed before,
    fst (parse_inputs svc {| world := w; trace := [] |}) = Success inputs
    /\ dry_run inputs = false
    /\ trace (snd (run (program svc) w))
       = introduction inputs (read_warnings svc) ++ calls ++ [failed]
    /\ Forall (fun ev => acts_on_world ev = true) (calls ++ [failed])
    /\ replay svc calls w = Some before
    /\ outcome svc failed before
       = (Some pe, world (snd (run (program svc) w)))
    /\ match fst (makeTempDirectory svc w) with
       | Success temp_dir => stopped_in inputs temp_dir (calls ++ [failed])
       | Failure _ => calls = [] /\ failed = FsMakeTempDirectory
       end
    /\ written_output "commit_hash" (trace (snd (run (program svc) w))) = None
    /\ ~ In (CoreInfo SyncCompleted) (trace (snd (run (program svc) w))).
Proof.
  intros Hfail inputs.
  destruct (program_cases svc w)
    as [(v' & warnings & _ & Hrun) | (Hparse & Hcases)].
  { cbv zeta in Hrun. rewrite Hrun in Hfail. discriminate Hfail. }
  destruct Hcases as [(_ & Hrun) | (Hflag & Hrun)].
  { rewrite Hrun in Hfail. discriminate Hfail. }
  fold inputs in Hrun, Hflag, Hparse.
  pose proof (sync_shape svc inputs
    {| world := w; trace := introduction inputs (read_warnings svc) |}) as H.
  pose proof (tracks_sync svc inputs
    {| world := w; trace := introduction inputs (read_warnings svc) |}) as Ht.
  pose proof (sync_shape_at svc inputs
    {| world := w; trace := introduction inputs (read_warnings svc) |}) as Ha.
  rewrite Hrun in Hfail |- *.
  destruct (sync svc inputs _) as [[[] | e] st']; [discriminate Hfail |].
  cbn [fst] in Hfail. injection Hfail as ->.
  destruct Ht as (calls & failed & before & Htrace & Hbefore & Hfailed).
  destruct H as (pe' & evs & _ & Htrace' & Hstopped).
  destruct Ha as (pe'' & evs' & _ & Htrace'' & Hplan).
  cbn [trace world] in Htrace, Htrace', Htrace'', Hbefore, Hplan.
  rewrite Htrace in Htrace', Htrace''.
  apply app_inv_head in Htrace' as <-. apply app_inv_head in Htrace'' as <-.
  apply stopped_acts_on_world in Hstopped as (Hcalls & _).
  exists calls, failed, before. cbn [fst snd].
  split; [exact Hparse |]. split; [exact Hflag |]. split; [exact Htrace |].
  split; [exact Hcalls |]. split; [exact Hbefore |]. split; [exact Hfailed |].
  split.
  { destruct (fst (makeTempDirectory svc w)) as [temp_dir | e];
      [exact Hplan |].
    destruct calls as [| c [| c' calls]]; cbn [app] in Hplan;
      simplify_eq; auto. }
  assert (Hquiet : Forall (fun ev : Event Repo =>
                             match ev with
                             | CoreSetOutput _ _ => False
                             | _ => ev <> CoreInfo SyncCompleted
                             end) (trace st')).
  { rewrite Htrace. apply Forall_app. split.
    - unfold introduction. constructor; [discriminate |].
      apply Forall_app_2; [apply Forall_map_all; discriminate |].
      apply Forall_app_2; [apply Forall_map_all; discriminate |].
      apply Forall_app_2; [repeat constructor; discriminate |].
      generalize 0. induction (sync_paths inputs) as [| [? ?] ? IH];
        intros n; cbn [sync_path_lines map]; constructor;
        [discriminate | apply IH].
    - eapply Forall_impl; [exact Hcalls |].
      intros [] Hev; try discriminate Hev; discriminate. }
  split.
  - apply written_output_none. eapply Forall_impl; [exact Hquiet |].
    intros []; auto.
  - intros Hin. rewrite Forall_forall in Hquiet.
    apply list_elem_of_In in Hin. now apply Hquiet in Hin.
Qed.

(** The run of the test suite with remotes that cannot be reached: the
    clone of the destination is the call that fails. *)
Lemma platform_failure_ends_the_run_witness :
  let svc := TestEnv.test_services TestEnv.unreachable_scenario in
  exists calls failed before,
    trace (snd (run (program svc) TestEnv.initial_volume))
    = introduction (accepted_inputs svc) (read_warnings svc)
      ++ calls ++ [failed]
    /\ replay svc calls TestEnv.initial_volume = Some before
    /\ outcome svc failed before
       = (Some TestEnv.GitCommandFailed,
          world (snd (run (program svc) TestEnv.initial_volume))).
Proof.
  intros svc.
  destruct (platform_failure_ends_the_run svc TestEnv.initial_volume
              TestEnv.GitCommandFailed eq_refl)
    as (calls & failed & before & _ & _ & Htrace & _ & Hbefore & Hfailed & _).
  exists calls, failed, before. auto.
Defined.

Section PushFacts.
Context {W Repo PErr : Type} (svc : Services W Repo PErr).

Lemma introduction_is_quiet (inputs : ActionInputs) (warnings : list Message) :
  Forall (fun ev : Event Repo => acts_on_world ev = false)
    (introduction inputs warnings).
Proof.
  unfold introduction. constructor; [reflexivity |].
  apply Forall_app_2; [now apply Forall_map_all |].
  apply Forall_app_2; [now apply Forall_map_all |].
  apply Forall_app_2; [repeat constructor |].
  now apply Forall_map_all.
Qed.

Lemma not_in_quiet (ev : Event Repo) (evs : list (Event Repo)) :
  acts_on_world ev = true ->
  Forall (fun ev => acts_on_world ev = false) evs -> ~ In ev evs.
Proof.
  intros Hev Hall Hin. rewrite Forall_forall in Hall.
  apply list_elem_of_In, Hall in Hin. congruence.
Qed.

Lemma push_not_in_setup (inputs : ActionInputs) (temp_dir : string)
    (repo : Repo) :
  ~ In (RepoPush repo) (setup inputs temp_dir).
Proof.
  unfold setup, preparation. cbn [app In].
  intros [H | [H | [H | [H | [H | [H | [H | H]]]]]]]; try discriminate H.
  revert H. unfold moves.
  induction (sync_paths inputs) as [| mapping paths IH]; [intros [] |].
  cbn [flat_map app In]. intros [H | [H | H]]; try discriminate H. auto.
Qed.

(** Where a push stands among the calls of a run past the dry-run gate. *)
Lemma push_in_sync (inputs : ActionInputs) (st : State W Repo) (repo : Repo)
    (evs : list (Event Repo)) :
  trace (snd (sync svc inputs st)) = trace st ++ evs ->
  In (RepoPush repo) evs ->
  exists temp_dir after,
    evs = setup inputs temp_dir
          ++ [RepoStatus repo; RepoAdd repo ["."];
              RepoCommit repo commit_message; RepoPush repo]
          ++ after
    /\ ~ In (RepoPush repo) after.
Proof.
  intros Htrace Hin. pose proof (sync_shape svc inputs st) as H.
  destruct (sync svc inputs st) as [[[] | e] st']; cbn [snd] in Htrace.
  - destruct H as (evs' & Htrace' & temp_dir & repo' & pushed & commit_hash
                   & -> & _).
    rewrite Htrace' in Htrace. apply app_inv_head in Htrace as <-.
    exists temp_dir. apply in_app_or in Hin as [Hin | Hin];
      [now apply push_not_in_setup in Hin |].
    destruct pushed; cbn in Hin.
    + destruct Hin as [H | [H | [H | [H | [H | [H | [H | [H | []]]]]]]]];
        try discriminate H.
      injection H as ->. eexists. split; [reflexivity |].
      cbn. intros [H | [H | [H | [H | []]]]]; discriminate H.
    + destruct Hin as [H | [H | [H | [H | []]]]]; discriminate H.
  - destruct H as (pe & evs' & _ & Htrace' & _ & temp_dir & Hcases).
    rewrite Htrace' in Htrace. apply app_inv_head in Htrace as <-.
    exists temp_dir.
    destruct Hcases as [(rest & Hrest) | (repo' & calls & rest & -> & Hrest)].
    + exfalso. apply (push_not_in_setup inputs temp_dir repo).
      rewrite <- Hrest. apply in_or_app. now left.
    + apply in_app_or in Hin as [Hin | Hin];
        [now apply push_not_in_setup in Hin |].
      unfold publication in Hrest.
      destruct calls as [| c1 [| c2 [| c3 [| c4 [| c5 [| c6 calls]]]]]];
        cbn [app] in Hrest; simplify_eq; cbn [In] in Hin;
        repeat (destruct Hin as [Hin | Hin]; try discriminate Hin);
        try contradiction.
      * injection Hin as ->. exists []. split; [reflexivity | intros []].
      * injection Hin as ->. eexists. split; [reflexivity |].
        cbn. intros [H | []]. discriminate H.
Qed.

End PushFacts.

(** X11: a push, in any run of [program], failed or not, comes after the
    whole setup: both clones, the move of the history and the application
    of every parsed mapping, and then a status query, [add] and [commit] on
    the same repository; and a run pushes at most once. *)
Theorem nothing_is_pushed_before_every_mapping_is_applied
    {W Repo PErr : Type} (svc : Services W Repo PErr) (w : W) (repo : Repo) :
  In (RepoPush repo) (trace (snd (run (program svc) w))) ->
  let inputs := accepted_inputs svc in
  exists temp_dir after,
    fst (parse_inputs svc {| world := w; trace := [] |}) = Success inputs
    /\ trace (snd (run (program svc) w))
       = introduction inputs (read_warnings svc)
         ++ setup inputs temp_dir
         ++ [RepoStatus repo; RepoAdd repo ["."];
             RepoCommit repo commit_message; RepoPush repo]
         ++ after
    /\ ~ In (RepoPush repo) after.
Proof.
  intros Hin inputs.
  destruct (program_cases svc w)
    as [(v' & warnings & _ & Hrun) | (Hparse & Hcases)].
  { exfalso. cbv zeta in Hrun. rewrite Hrun in Hin. cbn [snd trace] in Hin.
    revert Hin. apply not_in_quiet; [reflexivity |].
    constructor; [reflexivity | now apply Forall_map_all]. }
  destruct Hcases as [(_ & Hrun) | (_ & Hrun)].
  { exfalso. rewrite Hrun in Hin. cbn [snd trace] in Hin. revert Hin.
    apply not_in_quiet; [reflexivity |].
    apply Forall_app_2; [apply introduction_is_quiet | repeat constructor]. }
  fold inputs in Hrun, Hparse. rewrite Hrun in Hin |- *.
  destruct (sync_trace svc inputs
    {| world := w; trace := introduction inputs (read_warnings svc) |})
    as (evs & Htrace).
  cbn [trace] in Htrace. rewrite Htrace in Hin.
  apply in_app_or in Hin as [Hin | Hin].
  { exfalso. revert Hin. apply not_in_quiet; [reflexivity |].
    apply introduction_is_quiet. }
  destruct (push_in_sync svc inputs _ repo evs Htrace Hin)
    as (temp_dir & after & -> & Hafter).
  exists temp_dir, after. auto.
Qed.

(** The push of the run of the test suite. *)
Lemma nothing_is_pushed_before_every_mapping_is_applied_witness :
  let svc := TestEnv.test_services TestEnv.test_scenario in
  let repo := {| TestEnv.repo_path := "/tmp/cross-repo-sync/target" |} in
  exists temp_dir after,
    fst (parse_inputs svc {| world := TestEnv.initial_volume; trace := [] |})
    = Success (accepted_inputs svc)
    /\ trace (snd (run (program svc) TestEnv.initial_volume))
       = introduction (accepted_inputs svc) (read_warnings svc)
         ++ setup (accepted_inputs svc) temp_dir
         ++ [RepoStatus repo; RepoAdd repo ["."];
             RepoCommit repo commit_message; RepoPush repo]
         ++ after
    /\ ~ In (RepoPush repo) after.
Proof.
  intros svc repo.
  refine (nothing_is_pushed_before_every_mapping_is_applied svc
            TestEnv.initial_volume repo _).
  vm_compute. tauto.
Defined.

(** ** Where the paths of a run lead *)

Section ResolutionFacts.
Import PosixPath MemFs.

Lemma normalize_segments_app (allow : bool) (a b res : list string) :
  normalize_segments allow (a ++ b) res
  = normalize_segments allow b (rev (normalize_segments allow a res)).
Proof.
  revert res. induction a as [| seg a IH]; intros res.
  - cbn [app normalize_segments]. now rewrite rev_involutive.
  - cbn [app normalize_segments].
    destruct (is_empty seg || String.eqb seg (str1 dot)); [apply IH |].
    destruct (String.eqb seg dotdot); [| apply IH].
    destruct res as [| prev res']; [apply IH |].
    destruct (String.eqb prev dotdot); apply IH.
Qed.

(** Without a parent-directory segment nothing that was kept is removed. *)
Lemma normalize_segments_descends (allow : bool) (segs res : list string) :
  ~ In dotdot segs ->
  normalize_segments allow segs res
  = rev res ++ normalize_segments allow segs [].
Proof.
  revert res. induction segs as [| seg segs IH]; intros res Hno.
  - cbn. now rewrite app_nil_r.
  - assert (Hseg : String.eqb seg dotdot = false).
    { apply String.eqb_neq. intros ->. apply Hno. now left. }
    assert (Hsegs : ~ In dotdot segs) by (intros H; apply Hno; now right).
    cbn [normalize_segments]. rewrite Hseg.
    destruct (is_empty seg || String.eqb seg (str1 dot)); [now apply IH |].
    rewrite (IH (seg :: res)), (IH [seg]) by exact Hsegs.
    cbn [rev app]. now rewrite <- app_assoc.
Qed.

Lemma normalize_segments_root_dotdots (k : nat) (segs : list string) :
  normalize_segments false (repeat dotdot k ++ segs) []
  = normalize_segments false segs [].
Proof. induction k as [| k IH]; [reflexivity | exact IH]. Qed.

(** Climbing above the start changes only the leading parent-directory
    segments of the result. *)
Lemma normalize_segments_above_root (segs res : list string) (k : nat) :
  Forall (fun w => String.eqb w dotdot = false) res ->
  exists j,
    normalize_segments true segs (res ++ repeat dotdot k)
    = repeat dotdot j ++ normalize_segments false segs res.
Proof.
  revert res k. induction segs as [| seg segs IH]; intros res k Hres.
  - exists k. cbn [normalize_segments].
    now rewrite rev_app_distr, rev_repeat.
  - cbn [normalize_segments].
    destruct (is_empty seg || String.eqb seg (str1 dot)); [now apply IH |].
    destruct (String.eqb seg dotdot) eqn:Hseg.
    + destruct res as [| prev res'].
      * cbn [app]. destruct k as [| k]; cbn [repeat].
        -- apply (IH [] 1). constructor.
        -- change (String.eqb dotdot dotdot) with true. cbv iota.
           apply (IH [] (S (S k))). constructor.
      * inversion Hres as [| ? ? Hprev Hres']; subst.
        cbn [app]. rewrite Hprev. now apply IH.
    + apply (IH (seg :: res) k). now constructor.
Qed.

Lemma split_assemble (isAbsolute trailingSeparator : bool) (w : string)
    (ws : list string) :
  Forall (fun w => is_segment w = true) (w :: ws) ->
  split slash (assemble isAbsolute trailingSeparator (w :: ws))
  = (if isAbsolute then [EmptyString] else [])
    ++ (w :: ws) ++ (if trailingSeparator then [EmptyString] else []).
Proof.
  intros Hsegs.
  destruct (join_segments_chars w ws Hsegs) as (c & body & Hj & Hc & _).
  assert (Hsplit : split slash (join slash (w :: ws)) = w :: ws).
  { apply split_join; [discriminate |].
    eapply Forall_impl; [exact Hsegs |]. apply is_segment_no_slash. }
  unfold assemble. rewrite Hj.
  change (is_empty (String c body)) with false. cbv iota.
  rewrite <- Hj.
  assert (Htail : split slash
            (join slash (w :: ws)
             +:+ (if trailingSeparator then str1 slash else EmptyString))
          = (w :: ws) ++ (if trailingSeparator then [EmptyString] else [])).
  { destruct trailingSeparator.
    - unfold str1. now rewrite split_append, Hsplit.
    - now rewrite append_empty_r, app_nil_r. }
  destruct isAbsolute.
  - change (str1 slash +:+ ?x) with (String slash x).
    rewrite split_cons, Ascii.eqb_refl, Htail. reflexivity.
  - change (EmptyString +:+ ?x) with x. now rewrite Htail.
Qed.

Lemma steps_assemble (isAbsolute trailingSeparator : bool) (k : nat)
    (names : list string) :
  Forall (fun w => is_name w = true) names ->
  steps (assemble isAbsolute trailingSeparator (repeat dotdot k ++ names))
  = names.
Proof.
  intros Hnames. pose proof (kept_segments k names Hnames) as Hsegs.
  unfold steps.
  destruct (repeat dotdot k ++ names) as [| w ws] eqn:Eout.
  { destruct k; [| discriminate Eout]. cbn [repeat app] in Eout. subst names.
    destruct isAbsolute, trailingSeparator; reflexivity. }
  rewrite split_assemble by exact Hsegs. rewrite <- Eout.
  assert (Hbody : forall post,
            Forall (fun w => w = EmptyString) post ->
            normalize_segments false ((repeat dotdot k ++ names) ++ post) []
            = names).
  { intros post Hpost. rewrite <- app_assoc, normalize_segments_root_dotdots.
    now rewrite normalize_segments_names. }
  destruct isAbsolute; cbn [app]; [rewrite normalize_segments_empty |];
    apply Hbody; destruct trailingSeparator; repeat constructor.
Qed.

(** A path and its normal form resolve to the same location. *)
Lemma steps_normalize (path : string) : steps (normalize path) = steps path.
Proof.
  unfold normalize. destruct path as [| c path]; [reflexivity |].
  change (is_empty (String c path)) with false. cbv iota zeta.
  destruct (normalize_segments_kept false (split slash (String c path)) [])
    as (k0 & names & Hfalse & Hnames & Hk0).
  { apply split_segments_no_separator. }
  { exists 0, []. repeat split. constructor. }
  rewrite (Hk0 eq_refl) in Hfalse. cbn [repeat app] in Hfalse.
  unfold steps at 2. rewrite Hfalse.
  destruct (startsWith (str1 slash) (String c path)); cbn [negb].
  - rewrite Hfalse. now apply (steps_assemble _ _ 0).
  - destruct (normalize_segments_above_root (split slash (String c path)) [] 0)
      as (j & Hj); [constructor |].
    cbn [repeat app] in Hj. rewrite Hj, Hfalse. now apply steps_assemble.
Qed.

Lemma steps_empty : steps EmptyString = [].
Proof. reflexivity. Qed.

(** Joining a path without parent-directory segments descends from the
    directory. *)
Lemma steps_path_join (dir side : string) :
  ~ has_traversal_segment side ->
  steps (path_join dir side) = steps dir ++ steps side.
Proof.
  intros Hside. unfold path_join.
  destruct dir as [| c dir], side as [| d side]; cbn [is_empty].
  - reflexivity.
  - now rewrite steps_normalize.
  - now rewrite steps_normalize, steps_empty, app_nil_r.
  - rewrite steps_normalize. unfold steps.
    rewrite split_append, normalize_segments_app.
    rewrite normalize_segments_descends by exact Hside.
    now rewrite rev_involutive.
Qed.

Lemma safe_path_descends (side : string) :
  unsafe_path side = false -> ~ has_traversal_segment side.
Proof.
  intros Hsafe Hup. apply traversal_segment_includes in Hup.
  unfold unsafe_path in Hsafe. now rewrite Hup in Hsafe.
Qed.

End ResolutionFacts.


Section ContainmentFacts.
Context {W Repo PErr : Type} (svc : Services W Repo PErr).
Import MemFs.

Lemma rename_in_moves (paths : list (string * string)) (src dst : string)
    (oldPath newPath : string) :
  In (FsRename (Repo := Repo) oldPath newPath) (moves paths src dst) ->
  exists source destination,
    In (source, destination) paths
    /\ oldPath = PosixPath.path_join src source
    /\ newPath = PosixPath.path_join dst destination.
Proof.
  unfold moves. induction paths as [| [source destination] paths IH];
    [intros [] |].
  cbn [flat_map app In fst snd]. intros [H | [H | H]].
  - discriminate H.
  - injection H as <- <-. exists source, destination. auto.
  - destruct (IH H) as (s & d & Hin & Ho & Hn). exists s, d. auto.
Qed.

(** Every call of a run past the dry-run gate is the request for the
    temporary directory or a call of the setup or of the conclusion, for
    the temporary directory that was returned. *)
Lemma sync_calls (inputs : ActionInputs) (st : State W Repo)
    (evs : list (Event Repo)) (ev : Event Repo) :
  trace (snd (sync svc inputs st)) = trace st ++ evs ->
  In ev evs ->
  ev = FsMakeTempDirectory
  \/ exists temp_dir,
       fst (makeTempDirectory svc (world st)) = Success temp_dir
       /\ (In ev (setup inputs temp_dir)
           \/ exists repo pushed commit_hash,
                In ev (conclusion repo pushed commit_hash)).
Proof.
  intros Htrace Hin. pose proof (sync_shape_at svc inputs st) as H.
  destruct (sync svc inputs st) as [[[] | e] st']; cbn [snd] in Htrace.
  - destruct H as (evs' & Htrace' & temp_dir & repo & pushed & commit_hash
                   & Hmade & -> & _).
    rewrite Htrace' in Htrace. apply app_inv_head in Htrace as <-.
    right. exists temp_dir. split; [exact Hmade |].
    apply in_app_or in Hin as [Hin | Hin]; [now left |].
    right. now exists repo, pushed, commit_hash.
  - destruct H as (pe & evs' & _ & Htrace' & Hcases).
    rewrite Htrace' in Htrace. apply app_inv_head in Htrace as <-.
    destruct (fst (makeTempDirectory svc (world st))) as [temp_dir | e'].
    + right. exists temp_dir. split; [reflexivity |].
      destruct Hcases
        as (_ & [(rest & Hrest) | (repo & calls & rest & -> & Hrest)]).
      * left. rewrite <- Hrest. apply in_or_app. now left.
      * apply in_app_or in Hin as [Hin | Hin]; [now left |].
        right. exists repo, true, EmptyString.
        unfold conclusion, committed. rewrite <- Hrest, <- !app_assoc.
        apply in_or_app. now left.
    + left. subst evs'. destruct Hin as [<- | []]. reflexivity.
Qed.

Lemma program_calls (w : W) (ev : Event Repo) :
  In ev (trace (snd (run (program svc) w))) ->
  acts_on_world ev = true ->
  ev = FsMakeTempDirectory
  \/ exists temp_dir,
       fst (makeTempDirectory svc w) = Success temp_dir
       /\ (In ev (setup (accepted_inputs svc) temp_dir)
           \/ exists repo pushed commit_hash,
                In ev (conclusion repo pushed commit_hash)).
Proof.
  intros Hin Hev.
  destruct (program_cases svc w)
    as [(v' & warnings & _ & Hrun) | (_ & Hcases)].
  { exfalso. cbv zeta in Hrun. rewrite Hrun in Hin. cbn [snd trace] in Hin.
    revert Hin. apply not_in_quiet; [exact Hev |].
    constructor; [reflexivity | now apply Forall_map_all]. }
  destruct Hcases as [(_ & Hrun) | (_ & Hrun)].
  { exfalso. rewrite Hrun in Hin. cbn [snd trace] in Hin. revert Hin.
    apply not_in_quiet; [exact Hev |].
    apply Forall_app_2; [apply introduction_is_quiet | repeat constructor]. }
  rewrite Hrun in Hin.
  destruct (sync_trace svc (accepted_inputs svc)
    {| world := w;
       trace := introduction (accepted_inputs svc) (read_warnings svc) |})
    as (evs & Htrace).
  pose proof (sync_calls _ _ evs ev Htrace) as Hcalls.
  cbn [trace] in Htrace. rewrite Htrace in Hin.
  apply in_app_or in Hin as [Hin | Hin].
  { exfalso. revert Hin. apply not_in_quiet; [exact Hev |].
    apply introduction_is_quiet. }
  exact (Hcalls Hin).
Qed.

Lemma directory_in_moves (paths : list (string * string)) (src dst : string)
    (path : string) :
  In (FsMakeDirectory (Repo := Repo) path) (moves paths src dst) ->
  exists source destination,
    In (source, destination) paths
    /\ path = PosixPath.dirname (PosixPath.path_join dst destination).
Proof.
  unfold moves. induction paths as [| [source destination] paths IH];
    [intros [] |].
  cbn [flat_map app In fst snd]. intros [H | [H | H]].
  - injection H as <-. exists source, destination. auto.
  - discriminate H.
  - destruct (IH H) as (s & d & Hin & Hp). exists s, d. auto.
Qed.

End ContainmentFacts.

(** X12: every rename of a run of [program] stays inside the temporary
    directory that [fs.makeTempDirectory] returned to the run. It is
    either the move of the history of the destination clone into the
    target, or the rename of a parsed mapping, whose old path lies in the
    source clone, where the source side of the mapping leads from the
    clone directory, and whose new path lies in the target, where the
    destination side leads from the target directory: a side that passed
    the path-safety test cannot climb out. *)
Theorem renames_stay_inside_the_temporary_directory {W Repo PErr : Type}
    (svc : Services W Repo PErr) (w : W) (oldPath newPath : string) :
  In (FsRename oldPath newPath) (trace (snd (run (program svc) w))) ->
  exists temp_dir,
    fst (makeTempDirectory svc w) = Success temp_dir
    /\ ((MemFs.steps oldPath
         = MemFs.steps temp_dir ++ ["destination_repo"; ".git"]
         /\ MemFs.steps newPath = MemFs.steps temp_dir ++ ["target"; ".git"])
        \/ exists source destination,
             In (source, destination)
               (mappings_of (split newline (get_input svc "sync_paths" true)))
             /\ MemFs.steps oldPath
                = MemFs.steps temp_dir ++ "source_repo" :: MemFs.steps source
             /\ MemFs.steps newPath
                = MemFs.steps temp_dir ++ "target" :: MemFs.steps destination).
Proof.
  intros Hin.
  destruct (program_calls svc w _ Hin eq_refl)
    as [Hfirst | (temp_dir & Hmade & Hwhere)]; [discriminate Hfirst |].
  exists temp_dir. split; [exact Hmade |].
  assert (Hname : forall name : string,
            In name ["destination_repo"; "source_repo"; "target"; ".git"] ->
            ~ has_traversal_segment name).
  { intros name Hn Hup. unfold has_traversal_segment in Hup.
    repeat (destruct Hn as [<- | Hn];
            [cbn in Hup; destruct Hup as [Hup | []]; discriminate Hup |]).
    destruct Hn. }
  destruct Hwhere as [Hsetup | (repo & pushed & commit_hash & Hend)].
  2: { exfalso. destruct pushed; cbn in Hend;
       repeat (destruct Hend as [Hend | Hend]; try discriminate Hend);
       destruct Hend. }
  unfold setup, preparation in Hsetup. cbn [app In] in Hsetup.
  destruct Hsetup as [H | [H | [H | [H | [H | [H | [H | H]]]]]]];
    try discriminate H.
  - left. injection H as <- <-.
    unfold destination_repo_dir, target_dir.
    rewrite !steps_path_join by (apply Hname; cbn; tauto).
    rewrite <- !app_assoc. split; reflexivity.
  - right. apply rename_in_moves in H as (source & destination & Hm & -> & ->).
    cbn [accepted_inputs sync_paths] in Hm.
    exists source, destination. split; [exact Hm |].
    apply in_mappings_of in Hm as (line & _ & Hline).
    apply parse_line_mapping_safe in Hline as (Hs & Hd).
    unfold source_repo_dir, target_dir.
    rewrite !steps_path_join
      by (first [now apply safe_path_descends | apply Hname; cbn; tauto]).
    rewrite <- !app_assoc. split; reflexivity.
Qed.

(** The rename of the mapping of the test suite. *)
Lemma renames_stay_inside_the_temporary_directory_witness :
  let svc := TestEnv.test_services TestEnv.test_scenario in
  exists temp_dir,
    fst (makeTempDirectory svc TestEnv.initial_volume) = Success temp_dir
    /\ ((MemFs.steps "/tmp/cross-repo-sync/source_repo/test-sync-paths"
         = MemFs.steps temp_dir ++ ["destination_repo"; ".git"]
         /\ MemFs.steps "/tmp/cross-repo-sync/target/test-sync-paths"
            = MemFs.steps temp_dir ++ ["target"; ".git"])
        \/ exists source destination,
             In (source, destination)
               (mappings_of (split newline (get_input svc "sync_paths" true)))
             /\ MemFs.steps "/tmp/cross-repo-sync/source_repo/test-sync-paths"
                = MemFs.steps temp_dir ++ "source_repo" :: MemFs.steps source
             /\ MemFs.steps "/tmp/cross-repo-sync/target/test-sync-paths"
                = MemFs.steps temp_dir ++ "target" :: MemFs.steps destination).
Proof.
  intros svc.
  refine (renames_stay_inside_the_temporary_directory svc
            TestEnv.initial_volume _ _ _).
  vm_compute. tauto.
Defined.

(** ** [move_paths] on the volume of the test suite *)

Section MoveFacts.
Import MemFs TestEnv.

Lemma get_del_self (p : list string) (n : node) :
  p <> [] -> get p (del p n) = None.
Proof.
  revert n. induction p as [| s p IH]; intros n Hne; [contradiction |].
  destruct n as [| es]; [reflexivity |].
  destruct p as [| t p].
  - rewrite del_single, get_cons. now rewrite lookup_delete_eq.
  - rewrite del_deeper. destruct (es !! s) as [c |] eqn:Es.
    + rewrite get_cons, lookup_insert_eq. now apply IH.
    + now rewrite get_cons, Es.
Qed.

(** A rename leaves nothing at the old path when the new path is
    elsewhere. *)
Lemma rename_unlinks (posix : bool) (src dst : list string)
    (root root' : node) :
  rename posix src dst root = inr root' -> unrelated dst src ->
  get src root' = None.
Proof.
  unfold rename.
  destruct (get src root) as [moved |] eqn:Esrc; [| discriminate].
  destruct (if posix then posix_refuses src dst moved root else None);
    [discriminate |].
  destruct (put dst moved (del src root)) as [r |] eqn:Eput; [| discriminate].
  intros [= <-] Hrel.
  rewrite (get_put_unrelated _ _ _ _ _ Eput Hrel).
  apply get_del_self. intros ->. destruct Hrel as [_ H]. apply H, prefix_nil.
Qed.

(** What one turn of the loop does to the volume, whether it succeeds or
    not. *)
Lemma move_one_volume_cases (sc : Scenario)
    (source destination source_clone_dir destination_clone_dir : string)
    (st : State node TestGitRepo) :
  let mapping := (source, destination) in
  let result :=
    move_one (test_services sc) source destination source_clone_dir
      destination_clone_dir st in
  (mkdirp (made_location destination_clone_dir mapping) (world st) = None
   /\ fst result = Failure (Platform (FsFailure ENOTDIR))
   /\ world (snd result) = world st)
  \/ exists made,
       mkdirp (made_location destination_clone_dir mapping) (world st)
       = Some made
       /\ ((exists e,
              rename (posix_rename sc)
                (source_location source_clone_dir mapping)
                (destination_location destination_clone_dir mapping) made
              = inl e
              /\ fst result = Failure (Platform (FsFailure e))
              /\ world (snd result) = made)
           \/ (rename (posix_rename sc)
                 (source_location source_clone_dir mapping)
                 (destination_location destination_clone_dir mapping) made
               = inr (world (snd result))
               /\ fst result = Success tt)).
Proof.
  intros mapping result. subst result.
  unfold move_one, and_then, call. cbn [test_services makeDirectory fs_rename].
  unfold test_makeDirectory, test_rename, of_option.
  unfold made_location, source_location, destination_location, mapping.
  cbn [fst snd].
  destruct (mkdirp _ (world st)) as [made |]; cbn [fst snd world].
  - right. exists made. split; [reflexivity |].
    destruct (rename _ _ _ made) as [e | vol'] eqn:Erename; cbn [fst snd world].
    + left. exists e. auto.
    + right. auto.
  - left. auto.
Qed.

Lemma move_one_frame (sc : Scenario)
    (source destination source_clone_dir destination_clone_dir : string)
    (st : State node TestGitRepo) (q : list string) :
  untouched_by source_clone_dir destination_clone_dir q (source, destination) ->
  get q (world (snd (move_one (test_services sc) source destination
                       source_clone_dir destination_clone_dir st)))
  = get q (world st).
Proof.
  intros (Hsrc & Hdst & Hdir).
  destruct (move_one_volume_cases sc source destination source_clone_dir
              destination_clone_dir st)
    as [(_ & _ & ->) | (made & Hmade & [(e & _ & _ & ->) | (Hmv & _)])].
  - reflexivity.
  - apply (get_mkdirp _ _ _ _ Hmade Hdir).
  - apply rename_moves in Hmv as (_ & _ & Hkeep).
    rewrite (Hkeep q Hsrc Hdst). apply (get_mkdirp _ _ _ _ Hmade Hdir).
Qed.

End MoveFacts.

(** X13: on the volume of the test suite, [move_paths] changes nothing at
    a location that no mapping has to do with, whether it succeeds or
    stops at a failure: what such a location holds after the loop is what
    it held before. *)
Theorem move_paths_changes_only_the_mapped_paths (sc : TestEnv.Scenario)
    (inputs : ActionInputs) (source_clone_dir destination_clone_dir : string)
    (vol : MemFs.node) (q : list string) :
  Forall (untouched_by source_clone_dir destination_clone_dir q)
    (sync_paths inputs) ->
  MemFs.get q
    (world (snd (run (move_paths (TestEnv.test_services sc) inputs
                        source_clone_dir destination_clone_dir) vol)))
  = MemFs.get q vol.
Proof.
  unfold run, move_paths. generalize (@nil (Event TestEnv.TestGitRepo)).
  revert vol. induction (sync_paths inputs) as [| [source destination] paths IH];
    intros vol tr Hall; [reflexivity |].
  inversion Hall as [| ? ? Hone Hrest]; subst.
  rewrite move_each_cons. unfold and_then.
  pose proof (move_one_frame sc source destination source_clone_dir
                destination_clone_dir {| world := vol; trace := tr |} q Hone)
    as Hframe.
  destruct (move_one _ _ _ _ _ _) as [[[] | e] [vol1 tr1]];
    cbn [snd world] in Hframe |- *.
  - rewrite (IH vol1 tr1 Hrest). exact Hframe.
  - exact Hframe.
Qed.

(** The history in the target is not touched by two mappings, the second
    of which fails. *)
Lemma move_paths_changes_only_the_mapped_paths_witness :
  MemFs.get ["tmp"; "cross-repo-sync"; "target"; ".git"]
    (world (snd (run (move_paths
                        (TestEnv.test_services (TestEnv.scenario_with_rename true))
                        (TestEnv.inputs_with [("d/f", "x"); ("missing", "y")])
                        "/tmp/cross-repo-sync/source_repo"
                        "/tmp/cross-repo-sync/target")
                   TestEnv.nested_volume)))
  = Some MemFs.empty_dir.
Proof.
  refine (move_paths_changes_only_the_mapped_paths
            (TestEnv.scenario_with_rename true)
            (TestEnv.inputs_with [("d/f", "x"); ("missing", "y")])
            "/tmp/cross-repo-sync/source_repo" "/tmp/cross-repo-sync/target"
            TestEnv.nested_volume
            ["tmp"; "cross-repo-sync"; "target"; ".git"] _).
  repeat constructor;
    try (apply (bool_decide_unpack _); vm_compute; reflexivity).
Defined.

(** X14: one turn of the loop of [move_paths] moves, it does not copy. On
    the volume of the test suite, when the turn succeeds and source and
    destination are apart, the source existed, the destination holds
    afterwards what the source held before, and nothing is left at the
    source: the source clone loses what is synchronised. *)
Theorem a_mapping_moves_what_its_source_holds (sc : TestEnv.Scenario)
    (source destination source_clone_dir destination_clone_dir : string)
    (st st' : State MemFs.node TestEnv.TestGitRepo) :
  let mapping := (source, destination) in
  let src := source_location source_clone_dir mapping in
  let dst := destination_location destination_clone_dir mapping in
  MemFs.unrelated dst src ->
  ~ src `prefix_of` made_location destination_clone_dir mapping ->
  move_one (TestEnv.test_services sc) source destination source_clone_dir
    destination_clone_dir st
  = (Success tt, st') ->
  is_Some (MemFs.get src (world st))
  /\ MemFs.get dst (world st') = MemFs.get src (world st)
  /\ MemFs.get src (world st') = None.
Proof.
  intros mapping src dst Hrel Hdir Hrun.
  apply move_one_volume in Hrun as (made & Hmade & Hmv & _).
  change (MemFs.rename (TestEnv.posix_rename sc) src dst made
          = inr (world st')) in Hmv.
  pose proof (rename_unlinks _ _ _ _ _ Hmv Hrel) as Hgone.
  apply rename_moves in Hmv as (Hdst & Hsome & _).
  rewrite (get_mkdirp _ _ _ _ Hmade Hdir) in Hdst, Hsome.
  auto.
Qed.

(** A directory of the source clone moved to a new directory of the
    target. *)
Lemma a_mapping_moves_what_its_source_holds_witness :
  let result :=
    move_one (TestEnv.test_services (TestEnv.scenario_with_rename true))
      "d" "docs/d" "/tmp/cross-repo-sync/source_repo"
      "/tmp/cross-repo-sync/target"
      {| world := TestEnv.nested_volume; trace := [] |} in
  MemFs.get ["tmp"; "cross-repo-sync"; "target"; "docs"; "d"]
    (world (snd result))
  = Some TestEnv.nested_source
  /\ MemFs.get ["tmp"; "cross-repo-sync"; "source_repo"; "d"]
       (world (snd result))
     = None.
Proof.
  intros result.
  refine (proj2 (a_mapping_moves_what_its_source_holds
            (TestEnv.scenario_with_rename true) "d" "docs/d"
            "/tmp/cross-repo-sync/source_repo" "/tmp/cross-repo-sync/target"
            {| world := TestEnv.nested_volume; trace := [] |}
            (snd result) _ _ _)).
  - split; apply (bool_decide_unpack _); vm_compute; reflexivity.
  - apply (bool_decide_unpack _); vm_compute; reflexivity.
  - vm_compute. reflexivity.
Defined.
(** ** The git layer of [main.ts] *)

Import Live Platform.

Section LiveFacts.
Context {P E : Type} (host : Host P E).

Ltac run_host :=
  match goal with
  | |- context [executor_string host ?c ?p] =>
      destruct (executor_string host c p) as [[? | ?] ?]
  | |- context [node_makeTempDirectory host ?p] =>
      destruct (node_makeTempDirectory host p) as [[? | ?] ?]
  | |- context [node_makeDirectory host ?d ?p] =>
      destruct (node_makeDirectory host d p) as [[? | ?] ?]
  | |- context [node_rename host ?a ?b ?p] =>
      destruct (node_rename host a b p) as [[? | ?] ?]
  end;
  cbn [fst snd world trace commands platform].

(** With the git layer of [main.ts], the steps past the dry-run gate stop
    at [repo_from_path] at the latest. *)
Lemma live_sync (inputs : ActionInputs) (st : State (World P) GitRepoLive) :
  let result := sync (services host) inputs st in
  (exists e, fst result = Failure (Platform e))
  /\ exists temp_dir evs rest ran left,
       trace (snd result) = trace st ++ evs
       /\ evs ++ rest = preparation inputs temp_dir
       /\ commands (world (snd result)) = commands (world st) ++ ran
       /\ ran ++ left = preparation_commands inputs temp_dir.
Proof.
  cbv zeta.
  unfold sync, configureGit, clone_repo, and_then, call.
  cbn [services makeTempDirectory makeDirectory fs_rename git_config git_clone
       repo_from_path].
  unfold on_platform, GitLive_config, GitLive_clone, GitLive_repo_from_path,
    next, string_of, done.
  destruct st as [[ran0 p0] tr0].
  cbn [fst snd world trace commands platform].
  destruct (node_makeTempDirectory host p0) as [[temp_dir | e] p1];
    cbn [fst snd world trace commands platform].
  2: { split; [eauto |]. exists EmptyString, [FsMakeTempDirectory].
       eexists. exists []. eexists.
       split; [reflexivity |]. split; [reflexivity |].
       split; [symmetry; apply app_nil_r | reflexivity]. }
  repeat run_host;
    (split; [eauto |]);
    exists temp_dir;
    rewrite <- ?app_assoc; cbn [app];
    eexists; eexists; eexists; eexists;
    (split; [reflexivity |]); (split; [reflexivity |]);
    (split; reflexivity).
Qed.

End LiveFacts.

Section LiveRunFacts.
Context {P E : Type} (host : Host P E).

Lemma past_the_setup_preparation (inputs : ActionInputs) (temp_dir : string)
    (evs rest : list (Event GitRepoLive)) :
  evs ++ rest = preparation inputs temp_dir ->
  Forall (fun ev => past_the_setup ev = false) evs.
Proof.
  intros H. apply (Forall_app_l _ _ rest). rewrite H. repeat constructor.
Qed.

Lemma past_the_setup_introduction (inputs : ActionInputs)
    (warnings : list Message) :
  Forall (fun ev : Event GitRepoLive => past_the_setup ev = false)
    (introduction inputs warnings).
Proof.
  unfold introduction. constructor; [reflexivity |].
  apply Forall_app_2; [now apply Forall_map_all |].
  apply Forall_app_2; [now apply Forall_map_all |].
  apply Forall_app_2; [repeat constructor |].
  now apply Forall_map_all.
Qed.

End LiveRunFacts.

(** X15: with the git layer that [main.ts] provides, a run of [program]
    never reaches [commit_and_push]. [repo_from_path] is [null] there, so a
    run past the dry-run gate stops at that call at the latest: a run
    succeeds exactly when its inputs are accepted and it is a dry run; no
    run makes a call on a repository or sets the output; and the commands
    that are run are, in order, among the two [git config] and the two
    [git clone] commands. *)
Theorem live_run_stops_before_commit_and_push {P E : Type}
    (host : Host P E) (p : P) :
  let svc := services host in
  let result := run (program svc) {| commands := []; platform := p |} in
  (fst result = Success tt <->
   fst (parse_inputs svc
          {| world := {| commands := []; platform := p |}; trace := [] |})
   = Success (accepted_inputs svc)
   /\ getInput host "dry_run" false = "true")
  /\ Forall (fun ev => past_the_setup ev = false) (trace (snd result))
  /\ exists temp_dir,
       commands (world (snd result))
       `prefix_of` preparation_commands (accepted_inputs svc) temp_dir.
Proof.
  intros svc result. subst result.
  destruct (program_cases svc {| commands := []; platform := p |})
    as [(v & warnings & Hparse & Hrun) | (Hparse & Hcases)].
  - cbv zeta in Hparse, Hrun. rewrite Hrun. cbn [fst snd trace world commands].
    split; [| split].
    + split; [discriminate |]. intros [H _].
      rewrite Hparse in H. discriminate H.
    + constructor; [reflexivity | now apply Forall_map_all].
    + exists EmptyString. apply prefix_nil.
  - destruct Hcases as [(Hflag & Hrun) | (Hflag & Hrun)]; rewrite Hrun.
    + cbn [fst snd trace world commands]. split; [| split].
      * split; [intros _ | reflexivity]. split; [exact Hparse |].
        now apply String.eqb_eq.
      * apply Forall_app_2; [apply past_the_setup_introduction |].
        repeat constructor.
      * exists EmptyString. apply prefix_nil.
    + destruct (live_sync host (accepted_inputs svc)
                  {| world := {| commands := []; platform := p |};
                     trace := introduction (accepted_inputs svc)
                                (read_warnings svc) |})
        as ((e & Hfail) & temp_dir & evs & rest & ran & left
            & Htrace & Hevs & Hran & Hleft).
      fold svc in Hfail, Htrace, Hran. cbn [trace world commands] in Htrace, Hran.
      split; [| split].
      * rewrite Hfail. split; [discriminate |]. intros [_ Hdry].
        apply String.eqb_eq in Hdry.
        change (dry_run (accepted_inputs svc) = true) in Hdry. congruence.
      * rewrite Htrace. apply Forall_app_2.
        -- apply past_the_setup_introduction.
        -- exact (past_the_setup_preparation _ _ _ _ Hevs).
      * exists temp_dir. rewrite Hran. cbn [app]. exists left. now rewrite Hleft.
Qed.

(** X16: on a [GitRepoLive], [commit_and_push] runs its git commands in the
    directory of the repository and in the order [git status],
    [git add .], [git commit -m] with the fixed message, [git push],
    [git rev-parse HEAD], stopping at the first that fails. It succeeds
    with the empty string after [git status] alone when that printed
    nothing but white space; it succeeds with what [git rev-parse] printed
    after all five otherwise; and when it fails, every command it ran but
    the last succeeded, the last is the one the executor failed on, with
    the error that is reported, and nothing was run after it. *)
Theorem commit_and_push_runs_git_in_the_repository {P E : Type}
    (host : Host P E) (repo : GitRepoLive)
    (st : State (World P) GitRepoLive) :
  let result := commit_and_push (services host) repo st in
  let run_from := executed (executor_string host) in
  let p := platform (world st) in
  let p' := platform (world (snd result)) in
  exists ran left,
    commands (world (snd result)) = commands (world st) ++ ran
    /\ ran ++ left = publication_commands repo
    /\ ran <> []
    /\ match fst result with
       | Success commit_hash =>
           exists outputs,
             run_from ran p = (Success outputs, p')
             /\ ((exists status,
                    outputs = [status]
                    /\ is_empty (trim status) = true
                    /\ length ran = 1
                    /\ commit_hash = EmptyString)
                 \/ (exists status added committed pushed hash,
                       outputs = [status; added; committed; pushed; hash]
                       /\ is_empty (trim status) = false
                       /\ left = []
                       /\ commit_hash = hash))
       | Failure e =>
           exists before failed outputs at_failure pe,
             ran = before ++ [failed]
             /\ run_from before p = (Success outputs, at_failure)
             /\ executor_string host failed at_failure = (Failure pe, p')
             /\ e = Platform (PlatformError pe)
       end.
Proof.
  cbv zeta. unfold commit_and_push, and_then, call, record, succeed.
  cbn [services repo_status repo_add repo_commit repo_push repo_rev_parse].
  unfold GitRepoLive_status, GitRepoLive_add, GitRepoLive_commit,
    GitRepoLive_push, GitRepoLive_rev_parse, next, string_of, done.
  destruct st as [[ran0 p0] tr0].
  cbn [fst snd world trace commands platform].
  destruct (executor_string host _ p0) as [[status | e] p1] eqn:E1;
    cbn [fst snd world trace commands platform].
  2: { eexists [_], _. split; [reflexivity |]. split; [reflexivity |].
       split; [discriminate |].
       eexists [], _, [], p0, e. cbn [app executed]. auto. }
  destruct (is_empty (trim status)) eqn:Hstatus;
    cbn [fst snd world trace commands platform].
  { eexists [_], _. split; [reflexivity |]. split; [reflexivity |].
    split; [discriminate |].
    exists [status]. cbn [executed]. rewrite E1. split; [reflexivity |].
    left. exists status. auto. }
  destruct (executor_string host _ p1) as [[added | e] p2] eqn:E2;
    cbn [fst snd world trace commands platform].
  2: { rewrite <- ?app_assoc. cbn [app].
       eexists [_; _], _. split; [reflexivity |]. split; [reflexivity |].
       split; [discriminate |].
       eexists [_], _, [status], p1, e. cbn [app executed]. rewrite E1. auto. }
  destruct (executor_string host _ p2) as [[committed | e] p3] eqn:E3;
    cbn [fst snd world trace commands platform].
  2: { rewrite <- ?app_assoc. cbn [app].
       eexists [_; _; _], _. split; [reflexivity |]. split; [reflexivity |].
       split; [discriminate |].
       eexists [_; _], _, [status; added], p2, e. cbn [app executed].
       rewrite E1, E2. auto. }
  destruct (executor_string host _ p3) as [[pushed | e] p4] eqn:E4;
    cbn [fst snd world trace commands platform].
  2: { rewrite <- ?app_assoc. cbn [app].
       eexists [_; _; _; _], _. split; [reflexivity |]. split; [reflexivity |].
       split; [discriminate |].
       eexists [_; _; _], _, [status; added; committed], p3, e.
       cbn [app executed]. rewrite E1, E2, E3. auto. }
  destruct (executor_string host _ p4) as [[hash | e] p5] eqn:E5;
    cbn [fst snd world trace commands platform].
  2: { rewrite <- ?app_assoc. cbn [app].
       eexists [_; _; _; _; _], _. split; [reflexivity |].
       split; [reflexivity |]. split; [discriminate |].
       eexists [_; _; _; _], _, [status; added; committed; pushed], p4, e.
       cbn [app executed]. rewrite E1, E2, E3, E4. auto. }
  rewrite <- ?app_assoc. cbn [app].
  eexists [_; _; _; _; _], _. split; [reflexivity |].
  split; [reflexivity |]. split; [discriminate |].
  exists [status; added; committed; pushed; hash]. cbn [executed].
  rewrite E1, E2, E3, E4, E5. split; [reflexivity |].
  right. exists status, added, committed, pushed, hash. auto.
Qed.
(** ** The earlier [main.ts] *)

Import LegacyMain.

Section LegacyFacts.
Context {P PErr : Type} (host : LegacyMain.Host P PErr).

(** A run with more calls recorded. *)
Lemma bind_run {X A B} (m : Effect P X A) (k : A -> Effect P X B)
    (st : Run P) :
  (m ≫= k) st
  = match m st with
    | (Success a, st') => k a st'
    | (Failure e, st') => (Failure e, st')
    end.
Proof. reflexivity. Qed.

Lemma lastIndexOf_cons (c d : ascii) (s : string) :
  lastIndexOf c (String d s)
  = match lastIndexOf c s with
    | Some i => Some (S i)
    | None => if Ascii.eqb d c then Some 0 else None
    end.
Proof. reflexivity. Qed.

Lemma lastIndexOf_append (c : ascii) (a b : string) :
  lastIndexOf c (a +:+ String c b)
  = Some (String.length a
          + match lastIndexOf c b with
            | Some i => S i
            | None => 0
            end).
Proof.
  induction a as [| d a IH].
  - cbn [String.append String.length]. rewrite lastIndexOf_cons.
    destruct (lastIndexOf c b); [reflexivity |]. now rewrite Ascii.eqb_refl.
  - cbn [String.append String.length]. rewrite lastIndexOf_cons, IH.
    reflexivity.
Qed.

Lemma slice_to_append_more (a b : string) (n : nat) :
  slice_to (String.length a + n) (a +:+ b) = a +:+ slice_to n b.
Proof.
  induction a as [| d a IH]; [reflexivity |].
  cbn [String.length String.append Nat.add slice_to]. now rewrite IH.
Qed.

End LegacyFacts.

(** X23: in [copyFiles] the path of the destination always has a slash in
    it, the one between [cloneDir] and the destination, so the branch for
    a path without slash is never taken; the directory that is made is the
    clone directory followed by the destination up to its last slash, and
    the clone directory itself when the destination has no slash. *)
Theorem destDir_is_inside_the_clone (cloneDir destination : string) :
  lastIndexOf slash (cloneDir +:+ "/" +:+ destination) <> None
  /\ destDir cloneDir (cloneDir +:+ "/" +:+ destination)
     = match lastIndexOf slash destination with
       | Some i => cloneDir +:+ "/" +:+ slice_to i destination
       | None => cloneDir
       end.
Proof.
  change (cloneDir +:+ "/" +:+ destination)
    with (cloneDir +:+ String slash destination).
  unfold destDir. rewrite lastIndexOf_append. split; [discriminate |].
  rewrite slice_to_append_more.
  destruct (lastIndexOf slash destination) as [i |].
  - reflexivity.
  - cbn [slice_to]. apply append_empty_r.
Qed.


Section LegacyRuns.
Context {P PErr : Type} (host : LegacyMain.Host P PErr).

Lemma told_nil (st : Run P) : told st [] = st.
Proof. destruct st. unfold told. cbn. now rewrite app_nil_r. Qed.

Lemma told_told (st : Run P) (a b : list Call) :
  told (told st a) b = told st (a ++ b).
Proof. unfold told. cbn. now rewrite app_assoc. Qed.

Lemma tell_run {X} (c : Call) (st : Run P) :
  tell (X := X) c st = (Success tt, told st [c]).
Proof. reflexivity. Qed.

(** The loop of [parseInputs] is the loop of [parse_inputs]: the same
    mappings, the same warnings. *)
Lemma parse_lines_run (lines : list string) (acc : list (string * string))
    (st : Run P) :
  parse_lines (PErr := PErr) lines acc st
  = (Success (acc ++ mappings_of lines),
     told st (map (fun w => Warning (Kept w)) (warnings_of lines))).
Proof.
  revert acc st. induction lines as [| line lines IH]; intros acc st.
  - cbn. now rewrite app_nil_r, told_nil.
  - cbn [parse_lines]. unfold mappings_of, warnings_of. cbn [flat_map].
    fold (mappings_of lines). fold (warnings_of lines).
    unfold parse_line, unsafe_path.
    destruct (is_empty (trim line)); [apply IH |].
    destruct (indexOf colon (trim line)) as [colonIndex |].
    + rewrite <- !orb_assoc.
      destruct (includes _ _ || (startsWith _ _ || (includes _ _ || startsWith _ _))).
      * rewrite bind_run, tell_run, IH, told_told. reflexivity.
      * rewrite IH, <- app_assoc. reflexivity.
    + destruct (includes _ _ || startsWith _ _).
      * rewrite bind_run, tell_run, IH, told_told. reflexivity.
      * rewrite IH, <- app_assoc. reflexivity.
Qed.

Lemma parseInputs_run (st : Run P) :
  parseInputs host st =
  let personalAccessToken := getInput host "personal_access_token" true in
  let syncPathsInput := getInput host "sync_paths" true in
  let destinationRepo := getInput host "destination_repo" true in
  let dryRun := String.eqb (getInput host "dry_run" false) "true" in
  let masked := told st [SetSecret personalAccessToken] in
  if is_empty personalAccessToken then
    (Failure (Invalid TokenRequired), masked)
  else if is_empty destinationRepo then
    (Failure (Invalid DestinationRepoRequired), masked)
  else if negb (test_repo_format destinationRepo) then
    (Failure (Invalid (InvalidRepositoryFormat destinationRepo)), masked)
  else if is_empty (trim syncPathsInput) then
    (Failure (Invalid SyncPathsRequired), masked)
  else
    let lines := split newline syncPathsInput in
    let parsed :=
      told st (SetSecret personalAccessToken
               :: map (fun w => Warning (Kept w)) (warnings_of lines)) in
    if (length (mappings_of lines) =? 0)%nat then
      (Failure (Invalid NoValidSyncPaths), parsed)
    else
      (Success {|
         Legacy.personalAccessToken := personalAccessToken;
         Legacy.syncPaths := mappings_of lines;
         Legacy.destinationRepo := destinationRepo;
         Legacy.dryRun := dryRun;
       |}, parsed).
Proof.
  unfold parseInputs. cbv zeta. rewrite bind_run, tell_run.
  destruct (is_empty (getInput host "personal_access_token" true));
    [reflexivity |].
  destruct (is_empty (getInput host "destination_repo" true));
    [reflexivity |].
  destruct (negb (test_repo_format _)); [reflexivity |].
  destruct (is_empty (trim _)); [reflexivity |].
  rewrite bind_run, parse_lines_run, told_told. cbn [app].
  destruct (length _ =? 0)%nat; reflexivity.
Qed.

End LegacyRuns.


(** X17: the rewrite of [main.ts] into [program.ts] kept the parser. On
    the same inputs, [parse_inputs] accepts exactly when [parseInputs]
    accepts and [source_repo] is not empty; what [parseInputs] returns is
    the token, the mappings, the destination repository and the dry-run
    flag that [parse_inputs] returns; and when [parse_inputs] accepts, both
    have masked the token and given the same warnings in the same
    order. *)
Theorem the_rewrite_kept_the_parser {P PErr W Repo PErr' : Type}
    (host : LegacyMain.Host P PErr) (svc : Services W Repo PErr')
    (st : Run P) (st2 : State W Repo) :
  (forall name required,
     getInput host name required = get_input svc name required) ->
  let old := parseInputs host st in
  let new := parse_inputs svc st2 in
  ((exists inputs, fst new = Success inputs)
   <-> (exists inputs, fst old = Success inputs)
       /\ get_input svc "source_repo" true <> EmptyString)
  /\ (forall inputs,
        fst old = Success inputs ->
        Legacy.personalAccessToken inputs
        = personal_access_token (accepted_inputs svc)
        /\ Legacy.syncPaths inputs = sync_paths (accepted_inputs svc)
        /\ Legacy.destinationRepo inputs
           = destination_repo (accepted_inputs svc)
        /\ Legacy.dryRun inputs = dry_run (accepted_inputs svc))
  /\ (forall inputs,
        fst new = Success inputs ->
        calls (snd old)
        = calls st
          ++ SetSecret (personal_access_token inputs)
          :: map (fun w => Warning (Kept w)) (read_warnings svc)
        /\ trace (snd new)
           = trace st2
             ++ CoreSetSecret (personal_access_token inputs)
             :: map CoreWarning (read_warnings svc)).
Proof.
  intros Hsame old new. subst old new.
  rewrite parseInputs_run, parse_inputs_run. cbv zeta.
  rewrite !Hsame. unfold accepted_inputs, read_warnings.
  cbn [personal_access_token sync_paths destination_repo dry_run].
  assert (Hrefused :
    forall (A B : Type) (e1 : Failed PErr) (e2 : Error PErr') (s1 : Run P)
           (s2 : State W Repo) (Q1 : A -> Prop) (Q2 : B -> Prop),
      let old : Exit (Failed PErr) A * Run P := (Failure e1, s1) in
      let new : Exit (Error PErr') B * State W Repo := (Failure e2, s2) in
      ((exists inputs, fst new = Success inputs)
       <-> (exists inputs, fst old = Success inputs)
           /\ get_input svc "source_repo" true <> EmptyString)
      /\ (forall inputs, fst old = Success inputs -> Q1 inputs)
      /\ (forall inputs, fst new = Success inputs -> Q2 inputs)).
  { intros. subst old new. cbn [fst]. split; [split |].
    - intros (? & [=]).
    - intros [(? & [=]) _].
    - split; intros ? [=]. }
  destruct (is_empty (get_input svc "personal_access_token" true));
    [apply Hrefused |].
  destruct (is_empty (get_input svc "destination_repo" true));
    [apply Hrefused |].
  destruct (negb (test_repo_format (get_input svc "destination_repo" true))).
  { destruct (is_empty (get_input svc "source_repo" true)); apply Hrefused. }
  destruct (is_empty (trim (get_input svc "sync_paths" true))).
  { destruct (is_empty (get_input svc "source_repo" true)); apply Hrefused. }
  destruct (length _ =? 0)%nat.
  { destruct (is_empty (get_input svc "source_repo" true)); apply Hrefused. }
  clear Hrefused. cbn [fst snd].
  destruct (is_empty (get_input svc "source_repo" true)) eqn:Hsource.
  - apply is_empty_true in Hsource. split; [split |].
    + intros (? & [=]).
    + intros [_ H]. contradiction.
    + split; [| intros ? [=]].
      intros ? [= <-]. repeat split.
  - apply is_empty_false in Hsource. split; [split |].
    + eauto.
    + eauto.
    + split; intros ? [= <-]; repeat split.
Qed.

(** The inputs of the test suite. *)
Lemma the_rewrite_kept_the_parser_witness :
  Legacy.syncPaths
    {| Legacy.personalAccessToken := "test-personal-access-token";
       Legacy.syncPaths := [("test-sync-paths", "test-sync-paths")];
       Legacy.destinationRepo := "test-owner/test-destination-repo";
       Legacy.dryRun := false |}
  = sync_paths (accepted_inputs (TestEnv.test_services TestEnv.test_scenario)).
Proof.
  refine (proj1 (proj2 (proj1 (proj2
    (the_rewrite_kept_the_parser (idle_host TestEnv.test_inputs)
       (TestEnv.test_services TestEnv.test_scenario)
       {| platform := tt; calls := [] |}
       {| world := TestEnv.initial_volume; trace := [] |}
       (fun _ _ => eq_refl))) _ eq_refl))).
Defined.


Section LegacyProgramFacts.
Context {P PErr : Type} (host : LegacyMain.Host P PErr).

Lemma info_lines_run (paths : list (string * string)) (index : nat)
    (st : Run P) :
  info_lines (PErr := PErr) paths index st
  = (Success tt,
     told st (map (fun m => Info (Kept m)) (sync_path_lines paths index))).
Proof.
  revert index st. induction paths as [| [s d] paths IH]; intros index st.
  - cbn. now rewrite told_nil.
  - cbn [info_lines sync_path_lines map]. rewrite bind_run, tell_run, IH.
    now rewrite told_told.
Qed.

Lemma executeCommand_run (command : string) (args : list string)
    (cwd : option string) (st : Run P) :
  executeCommand host command args cwd st
  = let cmd := with_cwd cwd (make command args) in
    match command_string host cmd (platform st) with
    | (Success result, p) =>
        (Success (trim result),
         {| platform := p; calls := calls st ++ [Execute cmd] |})
    | (Failure error, p) =>
        (Failure (CommandFailed command args error),
         {| platform := p; calls := calls st ++ [Execute cmd] |})
    end.
Proof.
  unfold executeCommand. cbv zeta. rewrite bind_run. unfold mapError, ask.
  destruct (command_string host _ (platform st)) as [[result | error] p];
    reflexivity.
Qed.

Lemma records_ret {X A} (Q : Call -> Prop) (a : A) :
  records (P := P) (X := X) Q (mret a).
Proof. intros st. exists []. cbn. now rewrite app_nil_r. Qed.

Lemma records_fail {X A} (Q : Call -> Prop) (e : X) :
  records (P := P) (A := A) Q (fail e).
Proof. intros st. exists []. cbn. now rewrite app_nil_r. Qed.

Lemma records_tell {X} (Q : Call -> Prop) (c : Call) :
  Q c -> records (P := P) (X := X) Q (tell c).
Proof. intros Hc st. exists [c]. auto. Qed.

Lemma records_ask {A} (Q : Call -> Prop) (c : Call)
    (op : P -> Exit PErr A * P) :
  Q c -> records Q (ask c op).
Proof.
  intros Hc st. exists [c]. unfold ask.
  destruct (op (platform st)) as [[] ?]; auto.
Qed.

Lemma records_bind {X A B} (Q : Call -> Prop) (m : Effect P X A)
    (k : A -> Effect P X B) :
  records Q m -> (forall a, records Q (k a)) -> records Q (m ≫= k).
Proof.
  intros Hm Hk st. rewrite bind_run. destruct (Hm st) as (cs1 & H1 & HQ1).
  destruct (m st) as [[a | e] st1]; cbn [snd] in H1.
  - destruct (Hk a st1) as (cs2 & H2 & HQ2). exists (cs1 ++ cs2).
    rewrite H2, H1, app_assoc. split; [reflexivity |]. now apply Forall_app_2.
  - now exists cs1.
Qed.

Lemma records_mapError {X Y A} (Q : Call -> Prop) (f : X -> Y)
    (m : Effect P X A) :
  records Q m -> records Q (mapError f m).
Proof.
  intros Hm st. destruct (Hm st) as (cs & H & HQ). exists cs. unfold mapError.
  now destruct (m st) as [[] ?].
Qed.

Lemma records_ignore {X Y A} (Q : Call -> Prop) (m : Effect P X A) :
  records Q m -> records Q (ignore (Y := Y) m).
Proof.
  intros Hm st. destruct (Hm st) as (cs & H & HQ). exists cs. unfold ignore.
  now destruct (m st) as [[] ?].
Qed.

Lemma records_weaken {X A} (Q Q' : Call -> Prop) (m : Effect P X A) :
  (forall c, Q c -> Q' c) -> records Q m -> records Q' m.
Proof.
  intros HQ Hm st. destruct (Hm st) as (cs & H & Hcs). exists cs.
  split; [exact H |]. eapply Forall_impl; eauto.
Qed.

End LegacyProgramFacts.


Section LegacyExtends.
Context {P PErr : Type} (host : LegacyMain.Host P PErr).

Lemma extends_executeCommand (command : string) (args : list string)
    (cwd : option string) :
  records (fun _ => True) (executeCommand host command args cwd).
Proof.
  unfold executeCommand. cbv zeta.
  apply records_bind; [apply records_mapError, records_ask; exact I |].
  intros result. apply records_ret.
Qed.

Lemma extends_configureGit (config : Legacy.GitConfig) :
  records (fun _ => True) (configureGit host config).
Proof.
  unfold configureGit.
  repeat (apply records_bind; [apply extends_executeCommand | intros _]).
  apply records_ret.
Qed.

Lemma extends_cloneRepo (inputs : Legacy.ActionInputs) (tempDir : string) :
  records (fun _ => True) (cloneRepo host inputs tempDir).
Proof.
  unfold cloneRepo.
  apply records_bind; [apply records_ignore, records_ask; exact I | intros _].
  apply records_bind; [apply records_ignore, records_ask; exact I | intros _].
  apply records_bind; [apply extends_executeCommand | intros _].
  apply records_ret.
Qed.

Lemma extends_copyDirectoryRecursive (fuel : nat) (source dest : string) :
  records (fun _ => True) (copyDirectoryRecursive host fuel source dest).
Proof.
  revert source dest. induction fuel as [| fuel IH]; intros source dest.
  - apply records_fail.
  - cbn [copyDirectoryRecursive].
    apply records_bind; [apply records_mapError, records_ask; exact I | intros _].
    apply records_bind; [apply records_mapError, records_ask; exact I |].
    intros entries. induction entries as [| entry entries IHe].
    + apply records_ret.
    + apply records_bind; [apply records_mapError, records_ask; exact I |].
      intros entryInfo. apply records_bind; [| intros _; exact IHe].
      destruct (is_Directory entryInfo);
        [apply IH | apply records_mapError, records_ask; exact I].
Qed.

Lemma extends_copy_each (fuel : nat) (syncPaths : list (string * string))
    (cloneDir : string) :
  records (fun _ => True) (copy_each host fuel syncPaths cloneDir).
Proof.
  induction syncPaths as [| [source destination] rest IH].
  - apply records_ret.
  - cbn [copy_each].
    apply records_bind; [apply records_mapError, records_ask; exact I |].
    intros sourceExists. destruct (negb sourceExists).
    + apply records_bind; [apply records_tell; exact I | intros _; exact IH].
    + apply records_bind; [apply records_ignore, records_ask; exact I | intros _].
      apply records_bind; [apply records_mapError, records_ask; exact I |].
      intros sourceInfo. apply records_bind.
      * destruct (is_Directory sourceInfo).
        -- apply records_mapError, extends_copyDirectoryRecursive.
        -- apply records_mapError, records_ask; exact I.
      * intros _. apply records_bind; [apply records_tell; exact I | intros _].
        exact IH.
Qed.

Lemma extends_commitAndPush (cloneDir : string) :
  records (fun _ => True) (commitAndPush host cloneDir).
Proof.
  unfold commitAndPush.
  apply records_bind; [apply extends_executeCommand |].
  intros status. destruct (is_empty (trim status)).
  - apply records_bind; [apply records_tell; exact I | intros _; apply records_ret].
  - repeat (apply records_bind; [apply extends_executeCommand | intros ?]).
    apply records_bind; [apply records_tell; exact I | intros _; apply records_ret].
Qed.

Lemma bind_assoc {X A B C} (m : Effect P X A) (k1 : A -> Effect P X B)
    (k2 : B -> Effect P X C) (st : Run P) :
  ((m ≫= k1) ≫= k2) st = (m ≫= (fun a => k1 a ≫= k2)) st.
Proof. rewrite !bind_run. now destruct (m st) as [[] ?]. Qed.

(** A command that is run is recorded, whatever comes of it. *)
Lemma executeCommand_first {A} (command : string) (args : list string)
    (cwd : option string) (k : string -> Effect P (Failed PErr) A)
    (st : Run P) :
  (forall result, records (fun _ => True) (k result)) ->
  exists rest,
    calls (snd ((executeCommand host command args cwd ≫= k) st))
    = calls st ++ [Execute (with_cwd cwd (make command args))] ++ rest.
Proof.
  intros Hk. rewrite bind_run, executeCommand_run. cbv zeta.
  destruct (command_string host _ (platform st)) as [[result | e] p].
  - destruct (Hk (trim result)
                {| platform := p;
                   calls := calls st
                            ++ [Execute (with_cwd cwd (make command args))] |})
      as (cs & H & _).
    exists cs. rewrite H. cbn [calls]. now rewrite <- app_assoc.
  - exists []. reflexivity.
Qed.

Lemma extends_proceed_after_config (fuel : nat)
    (inputs : Legacy.ActionInputs) :
  records (fun _ => True)
    (cloneDir ← cloneRepo host inputs Legacy.tempDir;
     copyFiles host fuel inputs cloneDir;;
     commitHash ← commitAndPush host cloneDir;
     tell (SetOutput "commit_hash" commitHash);;
     ignore (ask (Remove Legacy.tempDir) (fs_remove host Legacy.tempDir));;
     tell (Info (Kept SyncCompleted))).
Proof.
  apply records_bind; [apply extends_cloneRepo | intros cloneDir].
  apply records_bind; [apply extends_copy_each | intros _].
  apply records_bind; [apply extends_commitAndPush | intros commitHash].
  apply records_bind; [apply records_tell; exact I | intros _].
  apply records_bind; [apply records_ignore, records_ask; exact I | intros _].
  apply records_tell; exact I.
Qed.

(** The steps after the dry-run notice begin with a change of the global
    git configuration. *)
Lemma proceed_first (fuel : nat) (inputs : Legacy.ActionInputs)
    (st : Run P) :
  exists rest,
    calls (snd (proceed host fuel inputs st))
    = calls st
      ++ [Execute
            (make "git"
               ["config"; "--global"; "user.name"; "github-actions[bot]"])]
      ++ rest.
Proof.
  unfold proceed, configureGit. cbv zeta. rewrite bind_assoc.
  apply (executeCommand_first "git" _ None).
  intros _. apply records_bind.
  - apply records_bind; [apply extends_executeCommand | intros _].
    apply records_ret.
  - intros _. apply extends_proceed_after_config.
Qed.

End LegacyExtends.

Section CloneFacts.
Context {P PErr : Type} (host : LegacyMain.Host P PErr).

Lemma cloneRepo_run (inputs : Legacy.ActionInputs) (tempDir : string)
    (st : Run P) :
  let cloneDir := tempDir +:+ "/destination-repo" in
  let clone :=
    make "git"
      ["clone";
       repoUrl (Legacy.personalAccessToken inputs)
         (Legacy.destinationRepo inputs);
       cloneDir] in
  let made := snd (fs_makeDirectory host tempDir (platform st)) in
  let cleared := snd (fs_remove host cloneDir made) in
  let recorded :=
    calls st ++ [MakeDirectory tempDir; Remove cloneDir; Execute clone] in
  cloneRepo host inputs tempDir st
  = match command_string host clone cleared with
    | (Success _, p) =>
        (Success cloneDir, {| platform := p; calls := recorded |})
    | (Failure error, p) =>
        (Failure (CommandFailed "git" (args clone) error),
         {| platform := p; calls := recorded |})
    end.
Proof.
  cbv zeta. unfold cloneRepo. cbv zeta.
  cbv beta iota zeta delta
    [mbind Effect_bind ignore ask executeCommand mapError mret Effect_ret
     with_cwd platform calls].
  destruct st as [p0 cs0].
  destruct (fs_makeDirectory host tempDir p0) as [[[] | e1] p1];
    cbn [snd];
    destruct (fs_remove host (tempDir +:+ "/destination-repo") p1)
      as [[[] | e2] p2];
    cbn [snd];
    match goal with
    | |- context [command_string host ?c p2] =>
        destruct (command_string host c p2) as [[output | e3] p3]
    end;
    cbn [snd args make];
    rewrite <- !app_assoc; reflexivity.
Qed.

End CloneFacts.

(** X22: [cloneRepo] always makes its three calls, the recursive mkdir
    of the temporary directory, the removal of the clone directory and
    [git clone], in this order; errors of the first two are dropped, and
    it fails exactly when the command fails, in which case the error
    names the command and its arguments. It returns the clone
    directory. *)
Theorem cloneRepo_fails_only_when_git_clone_fails {P PErr : Type}
    (host : LegacyMain.Host P PErr) (inputs : Legacy.ActionInputs)
    (tempDir : string) (st : Run P) :
  let cloneDir := tempDir +:+ "/destination-repo" in
  let clone :=
    make "git"
      ["clone";
       repoUrl (Legacy.personalAccessToken inputs)
         (Legacy.destinationRepo inputs);
       cloneDir] in
  let made := snd (fs_makeDirectory host tempDir (platform st)) in
  let cleared := snd (fs_remove host cloneDir made) in
  let result := cloneRepo host inputs tempDir st in
  calls (snd result)
  = calls st ++ [MakeDirectory tempDir; Remove cloneDir; Execute clone]
  /\ platform (snd result) = snd (command_string host clone cleared)
  /\ match fst (command_string host clone cleared) with
     | Success _ => fst result = Success cloneDir
     | Failure error =>
         fst result = Failure (CommandFailed "git" (args clone) error)
     end.
Proof.
  cbv zeta. rewrite cloneRepo_run. cbv zeta.
  destruct (command_string host _ _) as [[output | error] p];
    repeat split.
Qed.


(** X19: [copyFiles] does not fail on a source that does not exist. When
    no source exists it asks for each one, warns, and succeeds without
    another call on the file system; the program goes on to
    [commitAndPush]. *)
Theorem copyFiles_skips_sources_that_do_not_exist {P PErr : Type}
    (host : LegacyMain.Host P PErr) (fuel : nat)
    (inputs : Legacy.ActionInputs) (cloneDir : string) (st : Run P) :
  (forall source destination p,
     In (source, destination) (Legacy.syncPaths inputs) ->
     fs_exists host source p = (Success false, p)) ->
  copyFiles host fuel inputs cloneDir st
  = (Success tt, told st (skipped (Legacy.syncPaths inputs))).
Proof.
  unfold copyFiles. revert st.
  induction (Legacy.syncPaths inputs) as [| [source destination] rest IH];
    intros st Hmissing.
  - cbn. now rewrite told_nil.
  - cbn [copy_each skipped flat_map fst]. rewrite bind_run.
    unfold mapError, ask.
    rewrite (Hmissing source destination (platform st)) by now left.
    cbn [negb]. rewrite bind_run, tell_run.
    rewrite IH by (intros s d p Hin; apply (Hmissing s d); now right).
    unfold told. cbn [platform calls]. now rewrite <- !app_assoc.
Qed.

(** Two mappings on a platform where nothing exists. *)
Lemma copyFiles_skips_sources_that_do_not_exist_witness :
  let host : LegacyMain.Host unit unit :=
    {| getInput := fun _ _ => EmptyString;
       command_string := fun _ p => (Success EmptyString, p);
       fs_makeDirectory := fun _ p => (Success tt, p);
       fs_remove := fun _ p => (Success tt, p);
       fs_exists := fun _ p => (Success false, p);
       fs_stat := fun _ p => (Success File, p);
       fs_copy := fun _ _ p => (Success tt, p);
       fs_readDirectory := fun _ p => (Success [], p) |} in
  copyFiles host 1
    {| Legacy.personalAccessToken := "token";
       Legacy.syncPaths := [("docs", "content"); ("a.md", "a.md")];
       Legacy.destinationRepo := "owner/destination";
       Legacy.dryRun := false |}
    "/tmp/cross-repo-sync/destination-repo"
    {| platform := tt; calls := [] |}
  = (Success tt,
     {| platform := tt;
        calls := [Exists "docs"; Warning (SourceDoesNotExist "docs");
                  Exists "a.md"; Warning (SourceDoesNotExist "a.md")] |}).
Proof.
  intros host.
  exact (copyFiles_skips_sources_that_do_not_exist host 1
           {| Legacy.personalAccessToken := "token";
              Legacy.syncPaths := [("docs", "content"); ("a.md", "a.md")];
              Legacy.destinationRepo := "owner/destination";
              Legacy.dryRun := false |}
           "/tmp/cross-repo-sync/destination-repo"
           {| platform := tt; calls := [] |}
           (fun _ _ _ _ => eq_refl)).
Defined.

(** X20: [move_paths], unlike [copyFiles] before it, stops at a source
    that does not exist. On the volume of the test suite, when the source
    of the first mapping is missing the composition fails with ENOENT at
    the rename, after the directory for the destination was made, and the
    mappings after it are not applied. *)
Theorem a_missing_source_stops_move_paths (sc : TestEnv.Scenario)
    (source destination : string) (rest : list (string * string))
    (inputs : ActionInputs) (source_clone_dir destination_clone_dir : string)
    (vol made : MemFs.node) :
  let mapping := (source, destination) in
  let source_path := PosixPath.path_join source_clone_dir source in
  let destination_path :=
    PosixPath.path_join destination_clone_dir destination in
  sync_paths inputs = mapping :: rest ->
  MemFs.mkdirp (made_location destination_clone_dir mapping) vol = Some made ->
  MemFs.get (source_location source_clone_dir mapping) made = None ->
  run (move_paths (TestEnv.test_services sc) inputs source_clone_dir
         destination_clone_dir) vol
  = (Failure (Platform (TestEnv.FsFailure MemFs.ENOENT)),
     {| world := made;
        trace := [FsMakeDirectory (PosixPath.dirname destination_path);
                  FsRename source_path destination_path] |}).
Proof.
  intros mapping source_path destination_path Hpaths Hmade Hmissing.
  unfold run, move_paths. rewrite Hpaths. subst mapping.
  rewrite move_each_cons.
  unfold and_then at 1. unfold move_one, and_then, call.
  cbn [TestEnv.test_services makeDirectory fs_rename world trace].
  unfold TestEnv.test_makeDirectory, TestEnv.test_rename, TestEnv.of_option.
  unfold made_location, source_location in Hmade, Hmissing.
  cbn [fst snd] in Hmade, Hmissing.
  fold destination_path source_path. fold destination_path in Hmade.
  fold source_path in Hmissing.
  rewrite Hmade. cbn [world trace]. unfold MemFs.rename. rewrite Hmissing.
  reflexivity.
Qed.

(** A missing source before a mapping that could be applied. *)
Lemma a_missing_source_stops_move_paths_witness :
  fst (run (move_paths
              (TestEnv.test_services (TestEnv.scenario_with_rename true))
              (TestEnv.inputs_with [("missing", "y"); ("d", "x")])
              "/tmp/cross-repo-sync/source_repo"
              "/tmp/cross-repo-sync/target")
         TestEnv.nested_volume)
  = Failure (Platform (TestEnv.FsFailure MemFs.ENOENT)).
Proof.
  exact (f_equal fst
           (a_missing_source_stops_move_paths
              (TestEnv.scenario_with_rename true) "missing" "y" [("d", "x")]
              (TestEnv.inputs_with [("missing", "y"); ("d", "x")])
              "/tmp/cross-repo-sync/source_repo" "/tmp/cross-repo-sync/target"
              TestEnv.nested_volume TestEnv.nested_volume
              eq_refl eq_refl eq_refl)).
Defined.


Section EncodingFacts.

Lemma length_append (a b : string) :
  String.length (a +:+ b) = String.length a + String.length b.
Proof.
  induction a as [| c a IH]; [reflexivity |].
  cbn [String.append String.length]. now rewrite IH.
Qed.

Lemma append_inv_r (a b t : string) : a +:+ t = b +:+ t -> a = b.
Proof.
  revert b. induction a as [| c a IH]; intros [| d b] H.
  - reflexivity.
  - exfalso. apply (f_equal String.length) in H.
    cbn [String.append String.length] in H. rewrite length_append in H. lia.
  - exfalso. apply (f_equal String.length) in H.
    cbn [String.append String.length] in H. rewrite length_append in H. lia.
  - cbn [String.append] in H. injection H as -> H. f_equal. now apply IH.
Qed.

Lemma length_percent_encode_unit (c : ascii) :
  1 < String.length (percent_encode_unit c).
Proof.
  unfold percent_encode_unit. destruct (nat_of_ascii c <? 128)%nat.
  - cbn. lia.
  - rewrite length_append. cbn. lia.
Qed.

Lemma length_encodeURIComponent (s : string) :
  String.length s <= String.length (encodeURIComponent s).
Proof.
  induction s as [| c s IH]; [reflexivity |].
  cbn [encodeURIComponent]. rewrite length_append. cbn [String.length].
  destruct (is_uri_unreserved c).
  - cbn. lia.
  - pose proof (length_percent_encode_unit c). lia.
Qed.

(** [encodeURIComponent] leaves a string as it is exactly when the string
    has unreserved characters only. *)
Lemma encodeURIComponent_fixed (s : string) :
  encodeURIComponent s = s <-> all_chars is_uri_unreserved s = true.
Proof.
  induction s as [| c s IH]; [easy |].
  cbn [encodeURIComponent all_chars].
  destruct (is_uri_unreserved c) eqn:Hc; cbn [andb].
  - cbn [str1 String.append]. rewrite <- IH. split.
    + now intros [= H].
    + now intros ->.
  - split; [| discriminate]. intros H. exfalso.
    apply (f_equal String.length) in H. rewrite length_append in H.
    cbn [String.length] in H.
    pose proof (length_percent_encode_unit c).
    pose proof (length_encodeURIComponent s). lia.
Qed.

End EncodingFacts.

(** X21: the clone URL of the earlier [cloneRepo], which puts the token
    into the URL as it is, is the URL [clone_repo] builds exactly for the
    tokens that have unreserved characters only; for any other token the
    two differ. *)
Theorem earlier_clone_url_is_the_encoded_one_for_plain_tokens_only
    (token repo : string) :
  repoUrl token repo = repo_url token repo
  <-> all_chars is_uri_unreserved token = true.
Proof.
  rewrite <- encodeURIComponent_fixed. unfold repoUrl, repo_url. split.
  - intros H. cbn [String.append] in H. injection H as H.
    symmetry. exact (append_inv_r _ _ _ H).
  - now intros ->.
Qed.

Section CopyFacts.
Context {P PErr : Type} (host : LegacyMain.Host P PErr).

Lemma startsWith_append (a b s : string) :
  startsWith (a +:+ b) s = true -> startsWith a s = true.
Proof.
  revert s. induction a as [| c a IH]; intros s; [reflexivity |].
  destruct s as [| d s]; [discriminate |].
  cbn [String.append]. rewrite !startsWith_cons.
  intros [Hc Hs]%andb_prop. rewrite Hc. cbn [andb]. now apply IH.
Qed.

Lemma startsWith_self (a b : string) : startsWith a (a +:+ b) = true.
Proof.
  induction a as [| c a IH]; [reflexivity |].
  cbn [String.append]. rewrite startsWith_cons, Ascii.eqb_refl. exact IH.
Qed.

Lemma append_assoc (a b c : string) : (a +:+ b) +:+ c = a +:+ (b +:+ c).
Proof.
  induction a as [| x a IH]; [reflexivity |].
  cbn [String.append]. now rewrite IH.
Qed.

Lemma inside_entry (dir entry : string) : inside dir (dir +:+ "/" +:+ entry).
Proof.
  right. rewrite <- append_assoc. apply startsWith_self.
Qed.

Lemma inside_trans (dir entry path : string) :
  inside (dir +:+ "/" +:+ entry) path -> inside dir path.
Proof.
  intros [-> | H]; [apply inside_entry |]. right.
  rewrite <- append_assoc, append_assoc in H.
  now apply startsWith_append in H.
Qed.

Lemma copies_from_to_entry (source dest entry : string) (c : Call) :
  copies_from_to (source +:+ "/" +:+ entry) (dest +:+ "/" +:+ entry) c ->
  copies_from_to source dest c.
Proof.
  destruct c; cbn [copies_from_to]; try tauto; try apply inside_trans.
  intros [? ?]. split; eapply inside_trans; eassumption.
Qed.

Lemma copyDirectoryRecursive_records (fuel : nat) (source dest : string) :
  records (copies_from_to source dest)
    (copyDirectoryRecursive host fuel source dest).
Proof.
  revert source dest. induction fuel as [| fuel IH]; intros source dest.
  - apply records_fail.
  - cbn [copyDirectoryRecursive].
    apply records_bind;
      [apply records_mapError, records_ask; now left | intros _].
    apply records_bind;
      [apply records_mapError, records_ask; now left |].
    intros entries. induction entries as [| entry entries IHe].
    + apply records_ret.
    + apply records_bind;
        [apply records_mapError, records_ask; apply inside_entry |].
      intros entryInfo. apply records_bind; [| intros _; exact IHe].
      destruct (is_Directory entryInfo).
      * eapply records_weaken; [| apply IH].
        apply copies_from_to_entry.
      * apply records_mapError, records_ask. split; apply inside_entry.
Qed.

End CopyFacts.

(** X24: [copyDirectoryRecursive] reads and writes nowhere else. However
    deep it goes, every directory it makes and every file it writes has a
    path that is [dest] or [dest] followed by a slash and more, every
    directory it lists and every entry it inspects or copies from has a
    path that is [source] or [source] followed by a slash and more; it
    makes no other call, and its first call makes [dest]. *)
Theorem copyDirectoryRecursive_stays_inside {P PErr : Type}
    (host : LegacyMain.Host P PErr) (fuel : nat) (source dest : string)
    (st : Run P) :
  exists cs,
    calls (snd (copyDirectoryRecursive host fuel source dest st))
    = calls st ++ cs
    /\ Forall (copies_from_to source dest) cs
    /\ (0 < fuel -> exists rest, cs = MakeDirectory dest :: rest).
Proof.
  destruct (copyDirectoryRecursive_records host fuel source dest st)
    as (cs & Hcs & Hall).
  exists cs. split; [exact Hcs |]. split; [exact Hall |].
  destruct fuel as [| fuel]; [lia |]. intros _.
  cbn [copyDirectoryRecursive] in Hcs. rewrite bind_run in Hcs.
  unfold mapError at 1, ask at 1 in Hcs.
  destruct (fs_makeDirectory host dest (platform st)) as [[[] | e] p].
  - match type of Hcs with
    | calls (snd (?k ?s)) = _ =>
        assert (Hk : exists cs', calls (snd (k s)) = calls s ++ cs')
    end.
    { match goal with
      | |- exists cs', calls (snd (?k ?s)) = _ =>
          assert (Hrec : records (fun _ => True) k)
      end.
      { apply records_bind; [apply records_mapError, records_ask; exact I |].
        intros entries. induction entries as [| entry entries IHe].
        - apply records_ret.
        - apply records_bind;
            [apply records_mapError, records_ask; exact I |].
          intros entryInfo. apply records_bind; [| intros _; exact IHe].
          destruct (is_Directory entryInfo).
          + eapply records_weaken;
              [| apply (copyDirectoryRecursive_records host)]. auto.
          + apply records_mapError, records_ask. exact I. }
      destruct (Hrec {| platform := p;
                        calls := calls st ++ [MakeDirectory dest] |})
        as (cs' & H & _).
      now exists cs'. }
    destruct Hk as (cs' & Hk). rewrite Hk in Hcs. cbn [calls] in Hcs.
    rewrite <- app_assoc in Hcs. apply app_inv_head in Hcs as <-.
    now exists cs'.
  - cbn [snd calls] in Hcs. apply app_inv_head in Hcs as <-. now exists [].
Qed.


(** X25: a directory without subdirectories is copied entry by entry.
    When [dest] can be made, [source] lists [entries], none of which is a
    directory, and each copy succeeds, [copyDirectoryRecursive] succeeds
    without calling itself: it makes [dest], lists [source] and then, in
    the order of the listing, inspects and copies each entry to the same
    name under [dest]. *)
Theorem a_flat_directory_is_copied_entry_by_entry {P PErr : Type}
    (host : LegacyMain.Host P PErr) (fuel : nat) (source dest : string)
    (entries : list string) (st : Run P) (made listed : P) :
  fs_makeDirectory host dest (platform st) = (Success tt, made) ->
  fs_readDirectory host source made = (Success entries, listed) ->
  (forall entry p,
     In entry entries ->
     exists type,
       fs_stat host (source +:+ "/" +:+ entry) p = (Success type, p)
       /\ is_Directory type = false) ->
  (forall entry p,
     In entry entries ->
     exists p',
       fs_copy host (source +:+ "/" +:+ entry) (dest +:+ "/" +:+ entry) p
       = (Success tt, p')) ->
  exists copied,
    copyDirectoryRecursive host (S fuel) source dest st
    = (Success tt,
       {| platform := copied;
          calls := calls st
                   ++ MakeDirectory dest :: ReadDirectory source
                   :: copied_entries source dest entries |}).
Proof.
  intros Hmade Hlisted Hstat Hcopy.
  cbn [copyDirectoryRecursive]. rewrite bind_run. unfold mapError at 1, ask at 1.
  rewrite Hmade. rewrite bind_run. unfold mapError at 1, ask at 1.
  cbn [platform calls]. rewrite Hlisted. clear Hmade Hlisted.
  assert (Hloop : forall (p : P) (cs : list Call),
    exists copied,
      (fix each (entries : list string) : Effect P (Halted PErr) unit :=
         match entries with
         | [] => mret tt
         | entry :: rest =>
             entryInfo ←
               mapError Raised
                 (ask (Stat (source +:+ "/" +:+ entry))
                    (fs_stat host (source +:+ "/" +:+ entry)));
             (if is_Directory entryInfo
              then copyDirectoryRecursive host fuel (source +:+ "/" +:+ entry)
                     (dest +:+ "/" +:+ entry)
              else mapError Raised
                     (ask (Copy (source +:+ "/" +:+ entry)
                             (dest +:+ "/" +:+ entry))
                        (fs_copy host (source +:+ "/" +:+ entry)
                           (dest +:+ "/" +:+ entry))));;
             each rest
         end) entries {| platform := p; calls := cs |}
      = (Success tt,
         {| platform := copied;
            calls := cs ++ copied_entries source dest entries |})).
  { induction entries as [| entry entries IH]; intros p cs.
    - exists p. cbn. now rewrite app_nil_r.
    - rewrite bind_run. unfold mapError at 1, ask at 1. cbn [platform calls].
      destruct (Hstat entry p) as (type & -> & ->); [now left |].
      rewrite bind_run. unfold mapError at 1, ask at 1. cbn [platform calls].
      destruct (Hcopy entry p) as (p' & ->); [now left |].
      destruct (IH (fun e q H => Hstat e q (or_intror H))
                   (fun e q H => Hcopy e q (or_intror H)) p'
                   ((cs ++ [Stat (source +:+ "/" +:+ entry)])
                    ++ [Copy (source +:+ "/" +:+ entry)
                          (dest +:+ "/" +:+ entry)]))
        as (copied & ->).
      exists copied. cbn [copied_entries flat_map app].
      now rewrite <- !app_assoc. }
  destruct (Hloop listed
              ((calls st ++ [MakeDirectory dest]) ++ [ReadDirectory source]))
    as (copied & ->).
  exists copied. now rewrite <- !app_assoc.
Qed.

(** A directory of two files. *)
Lemma a_flat_directory_is_copied_entry_by_entry_witness :
  let host : LegacyMain.Host unit unit :=
    {| getInput := fun _ _ => EmptyString;
       command_string := fun _ p => (Success EmptyString, p);
       fs_makeDirectory := fun _ p => (Success tt, p);
       fs_remove := fun _ p => (Success tt, p);
       fs_exists := fun _ p => (Success true, p);
       fs_stat := fun _ p => (Success File, p);
       fs_copy := fun _ _ p => (Success tt, p);
       fs_readDirectory := fun _ p => (Success ["a.md"; "b.md"], p) |} in
  exists copied,
    copyDirectoryRecursive host 1 "docs" "/clone/docs"
      {| platform := tt; calls := [] |}
    = (Success tt,
       {| platform := copied;
          calls := [MakeDirectory "/clone/docs"; ReadDirectory "docs";
                    Stat "docs/a.md"; Copy "docs/a.md" "/clone/docs/a.md";
                    Stat "docs/b.md"; Copy "docs/b.md" "/clone/docs/b.md"] |}).
Proof.
  intros host.
  exact (a_flat_directory_is_copied_entry_by_entry host 0 "docs" "/clone/docs"
           ["a.md"; "b.md"] {| platform := tt; calls := [] |} tt tt
           eq_refl eq_refl
           (fun _ _ _ => ex_intro _ File (conj eq_refl eq_refl))
           (fun _ p _ => ex_intro _ p eq_refl)).
Defined.


Lemma trim_idem (s : string) : trim (trim s) = trim s.
Proof. unfold trim at 2. now rewrite trim_trim_end, trim_trim_start. Qed.

(** X26: the earlier [commitAndPush] runs its git commands in the clone
    directory and in the order [git status --porcelain], [git add .],
    [git commit -m] with the fixed message, [git push origin main],
    [git rev-parse HEAD], stopping at the first that fails. It succeeds
    with the empty string after the first alone when that printed nothing
    but white space; it succeeds after all five otherwise, and the hash it
    returns is the trimmed output of [git rev-parse]; and when it fails,
    every command it ran but the last succeeded, the last is the one the
    executor failed on, and the error names that command and what the
    executor answered. *)
Theorem earlier_commitAndPush_runs_git_in_the_clone {P PErr : Type}
    (host : LegacyMain.Host P PErr) (cloneDir : string) (st : Run P) :
  let result := commitAndPush host cloneDir st in
  let run_from := executed (command_string host) in
  let p' := LegacyMain.platform (snd result) in
  exists cs left,
    calls (snd result) = calls st ++ cs
    /\ commands_of cs ++ left = earlier_publication cloneDir
    /\ commands_of cs <> []
    /\ match fst result with
       | Success commitHash =>
           exists outputs,
             run_from (commands_of cs) (LegacyMain.platform st)
             = (Success outputs, p')
             /\ ((exists status,
                    outputs = [status]
                    /\ is_empty (trim status) = true
                    /\ length (commands_of cs) = 1
                    /\ commitHash = EmptyString)
                 \/ (exists status added committed pushed hash,
                       outputs = [status; added; committed; pushed; hash]
                       /\ is_empty (trim status) = false
                       /\ left = []
                       /\ commitHash = trim hash))
       | Failure e =>
           exists before failed outputs at_failure error,
             commands_of cs = before ++ [failed]
             /\ run_from before (LegacyMain.platform st)
                = (Success outputs, at_failure)
             /\ command_string host failed at_failure = (Failure error, p')
             /\ e = CommandFailed (command failed) (args failed) error
       end.
Proof.
  cbv zeta. unfold commitAndPush.
  assert (Hcmd : forall arguments,
            command (with_cwd (Some cloneDir) (make "git" arguments)) = "git"
            /\ args (with_cwd (Some cloneDir) (make "git" arguments))
               = arguments).
  { intros arguments. unfold with_cwd.
    destruct (is_empty cloneDir); split; reflexivity. }
  rewrite bind_run, executeCommand_run. cbv zeta.
  destruct st as [p0 cs0]. cbn [LegacyMain.platform calls].
  destruct (command_string host _ p0) as [[status | e] p1] eqn:E1.
  2: { eexists [_], _. cbn [fst snd calls commands_of flat_map app].
       split; [reflexivity |]. split; [reflexivity |].
       split; [discriminate |].
       eexists [], _, [], p0, e. cbn [app executed LegacyMain.platform].
       split; [reflexivity |]. split; [reflexivity |].
       split; [exact E1 |].
       destruct (Hcmd ["status"; "--porcelain"]) as [-> ->]. reflexivity. }
  rewrite trim_idem. destruct (is_empty (trim status)) eqn:Hstatus.
  { rewrite bind_run, tell_run. unfold mret, Effect_ret.
    cbn [fst snd told LegacyMain.platform calls].
    rewrite <- ?app_assoc. cbn [app].
    eexists. eexists. split; [reflexivity |].
    cbn [commands_of flat_map app].
    split; [reflexivity |]. split; [discriminate |].
    exists [status]. cbn [executed]. rewrite E1. split; [reflexivity |].
    left. exists status. auto. }
  rewrite bind_run, executeCommand_run. cbv zeta.
  cbn [LegacyMain.platform calls].
  destruct (command_string host _ p1) as [[added | e] p2] eqn:E2.
  2: { rewrite <- ?app_assoc. cbn [app snd fst calls].
       eexists [_; _], _. cbn [commands_of flat_map app].
       split; [reflexivity |]. split; [reflexivity |].
       split; [discriminate |].
       eexists [_], _, [status], p1, e.
       cbn [app executed LegacyMain.platform]. rewrite E1.
       split; [reflexivity |]. split; [reflexivity |].
       split; [exact E2 |].
       destruct (Hcmd ["add"; "."]) as [-> ->]. reflexivity. }
  rewrite bind_run, executeCommand_run. cbv zeta.
  cbn [LegacyMain.platform calls].
  destruct (command_string host _ p2) as [[committed | e] p3] eqn:E3.
  2: { rewrite <- ?app_assoc. cbn [app snd fst calls].
       eexists [_; _; _], _. cbn [commands_of flat_map app].
       split; [reflexivity |]. split; [reflexivity |].
       split; [discriminate |].
       eexists [_; _], _, [status; added], p2, e.
       cbn [app executed LegacyMain.platform]. rewrite E1, E2.
       split; [reflexivity |]. split; [reflexivity |].
       split; [exact E3 |].
       destruct (Hcmd ["commit"; "-m";
                       "chore: Sync files from source repository"])
         as [-> ->].
       reflexivity. }
  rewrite bind_run, executeCommand_run. cbv zeta.
  cbn [LegacyMain.platform calls].
  destruct (command_string host _ p3) as [[pushed | e] p4] eqn:E4.
  2: { rewrite <- ?app_assoc. cbn [app snd fst calls].
       eexists [_; _; _; _], _. cbn [commands_of flat_map app].
       split; [reflexivity |]. split; [reflexivity |].
       split; [discriminate |].
       eexists [_; _; _], _, [status; added; committed], p3, e.
       cbn [app executed LegacyMain.platform]. rewrite E1, E2, E3.
       split; [reflexivity |]. split; [reflexivity |].
       split; [exact E4 |].
       destruct (Hcmd ["push"; "origin"; "main"]) as [-> ->]. reflexivity. }
  rewrite bind_run, executeCommand_run. cbv zeta.
  cbn [LegacyMain.platform calls].
  destruct (command_string host _ p4) as [[hash | e] p5] eqn:E5.
  2: { rewrite <- ?app_assoc. cbn [app snd fst calls].
       eexists [_; _; _; _; _], _. cbn [commands_of flat_map app].
       split; [reflexivity |]. split; [reflexivity |].
       split; [discriminate |].
       eexists [_; _; _; _], _, [status; added; committed; pushed], p4, e.
       cbn [app executed LegacyMain.platform]. rewrite E1, E2, E3, E4.
       split; [reflexivity |]. split; [reflexivity |].
       split; [exact E5 |].
       destruct (Hcmd ["rev-parse"; "HEAD"]) as [-> ->]. reflexivity. }
  rewrite bind_run, tell_run. unfold mret, Effect_ret.
  cbn [fst snd told LegacyMain.platform calls].
  rewrite <- ?app_assoc. cbn [app].
  eexists. eexists. split; [reflexivity |].
  cbn [commands_of flat_map app].
  split; [reflexivity |]. split; [discriminate |].
  exists [status; added; committed; pushed; hash].
  cbn [executed]. rewrite E1, E2, E3, E4, E5. split; [reflexivity |].
  right. exists status, added, committed, pushed, hash. auto.
Qed.

(** ** A run of the earlier program that succeeds *)

Section LegacySuccess.
Context {P PErr : Type} (host : LegacyMain.Host P PErr).

Lemma bind_success {X A B} (m : Effect P X A) (k : A -> Effect P X B)
    (st st' : Run P) (b : B) :
  (m ≫= k) st = (Success b, st') ->
  exists a st1, m st = (Success a, st1) /\ k a st1 = (Success b, st').
Proof.
  rewrite bind_run. destruct (m st) as [[a | e] st1]; [| discriminate].
  intros H. now exists a, st1.
Qed.

Lemma executeCommand_success (command : string) (args : list string)
    (cwd : option string) (st st' : Run P) (result : string) :
  executeCommand host command args cwd st = (Success result, st') ->
  calls st' = calls st ++ [Execute (with_cwd cwd (make command args))]
  /\ exists output,
       command_string host (with_cwd cwd (make command args))
         (LegacyMain.platform st)
       = (Success output, LegacyMain.platform st')
       /\ result = trim output.
Proof.
  rewrite executeCommand_run. cbv zeta.
  destruct (command_string host _ _) as [[output | e] p]; [| discriminate].
  intros [= <- <-]. split; [reflexivity |]. now exists output.
Qed.

Lemma configureGit_success (config : Legacy.GitConfig) (st st' : Run P) :
  configureGit host config st = (Success tt, st') ->
  calls st'
  = calls st
    ++ [Execute
          (make "git"
             ["config"; "--global"; "user.name"; Legacy.userName config]);
        Execute
          (make "git"
             ["config"; "--global"; "user.email"; Legacy.userEmail config])].
Proof.
  unfold configureGit. intros H.
  apply bind_success in H as (r1 & st1 & H1 & H).
  apply bind_success in H as (r2 & st2 & H2 & H).
  injection H as <-.
  apply executeCommand_success in H1 as (H1 & _).
  apply executeCommand_success in H2 as (H2 & _).
  rewrite H2, H1, <- app_assoc. reflexivity.
Qed.

Lemma cloneRepo_success (inputs : Legacy.ActionInputs) (tempDir : string)
    (st st' : Run P) (cloneDir : string) :
  cloneRepo host inputs tempDir st = (Success cloneDir, st') ->
  cloneDir = tempDir +:+ "/destination-repo"
  /\ calls st'
     = calls st
       ++ [MakeDirectory tempDir; Remove cloneDir;
           Execute
             (make "git"
                ["clone";
                 repoUrl (Legacy.personalAccessToken inputs)
                   (Legacy.destinationRepo inputs);
                 cloneDir])].
Proof.
  rewrite cloneRepo_run. cbv zeta.
  destruct (command_string host _ _) as [[output | e] p]; [| discriminate].
  intros [= <- <-]. split; reflexivity.
Qed.

Lemma copies_are_copy_calls (source dest : string) (c : Call) :
  copies_from_to source dest c -> copy_call c.
Proof. destruct c; cbn; tauto. Qed.

Lemma copy_each_records (fuel : nat) (syncPaths : list (string * string))
    (cloneDir : string) :
  records copy_call (copy_each host fuel syncPaths cloneDir).
Proof.
  induction syncPaths as [| [source destination] rest IH].
  - apply records_ret.
  - cbn [copy_each].
    apply records_bind; [apply records_mapError, records_ask; exact I |].
    intros sourceExists. destruct (negb sourceExists).
    + apply records_bind; [apply records_tell; exact I | intros _; exact IH].
    + apply records_bind; [apply records_ignore, records_ask; exact I | intros _].
      apply records_bind; [apply records_mapError, records_ask; exact I |].
      intros sourceInfo. apply records_bind.
      * destruct (is_Directory sourceInfo).
        -- apply records_mapError.
           eapply records_weaken;
             [apply copies_are_copy_calls
             | apply copyDirectoryRecursive_records].
        -- apply records_mapError, records_ask; exact I.
      * intros _. apply records_bind; [apply records_tell; exact I | intros _].
        exact IH.
Qed.

(** What [commitAndPush] has recorded when it succeeds: it skipped the
    push only if [git status] printed nothing but white space. *)
Lemma commitAndPush_success (cloneDir : string) (st st' : Run P)
    (commitHash : string) :
  commitAndPush host cloneDir st = (Success commitHash, st') ->
  (calls st'
   = calls st
     ++ [Execute
           (with_cwd (Some cloneDir) (make "git" ["status"; "--porcelain"]));
         Info (Kept NoChangesDetected)]
   /\ commitHash = EmptyString
   /\ exists output p,
        command_string host
          (with_cwd (Some cloneDir) (make "git" ["status"; "--porcelain"]))
          (LegacyMain.platform st)
        = (Success output, p)
        /\ is_empty (trim output) = true)
  \/ calls st'
     = calls st
       ++ map Execute (earlier_publication cloneDir)
       ++ [Info (Kept (PushedChanges commitHash))].
Proof.
  unfold commitAndPush. intros H.
  apply bind_success in H as (status & st1 & H1 & H).
  apply executeCommand_success in H1 as (Hc1 & output & Hout & ->).
  rewrite trim_idem in H. destruct (is_empty (trim output)) eqn:Hblank.
  - left. rewrite bind_run, tell_run in H. injection H as <- <-.
    cbn [told calls]. rewrite Hc1, <- app_assoc. split; [reflexivity |].
    split; [reflexivity |]. eauto.
  - right.
    apply bind_success in H as (r2 & st2 & H2 & H).
    apply bind_success in H as (r3 & st3 & H3 & H).
    apply bind_success in H as (r4 & st4 & H4 & H).
    apply bind_success in H as (r5 & st5 & H5 & H).
    rewrite bind_run, tell_run in H. injection H as <- <-.
    apply executeCommand_success in H2 as (Hc2 & _).
    apply executeCommand_success in H3 as (Hc3 & _).
    apply executeCommand_success in H4 as (Hc4 & _).
    apply executeCommand_success in H5 as (Hc5 & _).
    cbn [told calls]. rewrite Hc5, Hc4, Hc3, Hc2, Hc1.
    rewrite <- !app_assoc. reflexivity.
Qed.

(** The calls of the steps after the dry-run notice when they succeed. *)
Lemma proceed_success (fuel : nat) (inputs : Legacy.ActionInputs)
    (st st' : Run P) :
  proceed host fuel inputs st = (Success tt, st') ->
  let cloneDir := Legacy.tempDir +:+ "/destination-repo" in
  let status :=
    with_cwd (Some cloneDir) (make "git" ["status"; "--porcelain"]) in
  exists copies published commitHash,
    calls st'
    = calls st
      ++ [Execute
            (make "git"
               ["config"; "--global"; "user.name"; "github-actions[bot]"])]
      ++ ([Execute
             (make "git"
                ["config"; "--global"; "user.email";
                 "github-actions[bot]@users.noreply.github.com"]);
           MakeDirectory Legacy.tempDir; Remove cloneDir;
           Execute
             (make "git"
                ["clone";
                 repoUrl (Legacy.personalAccessToken inputs)
                   (Legacy.destinationRepo inputs);
                 cloneDir])]
          ++ copies ++ published
          ++ [SetOutput "commit_hash" commitHash; Remove Legacy.tempDir;
              Info (Kept SyncCompleted)])
    /\ (exists cloned copied committed,
          copyFiles host fuel inputs cloneDir cloned = (Success tt, copied)
          /\ calls copied = calls cloned ++ copies
          /\ commitAndPush host cloneDir copied
             = (Success commitHash, committed)
          /\ calls committed = calls copied ++ published)
    /\ Forall copy_call copies
    /\ (published = [Execute status; Info (Kept NoChangesDetected)]
        /\ commitHash = EmptyString
        /\ (exists p output p',
              command_string host status p = (Success output, p')
              /\ is_empty (trim output) = true)
        \/ published
           = map Execute (earlier_publication cloneDir)
             ++ [Info (Kept (PushedChanges commitHash))]).
Proof.
  unfold proceed. cbv zeta. intros H.
  apply bind_success in H as ([] & st1 & H1 & H).
  apply bind_success in H as (cloneDir & st2 & H2 & H).
  apply bind_success in H as ([] & st3 & H3 & H).
  apply bind_success in H as (commitHash & st4 & H4 & H).
  rewrite bind_run, tell_run in H. rewrite bind_run in H.
  apply configureGit_success in H1.
  apply cloneRepo_success in H2 as (-> & H2).
  destruct (copy_each_records fuel (Legacy.syncPaths inputs)
              (Legacy.tempDir +:+ "/destination-repo") st2)
    as (copies & Hcopies & Hall).
  pose proof H3 as Hcopied.
  unfold copyFiles in H3. rewrite H3 in Hcopies. cbn [snd] in Hcopies.
  pose proof H4 as Hcommitted.
  assert (Hend : calls st'
                 = calls st4
                   ++ [SetOutput "commit_hash" commitHash;
                       Remove Legacy.tempDir; Info (Kept SyncCompleted)]).
  { unfold ignore, ask in H. cbn [told LegacyMain.platform calls] in H.
    destruct (fs_remove host Legacy.tempDir (LegacyMain.platform st4))
      as [[[] | e] p]; rewrite tell_run in H; injection H as <-;
      cbn [told calls]; rewrite <- !app_assoc; reflexivity. }
  apply commitAndPush_success in H4
    as [(H4 & -> & output & p & Hout & Hblank) | H4].
  - exists copies,
      [Execute
         (with_cwd (Some (Legacy.tempDir +:+ "/destination-repo"))
            (make "git" ["status"; "--porcelain"]));
       Info (Kept NoChangesDetected)],
      EmptyString.
    split; [| split; [| split; [exact Hall |]]].
    + rewrite Hend, H4, Hcopies, H2, H1.
      cbn [Legacy.gitConfig Legacy.userName Legacy.userEmail].
      rewrite <- !app_assoc. reflexivity.
    + exists st2, st3, st4. auto.
    + left. split; [reflexivity |]. split; [reflexivity |]. eauto.
  - exists copies,
      (map Execute
         (earlier_publication (Legacy.tempDir +:+ "/destination-repo"))
       ++ [Info (Kept (PushedChanges commitHash))]),
      commitHash.
    split; [| split; [| split; [exact Hall |]]].
    + rewrite Hend, H4, Hcopies, H2, H1.
      cbn [Legacy.gitConfig Legacy.userName Legacy.userEmail].
      rewrite <- !app_assoc. reflexivity.
    + exists st2, st3, st4. auto.
    + right. reflexivity.
Qed.

End LegacySuccess.

(** X18: in the earlier [main.ts] a dry run is not dry. When the inputs
    are accepted and [dry_run] is [true], the program gives the dry-run
    notice and goes on: the next call is the command that sets the global
    git identity, and when the run succeeds what follows is the rest of
    any other run: the second [git config], the clone into the temporary
    directory, the calls of [copyFiles], the commands of [commitAndPush],
    the output, the removal of the temporary directory and the closing
    notice. The calls in the middle are those [copyFiles] records for the
    inputs and the clone directory and then those [commitAndPush] records
    in the state the copies left. The push is skipped only if
    [git status] printed nothing but white space. *)
Theorem legacy_dry_run_goes_on {P PErr : Type}
    (host : LegacyMain.Host P PErr) (fuel : nat) (st parsed : Run P)
    (inputs : Legacy.ActionInputs) :
  parseInputs host st = (Success inputs, parsed) ->
  getInput host "dry_run" false = "true" ->
  let cloneDir := Legacy.tempDir +:+ "/destination-repo" in
  let status :=
    with_cwd (Some cloneDir) (make "git" ["status"; "--porcelain"]) in
  Legacy.dryRun inputs = true
  /\ exists rest,
       calls (snd (LegacyMain.program host fuel st))
       = calls parsed
         ++ [Info (Kept (StartingSync (Legacy.destinationRepo inputs) true));
             Info (Kept (FoundSyncPaths (length (Legacy.syncPaths inputs))))]
         ++ map (fun m => Info (Kept m))
              (sync_path_lines (Legacy.syncPaths inputs) 0)
         ++ [Info (Kept DryRunMode);
             Execute
               (make "git"
                  ["config"; "--global"; "user.name"; "github-actions[bot]"])]
         ++ rest
       /\ (fst (LegacyMain.program host fuel st) = Success tt ->
           exists copies published commitHash,
             rest
             = [Execute
                  (make "git"
                     ["config"; "--global"; "user.email";
                      "github-actions[bot]@users.noreply.github.com"]);
                MakeDirectory Legacy.tempDir; Remove cloneDir;
                Execute
                  (make "git"
                     ["clone";
                      repoUrl (Legacy.personalAccessToken inputs)
                        (Legacy.destinationRepo inputs);
                      cloneDir])]
               ++ copies ++ published
               ++ [SetOutput "commit_hash" commitHash; Remove Legacy.tempDir;
                   Info (Kept SyncCompleted)]
             /\ (exists cloned copied committed,
                   copyFiles host fuel inputs cloneDir cloned
                   = (Success tt, copied)
                   /\ calls copied = calls cloned ++ copies
                   /\ commitAndPush host cloneDir copied
                      = (Success commitHash, committed)
                   /\ calls committed = calls copied ++ published)
             /\ Forall copy_call copies
             /\ (published = [Execute status; Info (Kept NoChangesDetected)]
                 /\ commitHash = EmptyString
                 /\ (exists p output p',
                       command_string host status p = (Success output, p')
                       /\ is_empty (trim output) = true)
                 \/ published
                    = map Execute (earlier_publication cloneDir)
                      ++ [Info (Kept (PushedChanges commitHash))])).
Proof.
  intros Hparse Hdry cloneDir status.
  assert (Hflag : Legacy.dryRun inputs = true).
  { rewrite parseInputs_run in Hparse. cbv zeta in Hparse.
    rewrite Hdry in Hparse.
    repeat match type of Hparse with
           | context [if ?c then _ else _] => destruct c
           end; try discriminate Hparse.
    now injection Hparse as <- _. }
  split; [exact Hflag |].
  unfold LegacyMain.program. rewrite bind_run, Hparse.
  rewrite bind_run, tell_run, bind_run, tell_run, bind_run, info_lines_run.
  rewrite Hflag, bind_run, tell_run, !told_told.
  set (st1 := told parsed _).
  destruct (proceed_first host fuel inputs st1) as (rest & Hrest).
  exists rest. split.
  { rewrite Hrest. subst st1. cbn [told calls app].
    rewrite <- ?app_assoc. cbn [app]. rewrite <- ?app_assoc. reflexivity. }
  intros Hok.
  destruct (proceed host fuel inputs st1) as [[[] | e] st'] eqn:Hp;
    [| discriminate Hok].
  destruct (proceed_success host _ _ _ _ Hp)
    as (copies & published & commitHash & Hcalls & Hran & Hall & Hcases).
  cbn [snd] in Hrest. rewrite Hcalls in Hrest.
  apply app_inv_head in Hrest. cbn [app] in Hrest. injection Hrest as <-.
  exists copies, published, commitHash. split; [reflexivity |].
  split; [exact Hran |]. split; [exact Hall | exact Hcases].
Qed.

(** A dry run on a platform where every command succeeds and the clone has
    changes: it pushes. *)
Lemma legacy_dry_run_goes_on_witness :
  let host :=
    changed_host
      (TestEnv.inputs_of "token" "docs:content" EmptyString
         "owner/destination" "true") in
  In (Execute
        (workingDirectory "/tmp/cross-repo-sync/destination-repo"
           (make "git" ["push"; "origin"; "main"])))
    (calls (snd (LegacyMain.program host 1 {| platform := tt; calls := [] |}))).
Proof.
  intros host.
  destruct (legacy_dry_run_goes_on host 1
    {| platform := tt; calls := [] |}
    {| platform := tt; calls := [SetSecret "token"] |}
    {| Legacy.personalAccessToken := "token";
       Legacy.syncPaths := [("docs", "content")];
       Legacy.destinationRepo := "owner/destination";
       Legacy.dryRun := true |}
    eq_refl eq_refl) as (_ & rest & -> & Hrest).
  destruct (Hrest eq_refl)
    as (copies & published & commitHash & -> & _ & _ & Hcases).
  destruct Hcases as [(_ & _ & p & output & p' & Hout & Hblank) | ->].
  { exfalso. injection Hout as <- _. discriminate Hblank. }
  apply in_or_app. right. apply in_or_app. right. apply in_or_app. right.
  apply in_or_app. right. apply in_or_app. right. apply in_or_app. right.
  apply in_or_app. left. cbn. tauto.
Defined.

(** * The token and the directories of a run *)

Import JsString Sync.
Import Notions Plan Composer.

Lemma accepted_token_is_not_empty {W Repo PErr : Type}
    (svc : Services W Repo PErr) (st parsed : State W Repo)
    (inputs : ActionInputs) :
  parse_inputs svc st = (Success inputs, parsed) ->
  get_input svc "personal_access_token" true <> EmptyString.
Proof.
  rewrite parse_inputs_run. cbv zeta.
  destruct (is_empty (get_input svc "personal_access_token" true)) eqn:H;
    [discriminate |].
  intros _. now apply is_empty_false.
Qed.

(** X27: a run whose inputs are accepted registers the token as a secret
    first, and then, after the warnings of the parser, writes the same
    token in clear as the attribute [personal_access_token] of the current
    span, whether the run is a dry run or not and whatever happens later.
    The token is not empty. *)
Theorem accepted_run_puts_the_token_on_the_span {W Repo PErr : Type}
    (svc : Services W Repo PErr) (w : W) (inputs : ActionInputs)
    (parsed : State W Repo) :
  parse_inputs svc {| world := w; trace := [] |} = (Success inputs, parsed) ->
  let token := get_input svc "personal_access_token" true in
  exists warnings rest,
    trace (snd (run (program svc) w))
    = CoreSetSecret token
      :: map CoreWarning warnings
      ++ AnnotateCurrentSpan "personal_access_token" (AttrString token)
      :: rest
    /\ token <> EmptyString.
Proof.
  intros Hparse token.
  pose proof (accepted_token_is_not_empty svc _ _ _ Hparse) as Htoken.
  destruct (program_cases svc w)
    as [(v & warnings & Hfail & _) | (_ & Hcases)].
  { cbv zeta in Hfail. rewrite Hfail in Hparse. discriminate Hparse. }
  apply parse_inputs_success in Hparse as (-> & _).
  exists (read_warnings svc).
  destruct Hcases as [(_ & ->) | (_ & ->)].
  - eexists. cbn [snd trace]. unfold introduction, annotations.
    cbn [input_entries map app fst snd accepted_inputs personal_access_token].
    split; [| exact Htoken]. rewrite <- app_assoc. cbn [app]. reflexivity.
  - destruct (sync_trace svc (accepted_inputs svc)
      {| world := w;
         trace := introduction (accepted_inputs svc) (read_warnings svc) |})
      as (evs & ->).
    eexists. cbn [trace]. unfold introduction, annotations.
    cbn [input_entries map app fst snd accepted_inputs personal_access_token].
    split; [| exact Htoken]. rewrite <- ?app_assoc. cbn [app]. reflexivity.
Qed.

(** The run of the test suite. *)
Lemma accepted_run_puts_the_token_on_the_span_witness :
  let svc := TestEnv.test_services TestEnv.test_scenario in
  let token := get_input svc "personal_access_token" true in
  exists warnings rest,
    trace (snd (run (program svc) TestEnv.initial_volume))
    = CoreSetSecret token
      :: map CoreWarning warnings
      ++ AnnotateCurrentSpan "personal_access_token" (AttrString token)
      :: rest
    /\ token <> EmptyString.
Proof.
  intros svc.
  refine (accepted_run_puts_the_token_on_the_span svc TestEnv.initial_volume
            {| personal_access_token := "test-personal-access-token";
               sync_paths := [("test-sync-paths", "test-sync-paths")];
               source_repo := "test-owner/test-source-repo";
               destination_repo := "test-owner/test-destination-repo";
               dry_run := false |}
            {| world := TestEnv.initial_volume;
               trace := [CoreSetSecret "test-personal-access-token"] |}
            _).
  vm_compute. reflexivity.
Defined.

(** ** The parent of a path *)


Section DirnameFacts.
Import PosixPath MemFs.

Lemma list_of_append (a b : string) :
  list_ascii_of_string (a +:+ b)
  = list_ascii_of_string a ++ list_ascii_of_string b.
Proof.
  induction a as [| c a IH]; [reflexivity |].
  cbn [String.append list_ascii_of_string app]. now rewrite IH.
Qed.

Lemma no_slash_chars (s : string) :
  indexOf slash s = None ->
  Forall (fun c => Ascii.eqb c slash = false) (list_ascii_of_string s).
Proof.
  induction s as [| c s IH]; [constructor |].
  intros [Hc Hs]%indexOf_cons_none. constructor; auto.
Qed.

Lemma drop_while_all {A} (p : A -> bool) (l rest : list A) :
  Forall (fun x => p x = true) l ->
  drop_while p (l ++ rest) = drop_while p rest.
Proof.
  induction 1 as [| x l Hx _ IH]; [reflexivity |].
  cbn [app drop_while]. now rewrite Hx.
Qed.

Lemma drop_while_none {A} (p : A -> bool) (l : list A) :
  Forall (fun x => p x = false) l -> drop_while p l = l.
Proof. destruct 1 as [| x l Hx _]; [reflexivity |]. cbn. now rewrite Hx. Qed.

(** The scan of [dirname] over what follows the first character, read
    backwards: a trailing slash is skipped, then the last segment. *)
Lemma dirname_scan_none (post tail : list ascii) :
  Forall (fun c => Ascii.eqb c slash = true) post ->
  Forall (fun c => Ascii.eqb c slash = false) tail ->
  drop_while (fun c => negb (Ascii.eqb c slash))
    (drop_while (fun c => Ascii.eqb c slash) (post ++ tail))
  = [].
Proof.
  intros Hpost Htail. rewrite drop_while_all by exact Hpost.
  rewrite (drop_while_none (fun c => Ascii.eqb c slash) tail) by exact Htail.
  rewrite <- (app_nil_r tail), drop_while_all; [reflexivity |].
  eapply Forall_impl; [exact Htail |]. cbn. now intros c ->.
Qed.

Lemma dirname_scan_found (post tail before : list ascii) :
  Forall (fun c => Ascii.eqb c slash = true) post ->
  Forall (fun c => Ascii.eqb c slash = false) tail ->
  tail <> [] ->
  drop_while (fun c => negb (Ascii.eqb c slash))
    (drop_while (fun c => Ascii.eqb c slash) (post ++ tail ++ slash :: before))
  = slash :: before.
Proof.
  intros Hpost Htail Hne. rewrite drop_while_all by exact Hpost.
  destruct tail as [| t tail]; [contradiction |].
  inversion Htail as [| ? ? Ht Htail']; subst.
  cbn [app drop_while]. rewrite Ht. cbn [drop_while]. rewrite Ht.
  cbn [negb]. rewrite drop_while_all.
  - cbn [drop_while]. now rewrite Ascii.eqb_refl.
  - eapply Forall_impl; [exact Htail' |]. cbn. now intros c ->.
Qed.

(** [dirname] of a path of one segment, with or without a slash before
    and after it. *)
Lemma dirname_single (first : ascii) (x post : string) :
  indexOf slash x = None ->
  post = EmptyString \/ post = str1 slash ->
  dirname (String first (x +:+ post))
  = if Ascii.eqb first slash then str1 slash else str1 dot.
Proof.
  intros Hx Hpost. unfold dirname.
  rewrite list_of_append, rev_app_distr, dirname_scan_none.
  - reflexivity.
  - destruct Hpost as [-> | ->]; repeat constructor.
  - apply Forall_rev, no_slash_chars, Hx.
Qed.

Lemma is_empty_rev (s : string) :
  is_empty (string_of_list_ascii (rev (list_ascii_of_string s))) = is_empty s.
Proof.
  destruct s as [| c s]; [reflexivity |]. cbn [list_ascii_of_string rev].
  destruct (rev (list_ascii_of_string s)); reflexivity.
Qed.

(** [dirname] of a path of more segments: the path without its last
    segment and the slash before it. *)
Lemma dirname_several (first : ascii) (init last post : string) :
  indexOf slash last = None -> last <> EmptyString ->
  post = EmptyString \/ post = str1 slash ->
  dirname (String first (init +:+ String slash (last +:+ post)))
  = if Ascii.eqb first slash && is_empty init
    then String slash (str1 slash)
    else String first init.
Proof.
  intros Hlast Hne Hpost. unfold dirname.
  rewrite list_of_append. cbn [list_ascii_of_string].
  rewrite list_of_append, rev_app_distr. cbn [rev].
  rewrite rev_app_distr, <- !app_assoc. cbn [app].
  rewrite dirname_scan_found.
  - now rewrite rev_involutive, string_of_list_ascii_of_string, is_empty_rev.
  - destruct Hpost as [-> | ->]; repeat constructor.
  - apply Forall_rev, no_slash_chars, Hlast.
  - destruct last as [| c last]; [contradiction |].
    cbn [list_ascii_of_string rev]. intros H.
    apply (f_equal (@length ascii)) in H. rewrite length_app in H.
    cbn in H. lia.
Qed.

Lemma join_snoc (init : list string) (last : string) :
  init <> [] ->
  join slash (init ++ [last]) = join slash init +:+ String slash last.
Proof.
  induction init as [| w init IH]; [contradiction |]. intros _.
  destruct init as [| w' init].
  - reflexivity.
  - cbn [app] in *. rewrite !join_cons, IH by discriminate.
    now rewrite append_assoc.
Qed.

Lemma indexOf_tail (c d : ascii) (s : string) :
  indexOf c (String d s) = None -> indexOf c s = None.
Proof. now intros [_ H]%indexOf_cons_none. Qed.

(** [dirname] takes the last of the segments of a normalized path, and a
    slash at its end. *)
Lemma dirname_assemble (isAbsolute trailingSeparator : bool)
    (segs : list string) :
  Forall (fun w => is_segment w = true) segs ->
  dirname (assemble isAbsolute trailingSeparator segs)
  = assemble isAbsolute false (removelast segs).
Proof.
  intros Hsegs.
  destruct segs as [| w ws].
  { destruct isAbsolute, trailingSeparator; reflexivity. }
  assert (Hpost : (if trailingSeparator then str1 slash else EmptyString)
                  = EmptyString
                  \/ (if trailingSeparator then str1 slash else EmptyString)
                     = str1 slash)
    by (destruct trailingSeparator; auto).
  destruct (join_segments_chars w ws Hsegs) as (c & body & Hj & Hc & _).
  unfold assemble at 1. rewrite Hj.
  change (is_empty (String c body)) with false. cbv iota.
  destruct (exists_last (l := w :: ws)) as (init & last & Hsplit);
    [discriminate |].
  rewrite Hsplit, removelast_last. rewrite Hsplit in Hsegs, Hj.
  apply Forall_app in Hsegs as [Hinit Hlast].
  inversion Hlast as [| ? ? Hl _]; subst.
  pose proof (is_segment_no_slash _ Hl) as Hlslash.
  assert (Hlne : last <> EmptyString).
  { intros ->. discriminate Hl. }
  destruct init as [| v init].
  - cbn [app join] in Hj. subst last. unfold assemble. cbn [join is_empty].
    destruct isAbsolute.
    + change (str1 slash +:+ String c body +:+ ?p)
        with (String slash (String c body +:+ p)).
      rewrite dirname_single by assumption. now rewrite Ascii.eqb_refl.
    + change (EmptyString +:+ String c body +:+ ?p)
        with (String c (body +:+ p)).
      rewrite dirname_single; [now rewrite Hc | | assumption].
      eapply indexOf_tail, Hlslash.
  - rewrite join_snoc in Hj by discriminate.
    destruct (join_segments_chars v init Hinit) as (c' & ib & Hib & Hc' & _).
    unfold assemble. rewrite Hib.
    change (is_empty (String c' ib)) with false. cbv iota.
    rewrite Hib in Hj. cbn [String.append] in Hj.
    injection Hj as Hcc Hbody. subst c body.
    rewrite append_empty_r.
    destruct isAbsolute.
    + change (str1 slash +:+ String c' (ib +:+ String slash last) +:+ ?p)
        with (String slash
                ((String c' ib +:+ String slash last) +:+ p)).
      rewrite append_assoc. cbn [String.append].
      change (String slash (String c' (ib +:+ String slash (last +:+ ?p))))
        with (String slash (String c' ib +:+ String slash (last +:+ p))).
      rewrite dirname_several by assumption.
      rewrite Ascii.eqb_refl. reflexivity.
    + change (EmptyString +:+ String c' (ib +:+ String slash last) +:+ ?p)
        with (String c' ((ib +:+ String slash last) +:+ p)).
      rewrite append_assoc. cbn [String.append].
      rewrite dirname_several by assumption.
      rewrite Hc'. reflexivity.
Qed.

End DirnameFacts.

Section ParentFacts.
Import PosixPath MemFs.

Lemma removelast_repeat {A} (x : A) (k : nat) :
  removelast (repeat x k) = repeat x (pred k).
Proof.
  induction k as [| k IH]; [reflexivity |].
  destruct k as [| k]; [reflexivity |].
  change (repeat x (S (S k))) with (x :: repeat x (S k)).
  change (removelast (x :: repeat x (S k)))
    with (x :: removelast (repeat x (S k))).
  rewrite IH. reflexivity.
Qed.

Lemma Forall_removelast {A} (Q : A -> Prop) (l : list A) :
  Forall Q l -> Forall Q (removelast l).
Proof.
  induction 1 as [| x l Hx Hl IH]; [constructor |].
  destruct l as [| y l]; [constructor |].
  change (removelast (x :: y :: l)) with (x :: removelast (y :: l)).
  now constructor.
Qed.

(** The parent of a normalized path resolves to the location above. *)
Lemma steps_dirname_assemble (isAbsolute trailingSeparator : bool) (k : nat)
    (names : list string) :
  Forall (fun w => is_name w = true) names ->
  steps (dirname
           (assemble isAbsolute trailingSeparator (repeat dotdot k ++ names)))
  = removelast names.
Proof.
  intros Hnames.
  rewrite dirname_assemble by now apply kept_segments.
  destruct names as [| n names].
  - rewrite app_nil_r, removelast_repeat.
    rewrite <- (app_nil_r (repeat dotdot (pred k))).
    now apply steps_assemble.
  - rewrite removelast_app by discriminate.
    apply steps_assemble. now apply Forall_removelast.
Qed.

Lemma steps_dirname_normalize (path : string) :
  steps (dirname (normalize path)) = removelast (steps path).
Proof.
  unfold normalize. destruct path as [| c path]; [reflexivity |].
  change (is_empty (String c path)) with false. cbv iota zeta.
  destruct (normalize_segments_kept false (split slash (String c path)) [])
    as (k0 & names & Hfalse & Hnames & Hk0).
  { apply split_segments_no_separator. }
  { exists 0, []. repeat split. constructor. }
  rewrite (Hk0 eq_refl) in Hfalse. cbn [repeat app] in Hfalse.
  unfold steps at 2. rewrite Hfalse.
  destruct (startsWith (str1 slash) (String c path)); cbn [negb].
  - rewrite Hfalse. now apply (steps_dirname_assemble _ _ 0).
  - destruct (normalize_segments_above_root (split slash (String c path)) [] 0)
      as (j & Hj); [constructor |].
    cbn [repeat app] in Hj. rewrite Hj, Hfalse.
    now apply steps_dirname_assemble.
Qed.

Lemma steps_dirname_path_join (a b : string) :
  steps (dirname (path_join a b)) = removelast (steps (path_join a b)).
Proof.
  destruct (path_join_normalized a b) as (path & ->).
  now rewrite steps_dirname_normalize, steps_normalize.
Qed.

End ParentFacts.

(** ** The file-system calls of a run *)

(** X28: the file-system calls of a run of [program] stay inside the
    temporary directory that [fs.makeTempDirectory] returned to the run,
    and none of them removes anything. Every directory the run makes is
    the target directory or the parent of the destination of a parsed
    mapping, which is at or under the target directory, or the temporary
    directory itself when the destination side names the target
    directory; both paths of every rename lead from the temporary
    directory. *)
Theorem file_system_calls_stay_inside_the_temporary_directory
    {W Repo PErr : Type} (svc : Services W Repo PErr) (w : W) :
  Forall
    (fun ev : Event Repo =>
       match ev with
       | FsMakeDirectory path =>
           exists temp_dir,
             fst (makeTempDirectory svc w) = Success temp_dir
             /\ (MemFs.steps path = MemFs.steps temp_dir ++ ["target"]
                 \/ exists source destination,
                      In (source, destination)
                        (mappings_of
                           (split newline (get_input svc "sync_paths" true)))
                      /\ MemFs.steps path
                         = MemFs.steps temp_dir
                           ++ removelast
                                ("target" :: MemFs.steps destination))
       | FsRename oldPath newPath =>
           exists temp_dir,
             fst (makeTempDirectory svc w) = Success temp_dir
             /\ MemFs.steps temp_dir `prefix_of` MemFs.steps oldPath
             /\ MemFs.steps temp_dir `prefix_of` MemFs.steps newPath
       | FsRemove _ => False
       | _ => True
       end)
    (trace (snd (run (program svc) w))).
Proof.
  apply Forall_forall. intros ev Hin. apply list_elem_of_In in Hin.
  assert (Hname : forall name : string,
            In name ["destination_repo"; "source_repo"; "target"; ".git"] ->
            ~ has_traversal_segment name).
  { intros name Hn Hup. unfold has_traversal_segment in Hup.
    repeat (destruct Hn as [<- | Hn];
            [cbn in Hup; destruct Hup as [Hup | []]; discriminate Hup |]).
    destruct Hn. }
  assert (Hend : forall (repo : Repo) pushed commit_hash,
            In ev (conclusion repo pushed commit_hash) ->
            match ev with
            | FsMakeDirectory _ | FsRename _ _ | FsRemove _ => False
            | _ => True
            end).
  { intros repo pushed commit_hash H. destruct pushed; cbn in H;
      repeat (destruct H as [<- | H]; [exact I |]); destruct H. }
  destruct ev as [| | | | | | path | oldPath newPath | path | | | | | | | |];
    try exact I;
    (destruct (program_calls svc w _ Hin eq_refl)
       as [Hfirst | (temp_dir & Hmade
                     & [Hsetup | (repo & pushed & commit_hash & H)])];
     [discriminate Hfirst | | exfalso; exact (Hend _ _ _ H)]);
    unfold setup, preparation in Hsetup; cbn [app In] in Hsetup;
    destruct Hsetup as [H | [H | [H | [H | [H | [H | [H | H]]]]]]];
    try discriminate H.
  - exists temp_dir. split; [exact Hmade |].
    left. injection H as <-. unfold target_dir.
    now rewrite steps_path_join by (apply Hname; cbn; tauto).
  - exists temp_dir. split; [exact Hmade |].
    right. apply directory_in_moves in H as (source & destination & Hm & ->).
    cbn [accepted_inputs sync_paths] in Hm.
    exists source, destination. split; [exact Hm |].
    apply in_mappings_of in Hm as (line & _ & Hline).
    apply parse_line_mapping_safe in Hline as (_ & Hd).
    rewrite steps_dirname_path_join. unfold target_dir.
    rewrite !steps_path_join
      by (first [now apply safe_path_descends | apply Hname; cbn; tauto]).
    rewrite <- app_assoc. cbn [app].
    now rewrite removelast_app by discriminate.
  - exists temp_dir. split; [exact Hmade |].
    injection H as <- <-. unfold destination_repo_dir, target_dir.
    rewrite !steps_path_join by (apply Hname; cbn; tauto).
    rewrite <- !app_assoc. split; apply prefix_app_r; reflexivity.
  - exists temp_dir. split; [exact Hmade |].
    apply rename_in_moves in H as (source & destination & Hm & -> & ->).
    cbn [accepted_inputs sync_paths] in Hm.
    apply in_mappings_of in Hm as (line & _ & Hline).
    apply parse_line_mapping_safe in Hline as (Hs & Hd).
    unfold source_repo_dir, target_dir.
    rewrite !steps_path_join
      by (first [now apply safe_path_descends | apply Hname; cbn; tauto]).
    rewrite <- !app_assoc. split; apply prefix_app_r; reflexivity.
  - unfold moves in H. apply List.in_flat_map in H as (m & _ & H).
    cbn [In] in H. destruct H as [H | [H | []]]; discriminate H.
Qed.
